(** * kor4001: morphological post-processing (utils/morph_analyzer.py)

    A shallow embedding of [MorphAnalyzer] and of the interactive decision
    callback of [scripts/preprocessing/03_process_morph.py], followed by the
    properties of the sentence segmenter, the position mapper, the tag
    refiner, the ending extractor, the banmal classifier and the decision
    cache.

    Conventions of the embedding
    - a Python [str] is the list of its Unicode code points ([pystr]), so
      that [len], [find] and slicing count characters exactly as Python does;
    - a token is a Python sequence (tuple or list) of scalar fields;
    - a Python exception is a value [Raise e] of the [result] type;
    - a [while] loop is a [Fixpoint] on a fuel argument; running out of fuel
      is the distinguished result [Raise OutOfFuel], and the lemmas named
      [*_fuel] show that the fuel handed to each loop is never exhausted. *)

From Stdlib Require Ascii String.
From Stdlib Require Import QArith Qcanon.
From stdpp Require Import gmap list countable strings sorting.

Set Default Proof Using "Type".

(* ===================================================================== *)
(** * Python strings *)
(* ===================================================================== *)

Module PyStr.

(** A Python string: its code points, in order. *)
Abbreviation pystr := (list N).

(** Source files are UTF-8: [utf8_decode] turns the bytes of a literal
    into code points ([u "요"] is the one-character string U+C694). *)
Fixpoint utf8_decode (bs : list N) : pystr :=
  match bs with
  | [] => []
  | b :: rest =>
      if (b <? 128)%N then b :: utf8_decode rest
      else if (b <? 224)%N then
        match rest with
        | b1 :: rest1 =>
            ((b mod 32) * 64 + b1 mod 64)%N :: utf8_decode rest1
        | _ => [b]
        end
      else if (b <? 240)%N then
        match rest with
        | b1 :: b2 :: rest2 =>
            ((b mod 16) * 4096 + (b1 mod 64) * 64 + b2 mod 64)%N
              :: utf8_decode rest2
        | _ => [b]
        end
      else
        match rest with
        | b1 :: b2 :: b3 :: rest3 =>
            ((b mod 8) * 262144 + (b1 mod 64) * 4096
             + (b2 mod 64) * 64 + b3 mod 64)%N :: utf8_decode rest3
        | _ => [b]
        end
  end.

Definition u (s : string) : pystr :=
  utf8_decode (Ascii.N_of_ascii <$> String.list_ascii_of_string s).

(** [s.startswith(p)] *)
Fixpoint startswith (s p : pystr) : bool :=
  match p, s with
  | [], _ => true
  | a :: p', b :: s' => (a =? b)%N && startswith s' p'
  | _ :: _, [] => false
  end.

(** First offset [>= i] at which [sub] occurs in the text [s], whose first
    character has offset [i]. *)
Fixpoint find_at (sub s : pystr) (i : nat) : option nat :=
  if startswith s sub then Some i
  else match s with
       | [] => None
       | _ :: s' => find_at sub s' (S i)
       end.

(** [s.find(sub, start)]; [None] stands for Python's [-1]. *)
Definition find (s sub : pystr) (start : nat) : option nat :=
  if decide (start ≤ length s) then find_at sub (drop start s) start
  else None.

(** [sub in s] *)
Definition contains (sub s : pystr) : bool :=
  bool_decide (is_Some (find s sub 0)).

(** [s[a:b]] for non-negative [a] and [b]. *)
Definition slice (s : pystr) (a b : nat) : pystr := drop a (take b s).

(** The characters for which [str.isspace] holds; [str.strip()] removes
    them at both ends. *)
Definition isspace (c : N) : bool :=
  ((9 <=? c) && (c <=? 13) || (28 <=? c) && (c <=? 32)
   || (c =? 133) || (c =? 160) || (c =? 5760)
   || (8192 <=? c) && (c <=? 8202)
   || (c =? 8232) || (c =? 8233) || (c =? 8239) || (c =? 8287)
   || (c =? 12288))%N.

Fixpoint lstrip (s : pystr) : pystr :=
  match s with
  | c :: s' => if isspace c then lstrip s' else s
  | [] => []
  end.

Definition rstrip (s : pystr) : pystr := reverse (lstrip (reverse s)).

Definition strip (s : pystr) : pystr := rstrip (lstrip s).

(** [s.endswith(p)] *)
Definition endswith (s p : pystr) : bool :=
  startswith (reverse s) (reverse p).

End PyStr.
Import PyStr.

(* ===================================================================== *)
(** * Python values, sequences, exceptions *)
(* ===================================================================== *)

Module Py.

(** The scalar fields a token can hold: a string, a finite number (an
    [int] or a [float], by its exact rational value, which is what
    Python's comparisons and [==] between the two use) or [None]. *)
Inductive pyval :=
| PStr (s : pystr)
| PNum (q : Qc)
| PNone.

#[global] Instance pyval_eq_dec : EqDecision pyval.
Proof. solve_decision. Defined.

#[global] Instance pyval_countable : Countable pyval.
Proof.
  refine (inj_countable'
    (λ v, match v with
          | PStr s => inl s
          | PNum q => inr (inl q)
          | PNone => inr (inr ())
          end)
    (λ x, match x with
          | inl s => PStr s
          | inr (inl q) => PNum q
          | inr (inr _) => PNone
          end) _).
  by intros [].
Defined.

(** Truth value of a scalar ([if v:], [not v]). *)
Definition truthy (v : pyval) : bool :=
  match v with
  | PStr s => negb (bool_decide (s = []))
  | PNum q => negb (bool_decide (q = 0%Qc))
  | PNone => false
  end.

(** [v == 'literal'] *)
Definition eq_str (v : pyval) (s : pystr) : bool := bool_decide (v = PStr s).

(** A token is a Python sequence: the tagger returns tuples, the tagged
    CSV files (read back with [json.loads]) hold lists. *)
Inductive seqkind := KTuple | KList.

Record token := Token { tkind : seqkind; fields : list pyval }.

#[global] Instance seqkind_eq_dec : EqDecision seqkind.
Proof. solve_decision. Defined.

#[global] Instance token_eq_dec : EqDecision token.
Proof. solve_decision. Defined.

Definition tuple (fs : list pyval) : token := Token KTuple fs.
Definition pylist (fs : list pyval) : token := Token KList fs.

(** [len(token)] *)
Definition len (t : token) : nat := length (fields t).

Inductive exn :=
| IndexError | TypeError | AttributeError | ValueError | EOFError
| OutOfFuel.

Inductive result (A : Type) :=
| Ok (a : A)
| Raise (e : exn).
Arguments Ok {A} a.
Arguments Raise {A} e.

#[global] Instance result_ret : MRet result := @Ok.
#[global] Instance result_bind : MBind result :=
  λ A B f r, match r with Ok a => f a | Raise e => Raise e end.

#[global] Instance result_fmap : FMap result :=
  λ A B f r, match r with Ok a => Ok (f a) | Raise e => Raise e end.

(** [token[i]] *)
Definition getitem (t : token) (i : nat) : result pyval :=
  match fields t !! i with
  | Some v => Ok v
  | None => Raise IndexError
  end.

(** [tokens[i]] on a list of tokens *)
Definition getindex {A} (l : list A) (i : nat) : result A :=
  match l !! i with
  | Some v => Ok v
  | None => Raise IndexError
  end.

(** [v.startswith(p)]: only strings have the method. *)
Definition py_startswith (v : pyval) (p : pystr) : result bool :=
  match v with
  | PStr s => Ok (startswith s p)
  | _ => Raise AttributeError
  end.

(** [p in v] for a string [p]: a number or [None] is not iterable. *)
Definition py_contains (p : pystr) (v : pyval) : result bool :=
  match v with
  | PStr s => Ok (contains p s)
  | _ => Raise TypeError
  end.

(** [v <= c] for a float literal [c]: numbers compare by value, a string
    or [None] does not compare with a float. *)
Definition py_le (v : pyval) (c : Qc) : result bool :=
  match v with
  | PNum q => Ok (bool_decide (q ≤ c)%Qc)
  | _ => Raise TypeError
  end.

(** The float literals of the source, by the exact value of the double
    each one denotes. *)
Definition float_0_9 : Qc := Q2Qc (8106479329266893 # 9007199254740992).
Definition float_0_92 : Qc := Q2Qc (8286623314361713 # 9007199254740992).
Definition float_0_5 : Qc := Q2Qc (1 # 2).

Definition Qc_of_nat (n : nat) : Qc := Q2Qc (inject_Z (Z.of_nat n)).

(** Code that may call the decision source threads the state [St] of the
    outside world (the decision cache, the terminal) and may raise. *)
Definition M (St A : Type) : Type := St → result (A * St).

Definition lift {St A} (r : result A) : M St A :=
  λ s, match r with Ok a => Ok (a, s) | Raise e => Raise e end.

#[global] Instance M_ret {St} : MRet (M St) := λ A a s, Ok (a, s).
#[global] Instance M_bind {St} : MBind (M St) :=
  λ A B f m s, match m s with Ok (a, s') => f a s' | Raise e => Raise e end.

End Py.
Import Py.

(* ===================================================================== *)
(** * utils/morph_analyzer.py *)
(* ===================================================================== *)

Module MorphAnalyzer.

Definition FINAL_ENDING_TAGS : list pystr := [u "EF"; u "ECF"].
Definition SPLIT_ENDING_TAGS : list pystr := [u "EF"].

(** [tag in TAGS] for a set of strings. *)
Definition tag_in (tag : pyval) (tags : list pystr) : bool :=
  existsb (eq_str tag) tags.

(** ** extract_final_endings *)

(** The inner [while lookahead < len(tokens)] loop (lines 45-57); it
    returns the updated [idx] and [endings]. *)
Fixpoint endings_lookahead (tokens : list token) (fuel lookahead idx : nat)
    (endings : list token) : result (nat * list token) :=
  match fuel with
  | 0 => Raise OutOfFuel
  | S fuel' =>
      if decide (lookahead < length tokens) then
        next_token ← getindex tokens lookahead;
        if decide (len next_token < 2) then
          endings_lookahead tokens fuel' (lookahead + 1) idx endings
        else
          next_tag ← getitem next_token 1;
          is_josa ← py_startswith next_tag (u "J");
          if is_josa || eq_str next_tag (u "EP") then
            endings_lookahead tokens fuel' (lookahead + 1)
              (lookahead + 1 - 1) (endings ++ [next_token])
          else Ok (idx, endings)
      else Ok (idx, endings)
  end.

(** The outer [while idx < len(tokens)] loop (lines 33-59). *)
Fixpoint endings_loop (tokens : list token) (fuel idx : nat)
    (endings : list token) : result (list token) :=
  match fuel with
  | 0 => Raise OutOfFuel
  | S fuel' =>
      if decide (idx < length tokens) then
        token ← getindex tokens idx;
        if decide (len token < 2) then
          endings_loop tokens fuel' (idx + 1) endings
        else
          tag ← getitem token 1;
          if tag_in tag FINAL_ENDING_TAGS then
            '(idx', endings') ←
              endings_lookahead tokens (S (length tokens)) (idx + 1) idx
                (endings ++ [token]);
            endings_loop tokens fuel' (idx' + 1) endings'
          else endings_loop tokens fuel' (idx + 1) endings
      else Ok endings
  end.

Definition extract_final_endings (tokens : list token)
    : result (list token) :=
  if decide (tokens = []) then Ok []
  else endings_loop tokens (S (length tokens)) 0 [].

(** ** _token_positions *)

(** [token[0] if token and isinstance(token, (list, tuple)) else ''] *)
Definition surface (token : Py.token) : pyval :=
  match fields token with
  | morph :: _ => morph
  | [] => PStr []
  end.

(** The [for token in tokens] loop (lines 67-80), from the cursor it has
    reached. *)
Fixpoint positions_from (sentence : pystr) (tokens : list token)
    (cursor : nat) : result (list (nat * nat)) :=
  match tokens with
  | [] => Ok []
  | token :: rest =>
      let morph := surface token in
      if negb (truthy morph) then
        positions ← positions_from sentence rest cursor;
        Ok ((cursor, cursor) :: positions)
      else
        match morph with
        | PStr m =>
            let idx := find sentence m cursor in
            let idx := match idx with
                       | None => find sentence m 0
                       | Some _ => idx
                       end in
            match idx with
            | None =>
                positions ← positions_from sentence rest cursor;
                Ok ((cursor, cursor) :: positions)
            | Some idx =>
                let end_ := idx + length m in
                positions ← positions_from sentence rest end_;
                Ok ((idx, end_) :: positions)
            end
        | _ => Raise TypeError
        end
  end.

Definition _token_positions (sentence : pystr) (tokens : list token)
    : result (list (nat * nat)) :=
  positions_from sentence tokens 0.

(** ** _refine_tokens *)

Section Refine.
Context {St : Type}.

(** [callback(token, tokens, i, sentence)] *)
Definition callback_t : Type :=
  token → list token → nat → option pystr → M St pyval.

(** [morph in {...}] for a set of strings. *)
Definition morph_in (morph : pyval) (set : list pystr) : bool :=
  existsb (eq_str morph) set.

(** Rule 0 (lines 99-107). *)
Definition rule_etn (tokens : list token) (i : nat)
    (morph tag new_tag : pyval) : result pyval :=
  if eq_str tag (u "ETN")
     && morph_in morph [u "ㅁ"; u "음"; u "기"; u "긔"] then
    is_followed_by_josa ←
      (if decide (i + 1 < length tokens) then
         next_token ← getindex tokens (i + 1);
         if decide (2 ≤ len next_token) then
           next_tag ← getitem next_token 1;
           py_startswith next_tag (u "J")
         else Ok false
       else Ok false);
    Ok (if is_followed_by_josa : bool then new_tag else PStr (u "EF"))
  else Ok new_tag.

(** [for j in range(i + 1, len(tokens))] of rule 0-1 (lines 114-117),
    over [tokens[i+1:]]. *)
Fixpoint is_last_meaningful (following : list token) : result bool :=
  match following with
  | [] => Ok true
  | token_j :: following' =>
      tag_j ← getitem token_j 1;
      is_symbol ← py_startswith tag_j (u "S");
      if is_symbol : bool then is_last_meaningful following'
      else Ok false
  end.

(** Rule 0-1 (lines 112-120). *)
Definition rule_ec (tokens : list token) (i : nat)
    (tag new_tag : pyval) : result pyval :=
  if eq_str tag (u "EC") then
    last ← is_last_meaningful (drop (i + 1) tokens);
    Ok (if last : bool then PStr (u "ECF") else new_tag)
  else Ok new_tag.

(** Rule 1 (lines 124-125). *)
Definition rule_neologism (morph prob new_tag : pyval) : result pyval :=
  if eq_str morph (u "긔") || eq_str morph (u "노")
     || eq_str morph (u "나") || eq_str morph (u "슨")
     || eq_str morph (u "임") then
    low ← py_le prob float_0_9;
    Ok (if low : bool then PStr (u "EF") else new_tag)
  else Ok new_tag.

(** The automatic rules, in the order of the source (lines 95-125). *)
Definition auto_rules (tokens : list token) (i : nat)
    (morph tag prob : pyval) : result pyval :=
  new_tag ← rule_etn tokens i morph tag tag;
  new_tag ← rule_ec tokens i tag new_tag;
  rule_neologism morph prob new_tag.

(** [decision = callback(...); if decision: new_tag = decision] *)
Definition ask (callback : callback_t) (token : Py.token)
    (tokens : list Py.token) (i : nat) (sentence : option pystr)
    (new_tag : pyval) : M St pyval :=
  decision ← callback token tokens i sentence;
  mret (if truthy decision then decision else new_tag).

(** The interactive part (lines 128-149). *)
Definition interactive_rules (callback : option callback_t)
    (token : Py.token) (tokens : list Py.token) (i : nat)
    (sentence : option pystr) (morph prob new_tag : pyval)
    : M St pyval :=
  match callback with
  | None => mret new_tag
  | Some callback =>
      is_low_ec ←
        (if eq_str new_tag (u "EC") then lift (py_le prob float_0_92)
         else mret false);
      if is_low_ec : bool then
        ask callback token tokens i sentence new_tag
      else if eq_str new_tag (u "ETN")
              && morph_in morph [u "ㅁ"; u "음"] then
        ask callback token tokens i sentence new_tag
      else if eq_str morph (u "임") then
        ask callback token tokens i sentence new_tag
      else mret new_tag
  end.

(** One turn of the [for i, token in enumerate(tokens)] loop. *)
Definition refine_token (tokens : list token) (sentence : option pystr)
    (callback : option callback_t) (i : nat) (token : Py.token)
    : M St Py.token :=
  if decide (3 ≤ len token) then
    morph ← lift (getitem token 0);
    tag ← lift (getitem token 1);
    prob ← lift (getitem token 2);
    oov ← lift (if decide (4 ≤ len token) then getitem token 3
                else Ok (PNum 0%Qc));
    new_tag ← lift (auto_rules tokens i morph tag prob);
    new_tag ← interactive_rules callback token tokens i sentence
                morph prob new_tag;
    if decide (new_tag ≠ tag) then mret (tuple [morph; new_tag; prob; oov])
    else mret token
  else mret token.

(** The loop itself, at index [i], over [tokens[i:]]. *)
Fixpoint refine_from (tokens : list token) (sentence : option pystr)
    (callback : option callback_t) (i : nat) (todo : list token)
    : M St (list token) :=
  match todo with
  | [] => mret []
  | token :: todo' =>
      token' ← refine_token tokens sentence callback i token;
      refined ← refine_from tokens sentence callback (i + 1) todo';
      mret (token' :: refined)
  end.

Definition _refine_tokens (tokens : list token) (sentence : option pystr)
    (callback : option callback_t) : M St (list token) :=
  refine_from tokens sentence callback 0 tokens.

End Refine.

(** ** segment_sentence_by_endings *)

(** A Clause Segment: [(text, tokens)]. *)
Definition segment : Type := pystr * list token.

(** The variables of the walk: [buffer_tokens], [start_pos], [end_pos]
    and [segments]. [spans] is a ghost field, absent from the source: it
    records the pair [(start_pos, final_end)] of every flush, the slice
    of the sentence whose trimmed text the segment holds. *)
Record seg_state := SegState {
  buffer_tokens : list token;
  start_pos : option nat;
  end_pos : option nat;
  segments : list segment;
  spans : list (nat * nat)
}.

(** [(t[0], 'ECF') + t[2:]]: a tuple concatenates with a tuple only. *)
Definition retag_ecf (t : token) : result token :=
  t0 ← getitem t 0;
  match tkind t with
  | KTuple => Ok (tuple ([t0; PStr (u "ECF")] ++ drop 2 (fields t)))
  | KList => Raise TypeError
  end.

(** [flush_buffer(explicit_end_pos)] (lines 181-201). *)
Definition flush_buffer (sentence : pystr) (explicit_end_pos : option nat)
    (st : seg_state) : result seg_state :=
  match buffer_tokens st, start_pos st with
  | [], _ | _, None => Ok st
  | _ :: _, Some start =>
      let final_end :=
        match explicit_end_pos with
        | Some e => e
        | None => default (length sentence) (end_pos st)
        end in
      t ← getindex (buffer_tokens st) (length (buffer_tokens st) - 1);
      tag ← getitem t 1;
      buffer ←
        (if eq_str tag (u "EC") then
           t' ← retag_ecf t;
           Ok (<[length (buffer_tokens st) - 1 := t']> (buffer_tokens st))
         else Ok (buffer_tokens st));
      let text := slice sentence start final_end in
      Ok {| buffer_tokens := [];
            start_pos := None;
            end_pos := None;
            segments := segments st ++ [(strip text, buffer)];
            spans := spans st ++ [(start, final_end)] |}
  end.

(** The absorbing [while lookahead < len(tokens)] loop (lines 222-234);
    it returns [lookahead], [buffer_tokens] and [end_pos]. *)
Fixpoint absorb (tokens : list token) (positions : list (nat * nat))
    (fuel lookahead : nat) (buffer : list token) (end_pos : option nat)
    : result (nat * list token * option nat) :=
  match fuel with
  | 0 => Raise OutOfFuel
  | S fuel' =>
      if decide (lookahead < length tokens) then
        next_token ← getindex tokens lookahead;
        if decide (len next_token < 2) then
          absorb tokens positions fuel' (lookahead + 1) buffer end_pos
        else
          next_tag ← getitem next_token 1;
          is_josa ← py_startswith next_tag (u "J");
          glue ← (if is_josa || eq_str next_tag (u "EP") then Ok true
                  else py_startswith next_tag (u "S"));
          if glue : bool then
            p ← getindex positions lookahead;
            absorb tokens positions fuel' (lookahead + 1)
              (buffer ++ [next_token])
              (if decide (p.1 < p.2) then Some p.2 else end_pos)
          else Ok (lookahead, buffer, end_pos)
      else Ok (lookahead, buffer, end_pos)
  end.

(** The choice of [split_end] (lines 238-259). *)
Definition split_boundary (sentence : pystr) (tokens : list token)
    (positions : list (nat * nat)) (lookahead : nat)
    (end_pos : option nat) : result (option nat) :=
  let split_end := end_pos in
  if decide (lookahead < length tokens) then
    p ← getindex positions lookahead;
    let next_start := p.1 in
    match end_pos with
    | None => Ok (Some next_start)
    | Some e =>
        if decide (e ≤ next_start) then Ok (Some next_start)
        else Ok split_end
    end
  else Ok (Some (length sentence)).

(** One turn of the [while idx < len(tokens)] loop (lines 204-267); it
    returns the next [idx] and the updated variables. *)
Definition seg_iter (sentence : pystr) (tokens : list token)
    (positions : list (nat * nat)) (idx : nat) (st : seg_state)
    : result (nat * seg_state) :=
  token ← getindex tokens idx;
  if decide (len token < 2) then Ok (idx + 1, st)
  else
    p ← getindex positions idx;
    let buffer := buffer_tokens st ++ [token] in
    let start := match start_pos st with
                 | None => Some p.1
                 | Some s => Some s
                 end in
    let end_ := if decide (p.1 < p.2) then Some p.2 else end_pos st in
    tag ← getitem token 1;
    if tag_in tag SPLIT_ENDING_TAGS then
      '(lookahead, buffer, end_) ←
        absorb tokens positions (S (length tokens)) (idx + 1) buffer end_;
      split_end ← split_boundary sentence tokens positions lookahead end_;
      st' ← flush_buffer sentence split_end
              (SegState buffer start end_ (segments st) (spans st));
      Ok (lookahead, st')
    else
      Ok (idx + 1, SegState buffer start end_ (segments st) (spans st)).

Fixpoint seg_loop (sentence : pystr) (tokens : list token)
    (positions : list (nat * nat)) (fuel idx : nat) (st : seg_state)
    : result seg_state :=
  match fuel with
  | 0 => Raise OutOfFuel
  | S fuel' =>
      if decide (idx < length tokens) then
        '(idx', st') ← seg_iter sentence tokens positions idx st;
        seg_loop sentence tokens positions fuel' idx' st'
      else Ok st
  end.

Definition seg_init : seg_state := SegState [] None None [] [].

(** The walk and the last flush (lines 170-270), on the refined tokens;
    it returns the final variables, ghost field included. *)
Definition seg_walk (sentence : pystr) (tokens : list token)
    : result seg_state :=
  positions ← _token_positions sentence tokens;
  st ← seg_loop sentence tokens positions (S (length tokens)) 0 seg_init;
  flush_buffer sentence (Some (length sentence)) st.

Definition segment_sentence_by_endings {St} (sentence : pystr)
    (tokens : list token) (refinement_callback : option (@callback_t St))
    : M St (list segment) :=
  if decide (sentence = [] ∨ tokens = []) then mret [(sentence, tokens)]
  else
    tokens ← _refine_tokens tokens (Some sentence) refinement_callback;
    st ← lift (seg_walk sentence tokens);
    mret (segments st).

(** ** is_banmal *)

Definition polite_endings : list pystr :=
  [u "요"; u "죠"; u "습니다"; u "ㅂ니다"; u "까요"; u "나요"; u "인가요"].

(** [any(p in morph for p in polite_endings)] *)
Fixpoint any_in (ps : list pystr) (morph : pyval) : result bool :=
  match ps with
  | [] => Ok false
  | p :: ps' =>
      found ← py_contains p morph;
      if found : bool then Ok true else any_in ps' morph
  end.

(** The scoring loop (lines 324-331). *)
Fixpoint banmal_scores (endings : list token)
    (banmal_score polite_score : nat) : result (nat * nat) :=
  match endings with
  | [] => Ok (banmal_score, polite_score)
  | ending :: endings' =>
      morph ← getitem ending 0;
      tag ← getitem ending 1;
      is_polite ← any_in polite_endings morph;
      if is_polite : bool then
        banmal_scores endings' banmal_score (polite_score + 1)
      else banmal_scores endings' (banmal_score + 1) polite_score
  end.

(** [banmal_score * 0.5] is exact in floating point for every count
    below 2^53, and Python compares an [int] with a [float] by value. *)
Definition is_banmal (endings : list token) : result bool :=
  if decide (endings = []) then Ok false
  else
    '(banmal_score, polite_score) ← banmal_scores endings 0 0;
    if bool_decide (0 < polite_score)
       && bool_decide (Qc_of_nat banmal_score * float_0_5
                         ≤ Qc_of_nat polite_score)%Qc
    then Ok false
    else Ok true.

(** ** extract_symbols *)

(** A character class [[...]] of a regular expression: its ranges. *)
Definition char_class : Type := list (N * N).

(** The one character of a literal. *)
Definition chr (s : string) : N := default 0%N (head (u s)).

Definition in_class (cls : char_class) (c : N) : bool :=
  existsb (λ r, (r.1 <=? c)%N && (c <=? r.2)%N) cls.

(** [[ㄱ-ㅎㅏ-ㅣ]+] and [[?!~…\.]+]: the class of each pattern. *)
Definition EMOTION_REGEX : char_class :=
  [(chr "ㄱ", chr "ㅎ"); (chr "ㅏ", chr "ㅣ")].
Definition PUNCTUATION_REGEX : char_class :=
  [(chr "?", chr "?"); (chr "!", chr "!"); (chr "~", chr "~");
   (chr "…", chr "…"); (chr ".", chr ".")].

(** [regex.finditer(text)] for a pattern [[class]+]: the maximal runs of
    characters of the class, from left to right; [run] is the run being
    read. *)
Fixpoint finditer (cls : char_class) (text run : pystr) : list pystr :=
  match text with
  | [] => if decide (run = []) then [] else [run]
  | c :: text' =>
      if in_class cls c then finditer cls text' (run ++ [c])
      else if decide (run = []) then finditer cls text' []
      else run :: finditer cls text' []
  end.

(** The body of each [for match in ...] loop (lines 283-291). *)
Fixpoint collect_sequences (matches found : list pystr) : list pystr :=
  match matches with
  | [] => found
  | group :: matches' =>
      let sequence := take 3 group in
      if bool_decide (sequence ≠ []) && bool_decide (sequence ∉ found) then
        collect_sequences matches' (found ++ [sequence])
      else collect_sequences matches' found
  end.

(** It returns [(punctuation, other_symbols)]. *)
Definition extract_symbols (text : pyval) : list pystr * list pystr :=
  match text with
  | PStr text =>
      let other_symbols :=
        collect_sequences (finditer EMOTION_REGEX text []) [] in
      let punctuation :=
        collect_sequences (finditer PUNCTUATION_REGEX text []) [] in
      (punctuation, other_symbols)
  | _ => ([], [])
  end.

(** ** split_sentences *)

(** The class [[.!?]] of the look-behind. *)
Definition SENTENCE_END : char_class :=
  [(chr ".", chr "."); (chr "!", chr "!"); (chr "?", chr "?")].

(** [re.split(r'(?<=[.!?])\s+', text)]: a separator is a maximal run of
    whitespace that comes right after a character of [[.!?]]. [after_end]
    tells whether the character just read is one of these, [in_separator]
    whether a separator is being read, [piece] is the piece being read;
    the last piece is returned even when empty. *)
Fixpoint re_split (text : pystr) (after_end in_separator : bool)
    (piece : pystr) : list pystr :=
  match text with
  | [] => [piece]
  | c :: text' =>
      if in_separator then
        if isspace c then re_split text' false true []
        else re_split text' (in_class SENTENCE_END c) false [c]
      else if after_end && isspace c then piece :: re_split text' false true []
      else re_split text' (in_class SENTENCE_END c) false (piece ++ [c])
  end.

(** [[s.strip() for s in sentences if s.strip()]] *)
Fixpoint strip_nonblank (sentences : list pystr) : list pystr :=
  match sentences with
  | [] => []
  | s :: sentences' =>
      if bool_decide (strip s ≠ []) then strip s :: strip_nonblank sentences'
      else strip_nonblank sentences'
  end.

Definition split_sentences (text : pyval) : list pystr :=
  match text with
  | PStr text => strip_nonblank (re_split text false false [])
  | _ => []
  end.

End MorphAnalyzer.

(* ===================================================================== *)
(** * scripts/preprocessing/03_process_morph.py *)
(* ===================================================================== *)

Module ProcessMorph.
Import MorphAnalyzer.

(** What the callback writes to the terminal: one constructor per
    [print] of the source (the wording and the number formatting of the
    lines are left out), and the prompt of each [input]. *)
Inductive message :=
| MsgCheck (morph tag prob : pyval)
| MsgSentence (sentence : pystr)
| MsgContext (context : list (pyval * pyval * bool))
| MsgOptions
| MsgPrompt (prompt : pystr)
| MsgInvalidTag
| MsgInvalidChoice.

(** The module-level state and the terminal: the dict [decision_cache],
    the dict [stats] (its key ['corrections'] is there from the start,
    ['deletions'] appears with the first deletion), the lines still to be
    typed by the operator and what has been printed so far. *)
Record world := World {
  decision_cache : gmap (pyval * pyval) pystr;
  corrections : nat;
  deletions : option nat;
  stdin : list pystr;
  stdout : list message
}.

Definition emit (m : message) (w : world) : world :=
  World (decision_cache w) (corrections w) (deletions w) (stdin w)
    (stdout w ++ [m]).

Definition set_stdin (lines : list pystr) (w : world) : world :=
  World (decision_cache w) (corrections w) (deletions w) lines (stdout w).

(** [decision_cache[cache_key] = decision] *)
Definition cache_put (cache_key : pyval * pyval) (decision : pystr)
    (w : world) : world :=
  World (<[cache_key := decision]> (decision_cache w)) (corrections w)
    (deletions w) (stdin w) (stdout w).

(** [stats['corrections'] += 1] *)
Definition count_correction (w : world) : world :=
  World (decision_cache w) (corrections w + 1) (deletions w) (stdin w)
    (stdout w).

(** [stats['deletions'] = stats.get('deletions', 0) + 1] *)
Definition count_deletion (w : world) : world :=
  World (decision_cache w) (corrections w)
    (Some (default 0 (deletions w) + 1)) (stdin w) (stdout w).

Section Interactive.
(** [str.lower] and [str.upper]: the case tables of the Python runtime. *)
Variables lower upper : pystr → pystr.

(** The context loop (lines 53-61): the tokens of the window with the
    flag of the one under review. *)
Fixpoint context_from (context_tokens : list token) (index i n : nat)
    : result (list (pyval * pyval * bool)) :=
  match n with
  | 0 => Ok []
  | S n' =>
      t ← getindex context_tokens i;
      t0 ← getitem t 0;
      t1 ← getitem t 1;
      rest ← context_from context_tokens index (i + 1) n';
      Ok ((t0, t1, bool_decide (i = index)) :: rest)
  end.

Definition context_window (context_tokens : list token) (index : nat)
    : result (list (pyval * pyval * bool)) :=
  let start := 0 `max` (index - 3) in
  let end_ := length context_tokens `min` (index + 4) in
  context_from context_tokens index start (end_ - start).

(** [f"{prob:.4f}"] accepts numbers only. *)
Definition format_prob (prob : pyval) : result unit :=
  match prob with
  | PNum _ => Ok ()
  | PStr _ => Raise ValueError
  | PNone => Raise TypeError
  end.

(** The [while True] loop (lines 68-116), on the lines the operator
    still types; [input] on an exhausted terminal raises [EOFError]. *)
Fixpoint prompt (cache_key : pyval * pyval) (lines : list pystr)
    (w : world) : result (pyval * world) :=
  let w := emit MsgOptions w in
  match lines with
  | [] => Raise EOFError
  | line :: lines1 =>
      let w := set_stdin lines1 (emit (MsgPrompt (u "Choice: ")) w) in
      let choice := lower (strip line) in
      let apply_all :=
        bool_decide (1 < length choice) && endswith choice (u "a") in
      let choice :=
        if apply_all then take (length choice - 1) choice else choice in
      if bool_decide (choice = u "e") then
        let new_tag := u "EF" in
        let w := if apply_all then cache_put cache_key new_tag w else w in
        Ok (PStr new_tag, count_correction w)
      else if bool_decide (choice = u "k") then
        let w :=
          if apply_all then cache_put cache_key (u "KEEP") w else w in
        Ok (PNone, w)
      else if bool_decide (choice = u "d") then
        Ok (PStr (u "DELETE"), count_deletion w)
      else if bool_decide (choice = u "s") then
        Ok (PNone, cache_put cache_key (u "SKIP") w)
      else if bool_decide (choice = u "c") then
        match lines1 with
        | [] => Raise EOFError
        | line2 :: lines2 =>
            let w :=
              set_stdin lines2
                (emit (MsgPrompt (u "Enter new tag (e.g., JX, MAG): "))
                   w) in
            let new_tag := upper (strip line2) in
            if bool_decide (new_tag = []) then
              prompt cache_key lines2 (emit MsgInvalidTag w)
            else
              let w :=
                if apply_all then cache_put cache_key new_tag w else w in
              Ok (PStr new_tag, count_correction w)
        end
      else prompt cache_key lines1 (emit MsgInvalidChoice w)
  end.

Definition interactive_callback (token : Py.token)
    (context_tokens : list Py.token) (index : nat)
    (sentence : option pystr) : M world pyval :=
  λ w,
    morph ← getitem token 0;
    tag ← getitem token 1;
    prob ← getitem token 2;
    let cache_key := (morph, tag) in
    match decision_cache w !! cache_key with
    | Some decision =>
        if bool_decide (decision = u "KEEP") then Ok (PNone, w)
        else if bool_decide (decision = u "SKIP") then Ok (PNone, w)
        else Ok (PStr decision, count_correction w)
    | None =>
        context ← context_window context_tokens index;
        _ ← format_prob prob;
        let w := emit (MsgCheck morph tag prob) w in
        let w := match sentence with
                 | Some ((_ :: _) as sentence) => emit (MsgSentence sentence) w
                 | _ => w
                 end in
        let w := emit (MsgContext context) w in
        prompt cache_key (stdin w) w
    end.

End Interactive.

End ProcessMorph.

(* ===================================================================== *)
(** * Notions used by the statements *)
(* ===================================================================== *)

Module Spec.
Import MorphAnalyzer ProcessMorph.

(** Token literals: a string field, and a number given as a fraction. *)
Definition str (s : string) : pyval := PStr (u s).
Definition num (a : Z) (b : positive) : pyval := PNum (Q2Qc (a # b)).

(** ** Substrings *)

(** [c] is a contiguous sub-sequence of [l]. *)
Definition contiguous {A} (c l : list A) : Prop :=
  ∃ before after, l = before ++ c ++ after.

(** Whether a string occurs in another, decided by looking for it at
    every offset. *)
#[global] Instance contiguous_dec (c l : pystr) : Decision (contiguous c l).
Proof.
  refine (cast_if (decide (Exists (λ k, take (length c) (drop k l) = c)
                             (seq 0 (S (length l)))))).
  - apply Exists_exists in e as (k & _ & Hk).
    exists (take k l), (drop (length c) (drop k l)).
    rewrite <- (take_drop k l) at 1. f_equal.
    rewrite <- (take_drop (length c) (drop k l)) at 1. by rewrite Hk.
  - intros (before & after & ->). apply n, Exists_exists.
    exists (length before). split.
    + apply elem_of_seq. rewrite length_app. lia.
    + by rewrite drop_app_length, take_app_length.
Defined.

(** ** Banmal classifier *)

(** An ending whose surface is a string and which has a tag. *)
Definition ending_ok (e : token) : Prop :=
  ∃ m tag rest, fields e = PStr m :: tag :: rest.

(** The ending is polite: some politeness marker stands, as it is,
    somewhere in its surface. *)
Definition is_polite (e : token) : Prop :=
  match fields e with
  | PStr m :: _ => Exists (λ marker, contiguous marker m) polite_endings
  | _ => False
  end.

#[global] Instance is_polite_dec (e : token) : Decision (is_polite e).
Proof. unfold is_polite. destruct (fields e) as [|[]]; apply _. Defined.

Definition polite_count (endings : list token) : nat :=
  length (filter is_polite endings).

Definition informal_count (endings : list token) : nat :=
  length (filter (λ e, ¬ is_polite e) endings).

(** ** Ending extractor *)

(** The clusters of [extract_final_endings]: the same walk, which keeps
    each final-ending token together with the tokens the inner loop
    appends after it, instead of one flat list. *)
Fixpoint clusters_loop (tokens : list token) (fuel idx : nat)
    (clusters : list (list token)) : result (list (list token)) :=
  match fuel with
  | 0 => Raise OutOfFuel
  | S fuel' =>
      if decide (idx < length tokens) then
        token ← getindex tokens idx;
        if decide (len token < 2) then
          clusters_loop tokens fuel' (idx + 1) clusters
        else
          tag ← getitem token 1;
          if tag_in tag FINAL_ENDING_TAGS then
            '(idx', cluster) ←
              endings_lookahead tokens (S (length tokens)) (idx + 1) idx
                [token];
            clusters_loop tokens fuel' (idx' + 1) (clusters ++ [cluster])
          else clusters_loop tokens fuel' (idx + 1) clusters
      else Ok clusters
  end.

Definition ending_clusters (tokens : list token)
    : result (list (list token)) :=
  if decide (tokens = []) then Ok []
  else clusters_loop tokens (S (length tokens)) 0 [].

(** [c] is what remains of a contiguous range of [l] once the tokens
    with fewer than 2 fields are left out. *)
Definition contiguous_but_malformed (c l : list token) : Prop :=
  ∃ before range after,
    l = before ++ range ++ after ∧ c = filter (λ t, 2 ≤ len t) range.

(** The token is tagged as a final ending, [EF] or [ECF]. *)
Definition final_ending (t : token) : Prop :=
  ∃ tag, fields t !! 1 = Some tag ∧ tag_in tag FINAL_ENDING_TAGS = true.

(** The token is tagged as a final ending, or as what the extractor picks
    up after one: a particle ([J...]) or [EP]. *)
Definition picked_up (t : token) : Prop :=
  ∃ tag, fields t !! 1 = Some tag
         ∧ (tag_in tag FINAL_ENDING_TAGS = true
            ∨ ∃ s, tag = PStr s
                   ∧ (startswith s (u "J") = true ∨ s = u "EP")).

(** The invariant of both loops of [extract_final_endings]: the endings
    are chosen, in order, among the tokens before [bound]; each has a tag
    of a final ending, a particle or [EP]; the first one is a final
    ending; no final ending before [seen] was passed over. *)
Definition selected (tokens : list token) (bound seen : nat) (endings : list token) : Prop :=
  endings `sublist_of` take bound tokens
  ∧ Forall (λ t, 2 ≤ len t ∧ picked_up t) endings
  ∧ (∀ t, head endings = Some t → final_ending t)
  ∧ ∀ k t, k < seen → tokens !! k = Some t → 2 ≤ len t → final_ending t →
      t ∈ endings.

(** ** Position mapper *)

(** No token is matched by the retry search from the start of the
    sentence: walking as [_token_positions] does, each surface is found
    at or after the cursor, or nowhere. *)
Fixpoint forward_located (sentence : pystr) (tokens : list token)
    (cursor : nat) : bool :=
  match tokens with
  | [] => true
  | token :: rest =>
      match surface token with
      | PStr ((_ :: _) as m) =>
          match find sentence m cursor with
          | Some idx => forward_located sentence rest (idx + length m)
          | None =>
              match find sentence m 0 with
              | Some _ => false
              | None => forward_located sentence rest cursor
              end
          end
      | _ => forward_located sentence rest cursor
      end
  end.

(** The surface is empty, or found neither from the cursor nor from the
    start of the sentence. *)
Definition unlocatable (sentence : pystr) (cursor : nat) (token : token)
    : Prop :=
  truthy (surface token) = false
  ∨ ∃ m, surface token = PStr m
         ∧ find sentence m cursor = None ∧ find sentence m 0 = None.

(** Each start offset is at least the one before it. *)
Definition monotone_starts (positions : list (nat * nat)) : Prop :=
  Sorted (≤) positions.*1.

(** Positions that follow one another from [cursor] on: each one starts
    at or after the end of the one before, and ends within [bound]. *)
Fixpoint chained (bound cursor : nat) (positions : list (nat * nat))
    : Prop :=
  match positions with
  | [] => True
  | p :: positions' =>
      cursor ≤ p.1 ∧ p.1 ≤ p.2 ∧ p.2 ≤ bound ∧ chained bound p.2 positions'
  end.

(** ** Tag refiner *)

(** The refiner of the spec's edge-handling sentence: a token with fewer
    than 2 fields passes through, and the automatic rules are applied to
    every other token, an absent confidence read as 0.0 and an absent
    out-of-vocabulary flag as 0. *)
Definition refine_token_as_claimed (tokens : list token) (i : nat)
    (token : Py.token) : result Py.token :=
  if decide (len token < 2) then Ok token
  else
    morph ← getitem token 0;
    tag ← getitem token 1;
    let prob := default (PNum 0%Qc) (fields token !! 2) in
    let oov := default (PNum 0%Qc) (fields token !! 3) in
    new_tag ← auto_rules tokens i morph tag prob;
    if decide (new_tag ≠ tag) then Ok (tuple [morph; new_tag; prob; oov])
    else Ok token.

(** The decision source, if there is one, is not a loop of this model
    that runs out of fuel. *)
Definition never_out_of_fuel {St} (callback : option (@callback_t St))
    : Prop :=
  ∀ cb token tokens i sentence s,
    callback = Some cb → cb token tokens i sentence s ≠ Raise OutOfFuel.

(** A token as the tagger returns it, [(morph, tag, prob, oov)], or as the
    refiner also accepts it, [(morph, tag)]: a tuple whose surface and tag
    are strings and whose confidence, if any, is a number. *)
Definition tagged (t : token) : Prop :=
  tkind t = KTuple
  ∧ ∃ m tag rest,
      fields t = PStr m :: PStr tag :: rest
      ∧ match rest with
        | [] => True
        | prob :: _ => ∃ q, prob = PNum q
        end.

(** ** Sentence segmenter *)

(** The token carries the tag [tag]. *)
Definition has_tag (t : token) (tag : pystr) : Prop :=
  fields t !! 1 = Some (PStr tag).

(** Every token of the segment has at least 2 fields, and its last token
    does not carry the mid-sentence connective tag. *)
Definition segment_ok (seg : segment) : Prop :=
  Forall (λ t, 2 ≤ len t) seg.2
  ∧ ∀ t, last seg.2 = Some t → ¬ has_tag t (u "EC").

(** The start offset of the first token with at least 2 fields. *)
Fixpoint first_start (tokens : list token) (positions : list (nat * nat))
    : option nat :=
  match tokens, positions with
  | t :: tokens', p :: positions' =>
      if decide (2 ≤ len t) then Some p.1 else first_start tokens' positions'
  | _, _ => None
  end.

(** The spans follow one another from offset [a] to offset [b]: each one
    starts where the one before ends. *)
Fixpoint tiled (a : nat) (spans : list (nat * nat)) (b : nat) : Prop :=
  match spans with
  | [] => a = b
  | sp :: spans' => sp.1 = a ∧ a ≤ sp.2 ∧ tiled sp.2 spans' b
  end.

(** The text of a span, as a flush computes it. *)
Definition span_text (sentence : pystr) (span : nat * nat) : pystr :=
  strip (slice sentence span.1 span.2).

(** Two tokens with the same surface, both malformed or both not. *)
Definition same_shape (t t' : token) : Prop :=
  surface t = surface t' ∧ (2 ≤ len t ↔ 2 ≤ len t').

(** The invariant of the walk behind the coverage property, at the turn
    for index [idx]: the spans flushed so far tile the sentence from [a],
    the start of the first token of 2 fields, up to the start of the open
    buffer, or up to the token the walk resumes from when nothing is
    buffered; what is buffered ends before every position still to come. *)
Definition covering (sentence : pystr) (tokens : list token)
    (positions : list (nat * nat)) (a idx : nat) (st : seg_state) : Prop :=
  (start_pos st = None ∧ buffer_tokens st = [] ∧ end_pos st = None
   ∧ ((spans st = [] ∧ ∀ k t, k < idx → tokens !! k = Some t → len t < 2)
      ∨ ∃ b, tiled a (spans st) b
          ∧ ((∃ t p, tokens !! idx = Some t ∧ 2 ≤ len t
                     ∧ positions !! idx = Some p ∧ p.1 = b
                     ∧ b ≤ length sentence)
             ∨ (length tokens ≤ idx ∧ b = length sentence))))
  ∨ ∃ b, start_pos st = Some b ∧ buffer_tokens st ≠ []
      ∧ tiled a (spans st) b ∧ b ≤ length sentence
      ∧ (∀ j q, idx ≤ j → positions !! j = Some q → b ≤ q.1)
      ∧ (∀ e, end_pos st = Some e →
           ∀ j q, idx ≤ j → positions !! j = Some q → e ≤ q.1).

(** [sep.join(parts)] *)
Fixpoint join (sep : pystr) (parts : list pystr) : pystr :=
  match parts with
  | [] => []
  | [part] => part
  | part :: parts' => part ++ sep ++ join sep parts'
  end.

(** The text without its whitespace characters: two texts are equal up to
    whitespace when they agree after [remove_ws]. *)
Definition remove_ws (s : pystr) : pystr :=
  List.filter (λ c, negb (isspace c)) s.

(** [s.split()]: the maximal runs of non-whitespace characters. *)
Fixpoint split_ws (s word : pystr) : list pystr :=
  match s with
  | [] => if decide (word = []) then [] else [word]
  | c :: s' =>
      if isspace c then
        if decide (word = []) then split_ws s' [] else word :: split_ws s' []
      else split_ws s' (word ++ [c])
  end.

(** [' '.join(s.split())]: runs of whitespace collapsed to one space, none
    at the ends. *)
Definition collapse_ws (s : pystr) : pystr := join (u " ") (split_ws s []).

(** What a flush emits of the buffered tokens: the buffer itself, or the
    buffer with its last token retagged from [EC] to [ECF]. *)
Definition flushed (buffer emitted : list token) : Prop :=
  emitted = buffer
  ∨ ∃ init t t',
      buffer = init ++ [t] ∧ has_tag t (u "EC")
      ∧ retag_ecf t = Ok t' ∧ emitted = init ++ [t'].

(** A token the walk takes along after a split ending: tagged as a
    particle ([J...]), as [EP] or as a symbol ([S...]). *)
Definition glue (t : token) : Prop :=
  ∃ tag, has_tag t tag
         ∧ (startswith tag (u "J") = true ∨ tag = u "EP"
            ∨ startswith tag (u "S") = true).

(** A clause closed by a split ending: tokens without the tag [EF], one
    token tagged [EF], and the tokens taken along after it. *)
Definition clause (ts : list token) : Prop :=
  ∃ pre ef post,
    ts = pre ++ ef :: post
    ∧ Forall (λ t, ¬ has_tag t (u "EF")) pre
    ∧ has_tag ef (u "EF") ∧ Forall glue post.

(** The invariant of the walk behind the conservation of tokens, at the
    turn for index [idx]: what has been emitted and what is buffered are
    the tokens with 2 fields or more met so far. *)
Definition conserved (tokens : list token) (idx : nat) (st : seg_state)
    : Prop :=
  (buffer_tokens st ≠ [] → start_pos st ≠ None)
  ∧ ∃ buffers,
      Forall2 flushed buffers (segments st).*2
      ∧ concat buffers ++ buffer_tokens st
        = filter (λ t, 2 ≤ len t) (take idx tokens).

(** The invariant of the walk behind the shape of the segments: between
    two turns the buffer holds no token tagged [EF], and every segment
    emitted so far is a clause. *)
Definition clause_walk (st : seg_state) : Prop :=
  (buffer_tokens st ≠ [] → start_pos st ≠ None)
  ∧ Forall (λ t, ¬ has_tag t (u "EF")) (buffer_tokens st)
  ∧ Forall clause (segments st).*2.

(** ** Decision callback *)

(** The decisions counted so far, corrections and deletions together. *)
Definition counted (w : world) : nat :=
  corrections w + default 0 (deletions w).

(** What a call of the callback may do to the outside world for the
    answer [decision] on the cache key [cache_key]: it reads lines from
    the front of the terminal input, adds to what is printed, counts the
    answer once if it is a tag, and adds at most the entry of the key to
    the cache, with a verdict that stands for the answer. *)
Record effect (cache_key : pyval * pyval) (decision : pyval)
    (w w' : world) : Prop := Effect {
  effect_stdin : stdin w' `suffix_of` stdin w;
  effect_stdout : stdout w `prefix_of` stdout w';
  effect_count :
    (decision = PNone ∧ counted w' = counted w)
    ∨ (∃ tag, decision = PStr tag ∧ counted w' = counted w + 1);
  effect_cache :
    decision_cache w' = decision_cache w
    ∨ ∃ verdict,
        decision_cache w' = <[cache_key := verdict]> (decision_cache w)
        ∧ (decision = PStr verdict
           ∨ (decision = PNone
              ∧ (verdict = u "KEEP" ∨ verdict = u "SKIP")))
}.

(** The outside world after some calls of the callback: terminal input
    was read from the front, output was added, the cache was extended,
    and at most [n] more decisions were counted. *)
Definition advanced (n : nat) (w w' : world) : Prop :=
  stdin w' `suffix_of` stdin w
  ∧ stdout w `prefix_of` stdout w'
  ∧ decision_cache w ⊆ decision_cache w'
  ∧ counted w ≤ counted w' ≤ counted w + n.

(** ** Stored tokens *)

(** A token as the pipeline stores it and reads it back: a list or a
    tuple of a surface, a tag and a numeric confidence, possibly followed
    by the out-of-vocabulary flag. *)
Definition stored (t : token) : Prop :=
  ∃ m tag q rest, fields t = PStr m :: PStr tag :: PNum q :: rest.

(** The token has a tag that is not a symbol tag ([S...]). *)
Definition not_symbol (t : token) : Prop :=
  ∃ tag, has_tag t tag ∧ startswith tag (u "S") = false.

(** No token tagged [EC] closes the list: each one is followed, somewhere,
    by a token that is not a symbol. *)
Definition connectives_followed (tokens : list token) : Prop :=
  ∀ i t, tokens !! i = Some t → has_tag t (u "EC") →
    ∃ j t', i < j ∧ tokens !! j = Some t' ∧ not_symbol t'.

(** The invariant of the walk on stored tokens, at the turn for index
    [idx]: the segments emitted and the buffer hold the tokens met so far,
    as they are. *)
Definition buffered (tokens : list token) (idx : nat) (st : seg_state)
    : Prop :=
  (buffer_tokens st ≠ [] → start_pos st ≠ None)
  ∧ concat (segments st).*2 ++ buffer_tokens st = take idx tokens.

(** ** Sentence splitter *)

(** The text holds no sentence boundary: no character of [[.!?]] is
    followed by whitespace. *)
Fixpoint no_boundary (s : pystr) : bool :=
  match s with
  | c :: s' =>
      match s' with
      | d :: _ => negb (in_class SENTENCE_END c && isspace d)
      | [] => true
      end && no_boundary s'
  | [] => true
  end.

(** The text neither starts nor ends with whitespace. *)
Definition trimmed (s : pystr) : Prop :=
  (∀ c, head s = Some c → isspace c = false)
  ∧ (∀ c, last s = Some c → isspace c = false).

End Spec.
Import MorphAnalyzer ProcessMorph Spec.

(* ===================================================================== *)
(** * The result monad *)
(* ===================================================================== *)

Lemma bind_Ok {A B} (f : A → result B) (r : result A) (b : B) :
  r ≫= f = Ok b → ∃ a, r = Ok a ∧ f a = Ok b.
Proof. destruct r as [a|e]; [eauto | discriminate]. Qed.

Lemma M_bind_Ok {St A B} (f : A → M St B) (m : M St A) s b s' :
  (m ≫= f) s = Ok (b, s') → ∃ a s1, m s = Ok (a, s1) ∧ f a s1 = Ok (b, s').
Proof.
  unfold mbind, M_bind. destruct (m s) as [[a s1]|e]; [eauto | discriminate].
Qed.

Lemma lift_Ok {St A} (r : result A) (s : St) a s' :
  lift r s = Ok (a, s') → r = Ok a ∧ s' = s.
Proof. unfold lift. destruct r; naive_solver. Qed.

Lemma getitem_Ok t i v : getitem t i = Ok v ↔ fields t !! i = Some v.
Proof. unfold getitem. destruct (fields t !! i); naive_solver. Qed.

Lemma getindex_Ok {A} (l : list A) i v : getindex l i = Ok v ↔ l !! i = Some v.
Proof. unfold getindex. destruct (l !! i); naive_solver. Qed.

(** Only a loop can run out of fuel. *)
Lemma bind_fuel {A B} (f : A → result B) (r : result A) :
  r ≠ Raise OutOfFuel → (∀ a, r = Ok a → f a ≠ Raise OutOfFuel) →
  r ≫= f ≠ Raise OutOfFuel.
Proof. destruct r; simpl; [auto | congruence]. Qed.

Lemma M_bind_fuel {St A B} (f : A → M St B) (m : M St A) s :
  m s ≠ Raise OutOfFuel →
  (∀ a s1, m s = Ok (a, s1) → f a s1 ≠ Raise OutOfFuel) →
  (m ≫= f) s ≠ Raise OutOfFuel.
Proof.
  unfold mbind, M_bind. destruct (m s) as [[a s1]|e]; [auto | congruence].
Qed.

Lemma lift_fuel {St A} (r : result A) (s : St) :
  r ≠ Raise OutOfFuel → lift r s ≠ Raise OutOfFuel.
Proof. unfold lift. destruct r; [done | congruence]. Qed.

Lemma getitem_fuel t i : getitem t i ≠ Raise OutOfFuel.
Proof. unfold getitem. by destruct (fields t !! i). Qed.

Lemma getindex_fuel {A} (l : list A) i : getindex l i ≠ Raise OutOfFuel.
Proof. unfold getindex. by destruct (l !! i). Qed.

Lemma py_startswith_fuel v p : py_startswith v p ≠ Raise OutOfFuel.
Proof. by destruct v. Qed.

Lemma py_le_fuel v c : py_le v c ≠ Raise OutOfFuel.
Proof. by destruct v. Qed.

Create HintDb fuel.
#[local] Hint Resolve getitem_fuel getindex_fuel py_startswith_fuel
  py_le_fuel : fuel.

(** Runs the binds whose first computation is a value. *)
Ltac simpl_bind := cbn [mbind result_bind mret result_ret].

(** Inverts a hypothesis [H : (x ← r; k) = Ok b]. *)
Ltac inv_bind H :=
  let a := fresh "a" in
  let Ha := fresh "Ha" in
  apply bind_Ok in H as (a & Ha & H).

Tactic Notation "inv_bind_as" hyp(H) ident(x) ident(Hx) :=
  apply bind_Ok in H as (x & Hx & H).

(* ===================================================================== *)
(** * Banmal classifier *)
(* ===================================================================== *)

(** [sub in s] holds exactly when [sub] stands in [s] as a substring. *)
Lemma startswith_take s p : startswith s p = true → take (length p) s = p.
Proof.
  revert s. induction p as [|a p IH]; intros [|b s]; cbn; try done.
  intros [->%N.eqb_eq H]%andb_true_iff. by rewrite IH.
Qed.

Lemma find_at_take sub s i j :
  find_at sub s i = Some j →
  i ≤ j ∧ take (length sub) (drop (j - i) s) = sub.
Proof.
  revert i. induction s as [|c s IH]; intros i; cbn [find_at].
  - destruct (startswith [] sub) eqn:Hs; [|done]. intros [= <-].
    rewrite Nat.sub_diag. split; [done|]. by apply startswith_take.
  - destruct (startswith (c :: s) sub) eqn:Hs.
    + intros [= <-]. rewrite Nat.sub_diag. split; [done|].
      by apply startswith_take.
    + intros [Hle Ht]%IH. split; [lia|].
      by replace (j - i) with (S (j - S i)) by lia.
Qed.

Lemma startswith_app p r : startswith (p ++ r) p = true.
Proof.
  induction p as [|a p IH]; [by destruct r|]. cbn. by rewrite N.eqb_refl.
Qed.

Lemma find_at_Some sub s i j : find_at sub s i = Some j → contiguous sub s.
Proof.
  intros [_ Ht]%find_at_take.
  exists (take (j - i) s), (drop (length sub) (drop (j - i) s)).
  rewrite <- (take_drop (j - i) s) at 1. f_equal.
  rewrite <- (take_drop (length sub) (drop (j - i) s)) at 1. by rewrite Ht.
Qed.

Lemma find_at_found sub before after i :
  is_Some (find_at sub (before ++ sub ++ after) i).
Proof.
  revert i. induction before as [|c before IH]; intros i.
  - cbn [app]. pose proof (startswith_app sub after) as Hs.
    destruct (sub ++ after); cbn [find_at]; by rewrite Hs.
  - cbn [app find_at]. destruct (startswith _ sub); [done | apply IH].
Qed.

Lemma contains_contiguous sub s : contains sub s = true ↔ contiguous sub s.
Proof.
  unfold contains, find. rewrite decide_True by lia. rewrite drop_0.
  rewrite bool_decide_eq_true. split.
  - intros [j Hj]. by eapply find_at_Some.
  - intros (before & after & ->). apply find_at_found.
Qed.

Lemma any_in_str ps m :
  any_in ps (PStr m) = Ok (existsb (λ p, contains p m) ps).
Proof.
  induction ps as [|p ps IH]; simpl; [done|].
  destruct (contains p m); [done | by rewrite IH].
Qed.

(** The test of the loop, [any(p in morph for p in polite_endings)],
    decides whether the ending is polite. *)
Lemma any_in_polite e m rest :
  fields e = PStr m :: rest →
  existsb (λ p, contains p m) polite_endings = bool_decide (is_polite e).
Proof.
  intros He. apply eq_true_iff_eq.
  rewrite existsb_exists, bool_decide_eq_true. unfold is_polite.
  rewrite He, Exists_exists. split.
  - intros (p & Hp%list_elem_of_In & Hc%contains_contiguous). eauto.
  - intros (p & Hp%list_elem_of_In & Hc%contains_contiguous). eauto.
Qed.

Lemma banmal_scores_counts endings b p :
  Forall ending_ok endings →
  banmal_scores endings b p
  = Ok (b + informal_count endings, p + polite_count endings).
Proof.
  intros Hok. revert b p.
  induction Hok as [|e endings (m & tag & rest & He) _ IH]; intros b p.
  - simpl. by rewrite !Nat.add_0_r.
  - cbn [banmal_scores].
    rewrite (proj2 (getitem_Ok e 0 (PStr m))) by (by rewrite He).
    rewrite (proj2 (getitem_Ok e 1 tag)) by (by rewrite He).
    cbn [mbind result_bind]. rewrite any_in_str, (any_in_polite e m _ He).
    unfold informal_count, polite_count in *.
    destruct (decide (is_polite e)) as [Hp|Hp].
    + rewrite bool_decide_eq_true_2 by done. simpl_bind.
      rewrite (filter_cons_True is_polite) by done.
      rewrite (filter_cons_False (λ e, ¬ is_polite e)) by auto.
      rewrite IH. cbn [length]. apply (f_equal Ok), pair_equal_spec; lia.
    + rewrite bool_decide_eq_false_2 by done. simpl_bind.
      rewrite (filter_cons_False is_polite) by done.
      rewrite (filter_cons_True (λ e, ¬ is_polite e)) by done.
      rewrite IH. cbn [length]. apply (f_equal Ok), pair_equal_spec; lia.
Qed.

(** Half the informal count, as an inequality between integers. *)
Lemma half_le (informal polite : nat) :
  (Qc_of_nat informal * float_0_5 ≤ Qc_of_nat polite)%Qc
  ↔ informal ≤ 2 * polite.
Proof.
  unfold Qcle, Qc_of_nat, float_0_5. cbn [this Qcmult Q2Qc].
  rewrite !Qred_correct. unfold Qle. cbn. lia.
Qed.

(** C8. [is_banmal] returns [False] on the empty list; on a non-empty list
    of endings it returns [False] exactly when some ending is polite (some
    politeness marker stands in its surface as a substring: [is_polite],
    which is stated on the surface itself, not through the search of the
    code) and the number of polite endings is at least half the number of
    informal ones, and [True] otherwise. *)
Theorem is_banmal_spec (endings : list token) :
  Forall ending_ok endings →
  (endings = [] → is_banmal endings = Ok false)
  ∧ (endings ≠ [] →
     ∃ b : bool, is_banmal endings = Ok b
       ∧ (b = false ↔
          0 < polite_count endings
          ∧ (Qc_of_nat (informal_count endings) * float_0_5
             ≤ Qc_of_nat (polite_count endings))%Qc)).
Proof.
  intros Hok. split.
  - intros ->. reflexivity.
  - intros Hne. unfold is_banmal. rewrite decide_False by done.
    rewrite banmal_scores_counts by done. simpl.
    destruct (bool_decide (0 < polite_count endings)) eqn:Hp;
      [apply bool_decide_eq_true in Hp | apply bool_decide_eq_false in Hp].
    + destruct (bool_decide (_ ≤ _)%Qc) eqn:Hq;
        [apply bool_decide_eq_true in Hq | apply bool_decide_eq_false in Hq];
        simpl.
      * exists false. by split.
      * exists true. split; [done|]. split; [done | by intros [_ ?]].
    + simpl. exists true. split; [done|]. split; [done | by intros [? _]].
Qed.

(** 해요 holds the marker 요 without being one: it is the one polite
    ending beside two informal ones, and the verdict is polite; 음 alone,
    the other example of the spec, is informal. *)
Lemma is_banmal_spec_witness :
  let endings := [tuple [str "해요"; str "EF"; num 15 16; num 0 1];
                  tuple [str "음"; str "EF"; num 9 10; num 0 1];
                  tuple [str "다"; str "EF"; num 9 10; num 0 1]] in
  Forall ending_ok endings
  ∧ polite_count endings = 1 ∧ informal_count endings = 2
  ∧ is_banmal endings = Ok false
  ∧ is_banmal [tuple [str "음"; str "EF"; num 9 10; num 0 1]] = Ok true
  ∧ ∃ b : bool, is_banmal endings = Ok b
       ∧ (b = false ↔
          0 < polite_count endings
          ∧ (Qc_of_nat (informal_count endings) * float_0_5
             ≤ Qc_of_nat (polite_count endings))%Qc).
Proof.
  intros endings.
  assert (Hok : Forall ending_ok endings).
  { repeat constructor; by eexists _, _, _. }
  split; [exact Hok|]. do 4 (split; [reflexivity|]).
  apply (is_banmal_spec endings Hok). discriminate.
Defined.

(* ===================================================================== *)
(** * Ending extractor *)
(* ===================================================================== *)

Section Endings.
Variable tokens : list token.

(** [tokens[i:j]] *)
Local Abbreviation range i j := (take (j - i) (drop i tokens)).

Lemma range_snoc i j t :
  i ≤ j → tokens !! j = Some t → range i (j + 1) = range i j ++ [t].
Proof.
  intros Hij Ht. replace (j + 1 - i) with (S (j - i)) by lia.
  apply take_S_r. rewrite lookup_drop. by replace (i + (j - i)) with j by lia.
Qed.

Lemma range_contiguous i j :
  i ≤ j → tokens = take i tokens ++ range i j ++ drop j tokens.
Proof.
  intros Hij. rewrite <- (take_drop i tokens) at 1. f_equal.
  rewrite <- (take_drop (j - i) (drop i tokens)) at 1. f_equal.
  rewrite drop_drop. f_equal. lia.
Qed.

(** The inner loop extends the cluster begun at [i] to the well-formed
    tokens of a longer range from [i]. *)
Lemma endings_lookahead_range fuel lookahead idx c idx' c' i :
  endings_lookahead tokens fuel lookahead idx c = Ok (idx', c') →
  i ≤ lookahead ≤ length tokens →
  c = filter (λ t, 2 ≤ len t) (range i lookahead) →
  ∃ j, lookahead ≤ j ≤ length tokens
       ∧ c' = filter (λ t, 2 ≤ len t) (range i j).
Proof.
  revert lookahead idx c.
  induction fuel as [|fuel IH]; intros lookahead idx c H Hi Hc; [done|].
  cbn [endings_lookahead] in H.
  destruct (decide (lookahead < length tokens)) as [Hlt|].
  2: { injection H as <- <-. exists lookahead. split; [lia|done]. }
  inv_bind_as H t Ht. apply getindex_Ok in Ht.
  destruct (decide (len t < 2)).
  - destruct (IH _ _ _ H) as (j & ? & ?); [lia | | exists j; split; [lia|done]].
    rewrite (range_snoc _ _ t), filter_app, filter_cons_False by (done || lia).
    by rewrite filter_nil, app_nil_r.
  - inv_bind_as H tag Htag. inv_bind_as H is_josa Hjosa.
    destruct (is_josa || eq_str tag (u "EP")).
    2: { injection H as <- <-. exists lookahead. split; [lia|done]. }
    destruct (IH _ _ _ H) as (j & ? & ?); [lia | | exists j; split; [lia|done]].
    rewrite (range_snoc _ _ t), filter_app, filter_cons_True by (done || lia).
    by rewrite filter_nil, Hc.
Qed.

Lemma clusters_loop_range fuel idx clusters clusters' :
  clusters_loop tokens fuel idx clusters = Ok clusters' →
  Forall (λ c, contiguous_but_malformed c tokens) clusters →
  Forall (λ c, contiguous_but_malformed c tokens) clusters'.
Proof.
  revert idx clusters.
  induction fuel as [|fuel IH]; intros idx clusters H Hcl; [done|].
  cbn [clusters_loop] in H.
  destruct (decide (idx < length tokens)) as [Hlt|]; [|naive_solver].
  inv_bind H. apply getindex_Ok in Ha.
  destruct (decide (len a < 2)); [by eapply IH|].
  inv_bind H. destruct (tag_in a0 FINAL_ENDING_TAGS); [|by eapply IH].
  inv_bind H. destruct a1 as [idx' cluster].
  eapply IH; [done|]. apply Forall_app. split; [done|].
  apply Forall_singleton.
  apply (endings_lookahead_range _ _ _ _ _ _ idx) in Ha1 as (j & Hj & ->);
    [|lia|].
  - eexists _, _, _. split; [apply (range_contiguous idx j); lia | done].
  - rewrite (range_snoc idx idx a), Nat.sub_diag by done.
    rewrite take_0, app_nil_l, filter_cons_True, filter_nil by lia. done.
Qed.

(** The clusters are a reading of the returned list: appending to the
    flat list or to the open cluster is the same walk. *)
Lemma endings_lookahead_app fuel lookahead idx endings c :
  endings_lookahead tokens fuel lookahead idx (endings ++ c)
  = (λ r, (r.1, endings ++ r.2))
      <$> endings_lookahead tokens fuel lookahead idx c.
Proof.
  revert lookahead idx c. induction fuel as [|fuel IH]; intros; [done|].
  cbn [endings_lookahead]. case_decide; [|done].
  destruct (getindex tokens lookahead) as [t|]; [simpl_bind|done].
  case_decide; [apply IH|].
  destruct (getitem t 1) as [tag|]; [simpl_bind|done].
  destruct (py_startswith tag (u "J")) as [j|]; [simpl_bind|done].
  destruct (j || eq_str tag (u "EP")); [|done].
  rewrite <- app_assoc. apply IH.
Qed.

Lemma clusters_loop_concat fuel idx clusters :
  endings_loop tokens fuel idx (concat clusters)
  = (λ cl, concat cl) <$> clusters_loop tokens fuel idx clusters.
Proof.
  revert idx clusters. induction fuel as [|fuel IH]; intros; [done|].
  cbn [endings_loop clusters_loop]. case_decide; [|done].
  destruct (getindex tokens idx) as [t|]; [simpl_bind|done].
  case_decide; [apply IH|].
  destruct (getitem t 1) as [tag|]; [simpl_bind|done].
  destruct (tag_in tag FINAL_ENDING_TAGS); [|apply IH].
  rewrite endings_lookahead_app.
  destruct (endings_lookahead _ _ _ _ [t]) as [[idx' c]|]; [|done].
  cbn. rewrite <- IH, concat_app. cbn. by rewrite app_nil_r.
Qed.

(** The loops stop before their fuel does. *)
Lemma endings_lookahead_fuel fuel lookahead idx c :
  length tokens - lookahead < fuel →
  endings_lookahead tokens fuel lookahead idx c ≠ Raise OutOfFuel.
Proof.
  revert lookahead idx c.
  induction fuel as [|fuel IH]; intros lookahead idx c Hf; [lia|].
  cbn [endings_lookahead]. case_decide; [|done].
  apply bind_fuel; [auto with fuel|]. intros t _.
  case_decide; [apply IH; lia|].
  apply bind_fuel; [auto with fuel|]. intros tag _.
  apply bind_fuel; [auto with fuel|]. intros j _.
  destruct (_ || _); [apply IH; lia | done].
Qed.

Lemma endings_lookahead_idx fuel lookahead idx c idx' c' :
  endings_lookahead tokens fuel lookahead idx c = Ok (idx', c') →
  idx < lookahead → idx ≤ idx'.
Proof.
  revert lookahead idx c.
  induction fuel as [|fuel IH]; intros lookahead idx c H Hlt; [done|].
  cbn [endings_lookahead] in H.
  case_decide; [|injection H as <- <-; lia].
  inv_bind H. case_decide; [eapply IH; [done|lia]|].
  inv_bind H. inv_bind H.
  destruct (_ || _); [|injection H as <- <-; lia].
  apply IH in H; lia.
Qed.

Lemma clusters_loop_fuel fuel idx clusters :
  length tokens - idx < fuel →
  clusters_loop tokens fuel idx clusters ≠ Raise OutOfFuel.
Proof.
  revert idx clusters.
  induction fuel as [|fuel IH]; intros idx clusters Hf; [lia|].
  cbn [clusters_loop]. case_decide; [|done].
  apply bind_fuel; [auto with fuel|]. intros t _.
  case_decide; [apply IH; lia|].
  apply bind_fuel; [auto with fuel|]. intros tag _.
  destruct (tag_in tag FINAL_ENDING_TAGS); [|apply IH; lia].
  apply bind_fuel; [apply endings_lookahead_fuel; lia|].
  intros [idx' c] Hl. apply endings_lookahead_idx in Hl; [|lia].
  apply IH. lia.
Qed.

End Endings.

(** [extract_final_endings] returns the clusters, one after the other. *)
Lemma extract_final_endings_clusters tokens :
  extract_final_endings tokens = (λ cl, concat cl) <$> ending_clusters tokens.
Proof.
  unfold extract_final_endings, ending_clusters. case_decide; [done|].
  apply (clusters_loop_concat tokens _ 0 []).
Qed.

Lemma extract_final_endings_fuel tokens :
  extract_final_endings tokens ≠ Raise OutOfFuel.
Proof.
  rewrite extract_final_endings_clusters. unfold ending_clusters.
  case_decide; [done|].
  pose proof (clusters_loop_fuel tokens (S (length tokens)) 0 []) as Hf.
  destruct (clusters_loop _ _ _ _); [done|]. cbn. intros [= ->].
  apply Hf; [lia|done].
Qed.

(** Without malformed tokens, a filtered range is the range itself. *)
Lemma filter_well_formed (l : list token) :
  Forall (λ t, 2 ≤ len t) l → filter (λ t, 2 ≤ len t) l = l.
Proof.
  induction 1 as [|t l Ht _ IH]; [done|].
  by rewrite filter_cons_True, IH.
Qed.

(** C6, as the code has it. Every ending cluster of [extract_final_endings]
    consists of the tokens with at least 2 fields of a contiguous range of
    the input list (the inner loop steps over malformed tokens); when no
    token of the input is malformed, the cluster is a contiguous
    sub-sequence of the input, ending at or before its last token. *)
Theorem ending_clusters_contiguous (tokens : list token)
    (clusters : list (list token)) :
  ending_clusters tokens = Ok clusters →
  Forall (λ c, contiguous_but_malformed c tokens) clusters
  ∧ (Forall (λ t, 2 ≤ len t) tokens →
     Forall (λ c, contiguous c tokens) clusters).
Proof.
  intros H.
  assert (Hcl : Forall (λ c, contiguous_but_malformed c tokens) clusters).
  { unfold ending_clusters in H. destruct (decide (tokens = [])).
    - injection H as <-. constructor.
    - eapply clusters_loop_range; [exact H | constructor]. }
  split; [done|]. intros Hwf.
  eapply Forall_impl; [exact Hcl|].
  intros c (before & range & after & Heq & ->).
  exists before, after. rewrite filter_well_formed; [done|].
  rewrite Heq in Hwf. by apply Forall_app in Hwf as [_ [? _]%Forall_app].
Qed.

Lemma ending_clusters_contiguous_witness :
  let tokens := [tuple [str "가"; str "VV"; num 31 32; num 0 1];
                 tuple [str "요"; str "EF"; num 31 32; num 0 1];
                 tuple [str "는"; str "JX"; num 31 32; num 0 1];
                 tuple [str "."; str "SF"; num 1 1; num 0 1]] in
  let clusters := [[tuple [str "요"; str "EF"; num 31 32; num 0 1];
                    tuple [str "는"; str "JX"; num 31 32; num 0 1]]] in
  ending_clusters tokens = Ok clusters
  ∧ Forall (λ c, contiguous_but_malformed c tokens) clusters
  ∧ (Forall (λ t, 2 ≤ len t) tokens →
     Forall (λ c, contiguous c tokens) clusters).
Proof.
  intros tokens clusters.
  assert (H : ending_clusters tokens = Ok clusters) by reflexivity.
  split; [exact H|]. exact (ending_clusters_contiguous tokens clusters H).
Defined.

(** C6, as the claim states it, fails: a malformed token between a final
    ending and the particle after it is stepped over, and the cluster is
    not contiguous in the input. *)
Lemma ending_clusters_not_contiguous :
  let ending := pylist [str "요"; str "EF"; num 31 32; num 0 1] in
  let malformed := pylist [str "x"] in
  let josa := pylist [str "는"; str "JX"; num 31 32; num 0 1] in
  let tokens := [ending; malformed; josa] in
  extract_final_endings tokens = Ok [ending; josa]
  ∧ ending_clusters tokens = Ok [[ending; josa]]
  ∧ ¬ contiguous [ending; josa] tokens.
Proof.
  intros ending malformed josa tokens.
  split; [reflexivity|]. split; [reflexivity|].
  intros (before & after & H).
  destruct before as [|? [|? [|? [|? ?]]]]; discriminate.
Qed.

(* ===================================================================== *)
(** * Position mapper *)
(* ===================================================================== *)

Lemma startswith_length s p : startswith s p = true → length p ≤ length s.
Proof.
  revert s. induction p as [|a p IH]; intros [|b s]; simpl; try (done || lia).
  intros [_ H]%andb_true_iff. apply IH in H. lia.
Qed.

Lemma find_at_bounds sub s i j :
  find_at sub s i = Some j → i ≤ j ∧ j + length sub ≤ i + length s.
Proof.
  revert i. induction s as [|c s IH]; intros i; cbn [find_at].
  - destruct (startswith [] sub) eqn:Hs; [|done].
    apply startswith_length in Hs. intros [= <-]. lia.
  - destruct (startswith (c :: s) sub) eqn:Hs.
    + apply startswith_length in Hs. intros [= <-]. lia.
    + intros H%IH. simpl. lia.
Qed.

(** [s.find(sub, start)] answers an offset from [start] on, with the whole
    match inside [s]. *)
Lemma find_bounds s sub start j :
  find s sub start = Some j → start ≤ j ∧ j + length sub ≤ length s.
Proof.
  unfold find. case_decide; [|done]. intros Hj%find_at_bounds.
  rewrite length_drop in Hj. lia.
Qed.

Lemma positions_from_chained sentence tokens cursor ps :
  positions_from sentence tokens cursor = Ok ps →
  forward_located sentence tokens cursor = true →
  cursor ≤ length sentence →
  chained (length sentence) cursor ps.
Proof.
  revert cursor ps.
  induction tokens as [|token rest IH]; intros cursor ps H Hfw Hc.
  - injection H as <-. done.
  - cbn [positions_from forward_located] in H, Hfw.
    destruct (surface token) as [[|c m]| |]; cbn in H.
    + inv_bind H. injection H as <-. cbn. eauto with lia.
    + destruct (find sentence (c :: m) cursor) as [idx|] eqn:Hf.
      * inv_bind H. injection H as <-.
        apply find_bounds in Hf. cbn in Hf |- *.
        split_and!; [lia..|]. apply IH; [done..|lia].
      * destruct (find sentence (c :: m) 0); [done|].
        inv_bind H. injection H as <-. cbn. eauto with lia.
    + destruct (bool_decide (q = 0%Qc)); [|done]. cbn in H.
      inv_bind H. injection H as <-. cbn. eauto with lia.
    + inv_bind H. injection H as <-. cbn. eauto with lia.
Qed.

(** [_token_positions] has no [while] loop. *)
Lemma positions_from_fuel sentence tokens cursor :
  positions_from sentence tokens cursor ≠ Raise OutOfFuel.
Proof.
  revert cursor. induction tokens as [|token rest IH]; intros cursor; [done|].
  cbn [positions_from]. cbn zeta.
  destruct (negb (truthy (surface token))); [by apply bind_fuel|].
  destruct (surface token) as [m| |]; [|done..].
  destruct (find sentence m cursor); [by apply bind_fuel|].
  destruct (find sentence m 0); by apply bind_fuel.
Qed.

Lemma chained_starts bound cursor ps :
  chained bound cursor ps →
  Sorted (≤) ps.*1 ∧ Forall (λ p, cursor ≤ p.1) ps.
Proof.
  revert cursor. induction ps as [|p ps IH]; intros cursor; [by split|].
  intros (H1 & H2 & H3 & H4). apply IH in H4 as [Hs Hf].
  assert (Hf' : Forall (λ q, p.1 ≤ q.1) ps).
  { eapply Forall_impl; [exact Hf|]. simpl. lia. }
  split.
  - cbn. constructor; [done|]. destruct Hf'; constructor. done.
  - constructor; [done|]. eapply Forall_impl; [exact Hf'|]. simpl. lia.
Qed.

(** C2, as the code has it. The recorded start offsets are non-decreasing
    when no token is matched by the retry search from the start of the
    sentence; a token that is not located (empty surface, or found neither
    from the cursor nor from the start) is recorded as the zero-width
    position at the cursor, and the walk goes on from the same cursor. *)
Theorem token_positions_monotone (sentence : pystr) :
  (∀ tokens ps,
     _token_positions sentence tokens = Ok ps →
     forward_located sentence tokens 0 = true →
     monotone_starts ps)
  ∧ (∀ cursor token rest ps,
       positions_from sentence (token :: rest) cursor = Ok ps →
       unlocatable sentence cursor token →
       ∃ ps', ps = (cursor, cursor) :: ps'
              ∧ positions_from sentence rest cursor = Ok ps').
Proof.
  split.
  - intros tokens ps H Hfw.
    eapply chained_starts, positions_from_chained; [done..|lia].
  - intros cursor token rest ps H Hun. cbn [positions_from] in H.
    destruct Hun as [Hf|(m & Hm & Hc & H0)].
    + rewrite Hf in H. cbn in H. inv_bind H. injection H as <-. eauto.
    + rewrite Hm, Hc, H0 in H.
      destruct (truthy (PStr m)); cbn in H; inv_bind H; injection H as <-; eauto.
Qed.

Lemma token_positions_monotone_witness :
  let sentence := u "밥 먹었음?" in
  let tokens := [pylist [str "밥"; str "NNG"; num 31 32; num 0 1];
                 pylist [str "먹"; str "VV"; num 31 32; num 0 1];
                 pylist [str "었"; str "EP"; num 31 32; num 0 1];
                 pylist [str "슴"; str "ETN"; num 1 2; num 0 1];
                 pylist [str "?"; str "SF"; num 1 1; num 0 1]] in
  let ps := [(0, 1); (2, 3); (3, 4); (4, 4); (5, 6)] in
  _token_positions sentence tokens = Ok ps
  ∧ monotone_starts ps
  ∧ ∃ ps', drop 3 ps = (4, 4) :: ps'
           ∧ positions_from sentence (drop 4 tokens) 4 = Ok ps'.
Proof.
  intros sentence tokens ps.
  assert (H : _token_positions sentence tokens = Ok ps) by reflexivity.
  split; [exact H|]. split.
  - exact (proj1 (token_positions_monotone sentence) tokens ps H eq_refl).
  - apply (proj2 (token_positions_monotone sentence) 4
             (pylist [str "슴"; str "ETN"; num 1 2; num 0 1])).
    + reflexivity.
    + right. exists (u "슴"). by split_and!.
Defined.

(** C2, as the claim states it, fails: a surface that occurs only before
    the cursor is found by the retry search, at a smaller offset than the
    token before it. *)
Lemma token_positions_not_monotone :
  let sentence := u "ab" in
  let tokens := [pylist [str "b"; str "NNG"; num 31 32; num 0 1];
                 pylist [str "a"; str "NNG"; num 31 32; num 0 1]] in
  _token_positions sentence tokens = Ok [(1, 2); (0, 1)]
  ∧ ¬ monotone_starts [(1, 2); (0, 1)].
Proof.
  intros sentence tokens. split; [reflexivity|].
  intros H. apply Sorted_inv in H as [_ H]. apply HdRel_inv in H.
  simpl in H. lia.
Qed.

(* ===================================================================== *)
(** * Tag refiner *)
(* ===================================================================== *)

Section RefineFacts.
Context {St : Type}.
Implicit Types (callback : option (@callback_t St)) (s : St).

(** The refined list holds, index by index, what [refine_token] makes of
    each token. *)
Lemma refine_from_lookup tokens sentence callback i todo s refined s' :
  refine_from tokens sentence callback i todo s = Ok (refined, s') →
  length refined = length todo
  ∧ ∀ k t, todo !! k = Some t →
      ∃ t' s1 s2,
        refine_token tokens sentence callback (i + k) t s1 = Ok (t', s2)
        ∧ refined !! k = Some t'.
Proof.
  revert i s refined.
  induction todo as [|token todo IH]; intros i s refined H.
  - injection H as <- <-. split; [done|]. intros k t. by rewrite lookup_nil.
  - cbn [refine_from] in H.
    apply M_bind_Ok in H as (t' & s1 & Ht & H).
    apply M_bind_Ok in H as (refined' & s2 & Hr & H).
    injection H as <- <-. apply IH in Hr as [Hlen Hr].
    split; [simpl; lia|]. intros [|k] t Hk.
    + injection Hk as <-. rewrite Nat.add_0_r. by eexists _, _, _.
    + apply Hr in Hk as (t'' & s3 & s4 & Hk & Hl).
      replace (i + 1 + k) with (i + S k) in Hk by lia.
      by eexists _, _, _.
Qed.

(** A token with fewer than 3 fields is left alone. *)
Lemma refine_token_short tokens sentence callback i t s :
  len t < 3 → refine_token tokens sentence callback i t s = Ok (t, s).
Proof. intros Hlen. unfold refine_token. by rewrite decide_False by lia. Qed.

(** A refined token is the token itself or a 4-tuple with the same
    surface, confidence and flag, and a new tag. *)
Lemma refine_token_shape tokens sentence callback i t s t' s' :
  refine_token tokens sentence callback i t s = Ok (t', s') →
  t' = t
  ∨ 3 ≤ len t
    ∧ ∃ morph new_tag prob oov,
        fields t !! 0 = Some morph
        ∧ t' = tuple [morph; new_tag; prob; oov].
Proof.
  unfold refine_token. destruct (decide (3 ≤ len t)) as [Hlen|];
    [|intros [= <- <-]; by left].
  intros H.
  apply M_bind_Ok in H as (morph & s1 & [Hm ->]%lift_Ok & H).
  apply M_bind_Ok in H as (tag & s1 & [Ht ->]%lift_Ok & H).
  apply M_bind_Ok in H as (prob & s1 & [Hp ->]%lift_Ok & H).
  apply M_bind_Ok in H as (oov & s1 & [Ho ->]%lift_Ok & H).
  apply M_bind_Ok in H as (new_tag & s1 & [Hn ->]%lift_Ok & H).
  apply M_bind_Ok in H as (new_tag' & s1 & Hi & H).
  apply getitem_Ok in Hm.
  destruct (decide (new_tag' ≠ tag)); injection H as <- <-; [right | by left].
  split; [done|]. by eexists _, _, _, _.
Qed.

(** The refiner itself has no [while] loop: it runs out of fuel only if
    the decision source does. *)
Lemma auto_rules_fuel tokens i morph tag prob :
  auto_rules tokens i morph tag prob ≠ Raise OutOfFuel.
Proof.
  unfold auto_rules. apply bind_fuel.
  { unfold rule_etn. destruct (_ && _); [|done].
    apply bind_fuel; [|done]. case_decide; [|done].
    apply bind_fuel; [auto with fuel|]. intros t _. case_decide; [|done].
    apply bind_fuel; auto with fuel. }
  intros new_tag _. apply bind_fuel.
  { unfold rule_ec. destruct (eq_str tag (u "EC")); [|done].
    apply bind_fuel; [|done].
    induction (drop (i + 1) tokens) as [|t following IH]; [done|].
    cbn [is_last_meaningful].
    apply bind_fuel; [auto with fuel|]. intros tag_j _.
    apply bind_fuel; [auto with fuel|]. by intros [] _. }
  intros new_tag' _. unfold rule_neologism.
  destruct (_ || _); [|done]. apply bind_fuel; [auto with fuel | done].
Qed.

Lemma refine_token_fuel tokens sentence callback i t s :
  never_out_of_fuel callback →
  refine_token tokens sentence callback i t s ≠ Raise OutOfFuel.
Proof.
  intros Hcb. unfold refine_token. case_decide; [|done].
  apply M_bind_fuel; [apply lift_fuel; auto with fuel|]. intros morph ? _.
  apply M_bind_fuel; [apply lift_fuel; auto with fuel|]. intros tag ? _.
  apply M_bind_fuel; [apply lift_fuel; auto with fuel|]. intros prob ? _.
  apply M_bind_fuel.
  { apply lift_fuel. case_decide; [auto with fuel | done]. }
  intros oov ? _.
  apply M_bind_fuel; [apply lift_fuel, auto_rules_fuel|]. intros new_tag ? _.
  apply M_bind_fuel; [|intros; by case_decide].
  unfold interactive_rules. destruct callback as [cb|]; [|done].
  assert (Hask : ∀ s, ask cb t tokens i sentence new_tag s ≠ Raise OutOfFuel).
  { intros w. unfold ask. apply M_bind_fuel; [by eapply Hcb | done]. }
  apply M_bind_fuel.
  { destruct (eq_str new_tag (u "EC")); [|done].
    apply lift_fuel. auto with fuel. }
  intros [] ? _; [done|].
  destruct (_ && _); [done|]. by destruct (eq_str morph (u "임")).
Qed.

Lemma refine_from_fuel tokens sentence callback i todo s :
  never_out_of_fuel callback →
  refine_from tokens sentence callback i todo s ≠ Raise OutOfFuel.
Proof.
  intros Hcb. revert i s. induction todo as [|t todo IH]; intros i s; [done|].
  cbn [refine_from].
  apply M_bind_fuel; [by apply refine_token_fuel|]. intros t' s1 _.
  apply M_bind_fuel; [apply IH | done].
Qed.

End RefineFacts.

(** C9, as the code has it. A token with fewer than 3 fields (a surface
    and a tag without a confidence included) passes through the refiner
    unmodified; on a token of exactly 3 fields the automatic rules are
    applied with the absent out-of-vocabulary flag read as 0. *)
Theorem refine_tokens_absent_fields {St} (tokens : list token)
    (sentence : option pystr) :
  (∀ (callback : option (@callback_t St)) s refined s' i t,
     _refine_tokens tokens sentence callback s = Ok (refined, s') →
     tokens !! i = Some t → len t < 3 →
     refined !! i = Some t)
  ∧ (∀ (s : St) i t,
       len t = 3 →
       refine_token tokens sentence None i t s
       = lift (refine_token_as_claimed tokens i t) s).
Proof.
  split.
  - intros callback s refined s' i t H Hi Hlen.
    apply refine_from_lookup in H as [_ H].
    apply H in Hi as (t' & s1 & s2 & Ht & ->).
    rewrite refine_token_short in Ht by done. by injection Ht as <- _.
  - intros s i t Hlen. unfold refine_token, refine_token_as_claimed.
    rewrite decide_True, decide_False, decide_False by lia.
    destruct t as [k [|morph [|tag [|prob [|]]]]]; try done.
    cbn. unfold lift, mbind, M_bind, mret, M_ret. cbn.
    destruct (auto_rules tokens i morph tag prob) as [new_tag|]; [cbn|done].
    by case_decide.
Qed.

Lemma refine_tokens_absent_fields_witness :
  let two := pylist [str "음"; str "ETN"] in
  let three := pylist [str "음"; str "ETN"; num 1 2] in
  let tokens := [two; three] in
  @_refine_tokens unit tokens None None ()
    = Ok ([two; tuple [str "음"; str "EF"; num 1 2; num 0 1]], ())
  ∧ [two; tuple [str "음"; str "EF"; num 1 2; num 0 1]] !! 0 = Some two
  ∧ @refine_token unit tokens None None 1 three ()
    = lift (refine_token_as_claimed tokens 1 three) ().
Proof.
  intros two three tokens.
  assert (H : @_refine_tokens unit tokens None None ()
              = Ok ([two; tuple [str "음"; str "EF"; num 1 2; num 0 1]], ()))
    by reflexivity.
  split; [exact H|]. split.
  - apply (proj1 (refine_tokens_absent_fields tokens None) None () _ () 0 two H).
    + reflexivity.
    + cbn. lia.
  - apply (proj2 (refine_tokens_absent_fields tokens None) () 1 three).
    reflexivity.
Defined.

(** C9, as the claim states it, fails: a token with a surface and a tag
    but no confidence is not refined at all, where the automatic rules
    with a confidence of 0.0 would retag it. *)
Lemma refine_tokens_two_fields_untouched :
  let token := pylist [str "음"; str "ETN"] in
  @_refine_tokens unit [token] None None () = Ok ([token], ())
  ∧ refine_token_as_claimed [token] 0 token
    = Ok (tuple [str "음"; str "EF"; num 0 1; num 0 1])
  ∧ @refine_token unit [token] None None 0 token ()
    ≠ lift (refine_token_as_claimed [token] 0 token) ().
Proof. intros token. split; [reflexivity|]. split; [reflexivity|]. discriminate. Qed.

(** C5: the code does not do what the claim says. Rule 0-1 reads the tag of
    every token after a connective ending without the length check that
    rule 0 and the segmenter make: a malformed token after an [EC] token
    raises [IndexError] in the refiner, and so in the segmenter. *)
Lemma refine_tokens_malformed_raises :
  let tokens := [pylist [str "가"; str "VV"; num 31 32; num 0 1];
                 pylist [str "고"; str "EC"; num 31 32; num 0 1];
                 pylist [str "x"]] in
  @_refine_tokens unit tokens None None () = Raise IndexError
  ∧ @segment_sentence_by_endings unit (u "가고") tokens None ()
    = Raise IndexError.
Proof. intros tokens. split; reflexivity. Qed.

(** The sibling rule 0 checks the length of the next token first. *)
Lemma refine_tokens_malformed_after_etn :
  let tokens := [pylist [str "먹"; str "VV"; num 31 32; num 0 1];
                 pylist [str "음"; str "ETN"; num 31 32; num 0 1];
                 pylist [str "x"]] in
  @_refine_tokens unit tokens None None ()
  = Ok ([pylist [str "먹"; str "VV"; num 31 32; num 0 1];
         tuple [str "음"; str "EF"; num 31 32; num 0 1];
         pylist [str "x"]], ()).
Proof. reflexivity. Qed.

(* ===================================================================== *)
(** * Decision cache *)
(* ===================================================================== *)

(** C7. When the decision cache holds a verdict for [(surface, tag)], the
    callback returns the cached outcome (nothing for [KEEP] and [SKIP], the
    replacement tag otherwise) and neither reads from nor writes to the
    terminal, nor changes the cache: the cache is looked up before any
    prompt. *)
Theorem interactive_callback_cached (lower upper : pystr → pystr)
    (token : token) (context_tokens : list Py.token) (index : nat)
    (sentence : option pystr) (w : world) (morph tag : pyval)
    (decision : pystr) :
  3 ≤ len token →
  fields token !! 0 = Some morph →
  fields token !! 1 = Some tag →
  decision_cache w !! (morph, tag) = Some decision →
  ∃ w',
    interactive_callback lower upper token context_tokens index sentence w
    = Ok (if bool_decide (decision = u "KEEP")
             || bool_decide (decision = u "SKIP")
          then PNone else PStr decision, w')
    ∧ stdin w' = stdin w
    ∧ stdout w' = stdout w
    ∧ decision_cache w' = decision_cache w.
Proof.
  intros Hlen Hm Ht Hc. unfold interactive_callback.
  rewrite (proj2 (getitem_Ok token 0 morph) Hm).
  rewrite (proj2 (getitem_Ok token 1 tag) Ht).
  destruct (fields token !! 2) as [prob|] eqn:Hp.
  2: { apply lookup_ge_None in Hp. unfold len in Hlen. lia. }
  rewrite (proj2 (getitem_Ok token 2 prob) Hp). simpl_bind. rewrite Hc.
  destruct (bool_decide (decision = u "KEEP")); [by exists w|].
  destruct (bool_decide (decision = u "SKIP")); [by exists w|].
  by eexists.
Qed.

Lemma interactive_callback_cached_witness :
  let token := pylist [str "고"; str "EC"; num 1 2; num 0 1] in
  let w := World {[ (str "고", str "EC") := u "EF" ]} 0 None [] [] in
  3 ≤ len token
  ∧ ∃ w',
      interactive_callback id id token [token] 0 None w
      = Ok (PStr (u "EF"), w')
      ∧ stdin w' = stdin w
      ∧ stdout w' = stdout w
      ∧ decision_cache w' = decision_cache w.
Proof.
  intros token w.
  assert (Hlen : 3 ≤ len token) by (cbn; lia).
  split; [exact Hlen|].
  exact (interactive_callback_cached id id token [token] 0 None w
           (str "고") (str "EC") (u "EF") Hlen eq_refl eq_refl eq_refl).
Defined.

(** The callback is a decision source the refiner can be given. *)
Lemma prompt_fuel lower upper cache_key lines w :
  prompt lower upper cache_key lines w ≠ Raise OutOfFuel.
Proof.
  remember (length lines) as n eqn:Hn. revert lines w Hn.
  induction n as [n IH] using lt_wf_ind. intros lines w ->.
  destruct lines as [|line lines1]; [done|]. cbn [prompt].
  destruct (bool_decide (_ = u "e")); [done|].
  destruct (bool_decide (_ = u "k")); [done|].
  destruct (bool_decide (_ = u "d")); [done|].
  destruct (bool_decide (_ = u "s")); [done|].
  destruct (bool_decide (_ = u "c")).
  - destruct lines1 as [|line2 lines2]; [done|].
    destruct (bool_decide (_ = [])); [|done].
    eapply IH; [|done]. cbn. lia.
  - eapply IH; [|done]. cbn. lia.
Qed.

Lemma interactive_callback_fuel lower upper :
  never_out_of_fuel (Some (interactive_callback lower upper)).
Proof.
  intros cb token tokens i sentence w [= <-]. unfold interactive_callback.
  apply bind_fuel; [auto with fuel|]. intros morph _.
  apply bind_fuel; [auto with fuel|]. intros tag _.
  apply bind_fuel; [auto with fuel|]. intros prob _.
  destruct (decision_cache w !! (morph, tag)) as [decision|].
  { by repeat case_bool_decide. }
  apply bind_fuel.
  { unfold context_window.
    generalize (length tokens `min` (i + 4) - 0 `max` (i - 3)) as n.
    generalize (0 `max` (i - 3)) as start.
    intros start n. revert start.
    induction n as [|n IH]; intros start; [done|].
    cbn [context_from].
    apply bind_fuel; [auto with fuel|]. intros t _.
    apply bind_fuel; [auto with fuel|]. intros t0 _.
    apply bind_fuel; [auto with fuel|]. intros t1 _.
    apply bind_fuel; [apply IH | done]. }
  intros context _. apply bind_fuel; [by destruct prob|]. intros _ _.
  apply prompt_fuel.
Qed.

(** A verdict given with "apply to all" is found by the next call: the
    operator types [ea] once, and the second call, on another sentence and
    with nothing left to read, answers from the cache. *)
Lemma interactive_callback_persisted :
  let token := pylist [str "고"; str "EC"; num 1 2; num 0 1] in
  let w := World ∅ 0 None [u "ea"] [] in
  match interactive_callback id id token [token] 0 (Some (u "가고")) w with
  | Ok (decision1, w1) =>
      decision1 = PStr (u "EF") ∧ stdin w1 = []
      ∧ match interactive_callback id id token [token; token] 1
                (Some (u "하고")) w1 with
        | Ok (decision2, w2) =>
            decision2 = PStr (u "EF") ∧ stdout w2 = stdout w1
        | Raise _ => False
        end
  | Raise _ => False
  end.
Proof. vm_compute. by split_and!. Qed.

(* ===================================================================== *)
(** * Sentence segmenter: the steps of the walk *)
(* ===================================================================== *)

Section SegmenterSteps.
Variables (sentence : pystr) (tokens : list token)
  (positions : list (nat * nat)).

(** What a flush does: nothing on an empty buffer; otherwise it emits the
    buffer, whose last token it retags from [EC] to [ECF], with the
    trimmed slice from [start_pos] to the end it was given. *)
Lemma flush_buffer_Ok explicit_end_pos st st' :
  flush_buffer sentence explicit_end_pos st = Ok st' →
  (st' = st ∧ (buffer_tokens st = [] ∨ start_pos st = None))
  ∨ ∃ start buffer,
      let final_end :=
        match explicit_end_pos with
        | Some e => e
        | None => default (length sentence) (end_pos st)
        end in
      start_pos st = Some start
      ∧ buffer_tokens st ≠ []
      ∧ st' = SegState [] None None
                (segments st
                   ++ [(strip (slice sentence start final_end), buffer)])
                (spans st ++ [(start, final_end)])
      ∧ (Forall (λ t, 2 ≤ len t) (buffer_tokens st) →
         segment_ok (strip (slice sentence start final_end), buffer)).
Proof.
  unfold flush_buffer.
  destruct (buffer_tokens st) as [|t0 buf] eqn:Hbuf; [intros [= <-]; auto|].
  destruct (start_pos st) as [start|]; [|intros [= <-]; auto].
  rewrite <- Hbuf. intros H. right.
  inv_bind H. rename a into t. apply getindex_Ok in Ha.
  inv_bind H. rename a into tag. apply getitem_Ok in Ha0.
  inv_bind H. rename a into buffer. injection H as <-.
  exists start, buffer. split_and!; [done | by rewrite Hbuf | done |].
  intros Hwf. unfold segment_ok. cbn [snd].
  destruct (eq_str tag (u "EC")) eqn:Htag.
  - inv_bind Ha1. rename a into t'. injection Ha1 as <-.
    unfold retag_ecf in Ha2. inv_bind Ha2.
    destruct (tkind t); [|done]. injection Ha2 as <-.
    split.
    + apply Forall_insert; [done|]. unfold len, tuple. cbn. lia.
    + intros t1 Hlast. rewrite last_lookup, length_insert in Hlast.
      replace (pred (length (buffer_tokens st)))
        with (length (buffer_tokens st) - 1) in Hlast by lia.
      rewrite list_lookup_insert_eq in Hlast
        by (rewrite Hbuf; cbn; lia).
      injection Hlast as <-. unfold has_tag. cbn. by intros [= ?].
  - injection Ha1 as <-. split; [done|].
    intros t1 Hlast. rewrite last_lookup in Hlast.
    replace (pred (length (buffer_tokens st)))
      with (length (buffer_tokens st) - 1) in Hlast by lia.
    rewrite Ha in Hlast. injection Hlast as <-.
    unfold has_tag. rewrite Ha0. intros [= ->].
    unfold eq_str in Htag. by rewrite bool_decide_eq_true_2 in Htag.
Qed.

(** An invariant of the absorbing loop holds when it stops, at a token
    with at least 2 fields or at the end of the list. *)
Lemma absorb_inv (J : nat → list token → option nat → Prop)
    fuel lookahead buffer end_ lookahead' buffer' end' :
  absorb tokens positions fuel lookahead buffer end_
  = Ok (lookahead', buffer', end') →
  J lookahead buffer end_ →
  (∀ la buf e t, J la buf e → tokens !! la = Some t → len t < 2 →
     J (la + 1) buf e) →
  (∀ la buf e t p, J la buf e → tokens !! la = Some t → 2 ≤ len t →
     positions !! la = Some p →
     J (la + 1) (buf ++ [t]) (if decide (p.1 < p.2) then Some p.2 else e)) →
  J lookahead' buffer' end'
  ∧ lookahead ≤ lookahead'
  ∧ (lookahead' < length tokens →
     ∃ t, tokens !! lookahead' = Some t ∧ 2 ≤ len t)
  ∧ lookahead' ≤ lookahead `max` length tokens.
Proof.
  intros H HJ Hskip Hglue. revert lookahead buffer end_ H HJ.
  induction fuel as [|fuel IH]; intros lookahead buffer end_ H HJ; [done|].
  cbn [absorb] in H.
  destruct (decide (lookahead < length tokens)) as [Hlt|Hge].
  2: { injection H as <- <- <-. split_and!; [done | lia | lia | lia]. }
  inv_bind H. rename a into t. apply getindex_Ok in Ha.
  destruct (decide (len t < 2)) as [Hshort|Hwf].
  { apply IH in H as (? & ? & ? & ?); [|by eapply Hskip].
    split_and!; [done | lia | done | lia]. }
  inv_bind H. inv_bind H. inv_bind H. destruct a1.
  - inv_bind H. rename a1 into p. apply getindex_Ok in Ha3.
    apply IH in H as (? & ? & ? & ?); [|eapply Hglue; [done..|lia|done]].
    split_and!; [done | lia | done | lia].
  - injection H as <- <- <-. split_and!; [done | lia | | lia].
    intros _. exists t. split; [done|lia].
Qed.

(** The absorbing loop stops before its fuel does. *)
Lemma absorb_fuel fuel lookahead buffer end_ :
  length tokens - lookahead < fuel →
  absorb tokens positions fuel lookahead buffer end_ ≠ Raise OutOfFuel.
Proof.
  revert lookahead buffer end_.
  induction fuel as [|fuel IH]; intros lookahead buffer end_ Hf; [lia|].
  cbn [absorb]. case_decide; [|done].
  apply bind_fuel; [auto with fuel|]. intros t _.
  case_decide; [apply IH; lia|].
  apply bind_fuel; [auto with fuel|]. intros tag _.
  apply bind_fuel; [auto with fuel|]. intros j _.
  apply bind_fuel; [destruct (_ || _); [done | auto with fuel]|].
  intros [] _; [|done].
  apply bind_fuel; [auto with fuel|]. intros p _. apply IH. lia.
Qed.

Lemma flush_buffer_fuel explicit_end_pos st :
  flush_buffer sentence explicit_end_pos st ≠ Raise OutOfFuel.
Proof.
  unfold flush_buffer. destruct (buffer_tokens st) as [|b0 buf]; [done|].
  destruct (start_pos st); [|done].
  apply bind_fuel; [auto with fuel|]. intros last _.
  apply bind_fuel; [auto with fuel|]. intros tag _.
  apply bind_fuel; [|done].
  destruct (eq_str tag (u "EC")); [|done].
  apply bind_fuel; [|done]. unfold retag_ecf.
  apply bind_fuel; [auto with fuel|]. intros morph _.
  by destruct (tkind last).
Qed.

(** What one turn of the walk does. *)
Lemma seg_iter_Ok idx st idx' st' :
  seg_iter sentence tokens positions idx st = Ok (idx', st') →
  ∃ token,
    tokens !! idx = Some token
    ∧ ((len token < 2 ∧ idx' = idx + 1 ∧ st' = st)
       ∨ (2 ≤ len token
          ∧ ∃ p tag,
              positions !! idx = Some p
              ∧ fields token !! 1 = Some tag
              ∧ let buffer := buffer_tokens st ++ [token] in
                let start := match start_pos st with
                             | None => Some p.1
                             | Some s => Some s
                             end in
                let end_ :=
                  if decide (p.1 < p.2) then Some p.2 else end_pos st in
                (tag_in tag SPLIT_ENDING_TAGS = false
                 ∧ idx' = idx + 1
                 ∧ st' = SegState buffer start end_ (segments st) (spans st))
                ∨ (tag_in tag SPLIT_ENDING_TAGS = true
                   ∧ ∃ buffer' end' split_end,
                       absorb tokens positions (S (length tokens)) (idx + 1)
                         buffer end_ = Ok (idx', buffer', end')
                       ∧ split_boundary sentence tokens positions idx' end'
                         = Ok split_end
                       ∧ flush_buffer sentence split_end
                           (SegState buffer' start end' (segments st)
                              (spans st)) = Ok st'))).
Proof.
  unfold seg_iter. intros H.
  inv_bind H. rename a into token. apply getindex_Ok in Ha.
  exists token. split; [done|].
  destruct (decide (len token < 2)); [injection H as <- <-; by left|].
  right. split; [lia|].
  inv_bind H. rename a into p. apply getindex_Ok in Ha0.
  inv_bind H. rename a into tag. apply getitem_Ok in Ha1.
  exists p, tag. split_and!; [done..|]. cbn zeta.
  destruct (tag_in tag SPLIT_ENDING_TAGS); [right | injection H as <- <-; by left].
  split; [done|].
  inv_bind H. destruct a as [[lookahead buffer'] end'].
  inv_bind H. rename a into split_end. inv_bind H. injection H as <- <-.
  by exists buffer', end', split_end.
Qed.

(** Each turn moves on. *)
Lemma seg_iter_idx idx st idx' st' :
  seg_iter sentence tokens positions idx st = Ok (idx', st') → idx < idx'.
Proof.
  intros (token & _ & [(_ & -> & _)|(_ & p & tag & _ & _ & H)])%seg_iter_Ok;
    [lia|].
  destruct H as [(_ & -> & _)|(_ & buffer' & end' & split_end & H & _)]; [lia|].
  apply (absorb_inv (λ _ _ _, True)) in H; [lia|done..].
Qed.

Lemma seg_iter_fuel idx st :
  seg_iter sentence tokens positions idx st ≠ Raise OutOfFuel.
Proof.
  unfold seg_iter.
  apply bind_fuel; [auto with fuel|]. intros token _. case_decide; [done|].
  apply bind_fuel; [auto with fuel|]. intros p _.
  apply bind_fuel; [auto with fuel|]. intros tag _.
  destruct (tag_in tag SPLIT_ENDING_TAGS); [|done].
  apply bind_fuel; [apply absorb_fuel; lia|]. intros [[la buf] e] _.
  apply bind_fuel.
  { unfold split_boundary. case_decide; [|done].
    apply bind_fuel; [auto with fuel|]. intros q _.
    destruct e; [by case_decide | done]. }
  intros split_end _. apply bind_fuel; [apply flush_buffer_fuel | done].
Qed.

Lemma seg_loop_fuel fuel idx st :
  length tokens - idx < fuel →
  seg_loop sentence tokens positions fuel idx st ≠ Raise OutOfFuel.
Proof.
  revert idx st. induction fuel as [|fuel IH]; intros idx st Hf; [lia|].
  cbn [seg_loop]. case_decide; [|done].
  apply bind_fuel; [apply seg_iter_fuel|].
  intros [idx' st'] Hi%seg_iter_idx. apply IH. lia.
Qed.

(** An invariant of the walk holds when the walk is over. *)
Lemma seg_loop_inv (I : nat → seg_state → Prop) fuel idx st st' :
  seg_loop sentence tokens positions fuel idx st = Ok st' →
  I idx st →
  (∀ idx st idx' st',
     I idx st → idx < length tokens →
     seg_iter sentence tokens positions idx st = Ok (idx', st') →
     I idx' st') →
  ∃ idx', length tokens ≤ idx' ∧ I idx' st'.
Proof.
  intros H HI Hstep. revert idx st H HI.
  induction fuel as [|fuel IH]; intros idx st H HI; [done|].
  cbn [seg_loop] in H.
  destruct (decide (idx < length tokens)).
  - inv_bind H. destruct a as [idx1 st1]. eapply IH; [done|]. by eapply Hstep.
  - injection H as <-. exists idx. split; [lia|done].
Qed.

End SegmenterSteps.

(* ===================================================================== *)
(** * Sentence segmenter: the emitted segments *)
(* ===================================================================== *)

(** Unfolds a call that went past the early return. *)
Lemma segment_sentence_by_endings_Ok {St} sentence tokens
    (callback : option (@callback_t St)) s segs s' :
  sentence ≠ [] → tokens ≠ [] →
  segment_sentence_by_endings sentence tokens callback s = Ok (segs, s') →
  ∃ refined st,
    _refine_tokens tokens (Some sentence) callback s = Ok (refined, s')
    ∧ seg_walk sentence refined = Ok st
    ∧ segs = segments st.
Proof.
  intros Hs Ht. unfold segment_sentence_by_endings.
  rewrite decide_False by (by intros [|]). intros H.
  apply M_bind_Ok in H as (refined & s1 & Hr & H).
  apply M_bind_Ok in H as (st & s2 & [Hw ->]%lift_Ok & H).
  injection H as <- <-. by exists refined, st.
Qed.

(** The segmenter never runs out of fuel: whatever it answers, a list of
    segments or an exception, it answers as the Python function does. *)
Lemma seg_walk_fuel sentence tokens :
  seg_walk sentence tokens ≠ Raise OutOfFuel.
Proof.
  unfold seg_walk. apply bind_fuel; [apply positions_from_fuel|].
  intros positions _.
  apply bind_fuel; [apply seg_loop_fuel; lia|]. intros st _.
  apply flush_buffer_fuel.
Qed.

Lemma segment_sentence_by_endings_fuel {St} sentence tokens
    (callback : option (@callback_t St)) s :
  never_out_of_fuel callback →
  segment_sentence_by_endings sentence tokens callback s ≠ Raise OutOfFuel.
Proof.
  intros Hcb. unfold segment_sentence_by_endings. case_decide; [done|].
  apply M_bind_fuel; [by apply refine_from_fuel|]. intros refined s1 _.
  apply M_bind_fuel; [apply lift_fuel, seg_walk_fuel | done].
Qed.

(** Only tokens with at least 2 fields enter the buffer, and every flush
    emits a segment whose last token is not tagged [EC]. *)
Lemma seg_walk_segments_ok sentence tokens st :
  seg_walk sentence tokens = Ok st → Forall segment_ok (segments st).
Proof.
  unfold seg_walk. intros H.
  inv_bind H. rename a into positions. inv_bind H. rename a into st1.
  apply (seg_loop_inv _ _ _
           (λ _ st, Forall (λ t, 2 ≤ len t) (buffer_tokens st)
                    ∧ Forall segment_ok (segments st))) in Ha0
    as (_ & _ & Hbuf & Hsegs); [| by split |].
  - apply flush_buffer_Ok in H
      as [[-> _]|(start & buffer & _ & _ & -> & Hok)]; [done|].
    apply Forall_app. split; [done|]. apply Forall_singleton. auto.
  - clear. intros idx st idx' st' [Hbuf Hsegs] _ Hi.
    apply seg_iter_Ok in Hi as (token & Hk & [(_ & _ & ->)|(Hwf & p & tag & _ & _ & Hi)]);
      [done|].
    cbn zeta in Hi.
    destruct Hi as [(_ & _ & ->)|(_ & buffer' & end' & split_end & Ha & _ & Hf)].
    + split; [|done]. cbn. apply Forall_app. split; [done|].
      by apply Forall_singleton.
    + apply (absorb_inv _ _ (λ _ buf _, Forall (λ t, 2 ≤ len t) buf)) in Ha
        as (Hbuf' & _).
      * apply flush_buffer_Ok in Hf
          as [[-> _]|(start & buffer & _ & _ & -> & Hok)]; [by split|].
        split; [constructor|]. cbn.
        apply Forall_app. split; [done|]. apply Forall_singleton. auto.
      * apply Forall_app. split; [done|]. by apply Forall_singleton.
      * done.
      * intros la buf e t q Hb _ Ht _. apply Forall_app. split; [done|].
        by apply Forall_singleton.
Qed.

(** C10. On a non-empty sentence and a non-empty token list, every token of
    every returned segment has at least 2 fields, and no segment's last
    token carries the tag [EC]. *)
Theorem segments_well_formed {St} (sentence : pystr) (tokens : list token)
    (callback : option (@callback_t St)) (s : St) (segs : list segment)
    (s' : St) :
  sentence ≠ [] → tokens ≠ [] →
  segment_sentence_by_endings sentence tokens callback s = Ok (segs, s') →
  Forall segment_ok segs.
Proof.
  intros Hs Ht H.
  apply segment_sentence_by_endings_Ok in H as (refined & st & _ & Hw & ->);
    [|done..].
  by eapply seg_walk_segments_ok.
Qed.

(** The retagging [(t[0], 'ECF') + t[2:]] is written for tuples: when the
    last buffered token is a list still tagged [EC] (a 2-field token read
    back from JSON), the flush raises and no segment is returned. *)
Lemma flush_retag_list_raises :
  let sentence := u "가 고" in
  let tokens := [pylist [str "가"; str "VV"]; pylist [str "고"; str "EC"]] in
  @segment_sentence_by_endings unit sentence tokens None ()
  = Raise TypeError.
Proof. reflexivity. Qed.

Lemma segments_well_formed_witness :
  let sentence := u "가 고" in
  let tokens := [tuple [str "가"; str "VV"]; tuple [str "x"];
                 tuple [str "고"; str "EC"]] in
  let segs := [(u "가 고", [tuple [str "가"; str "VV"];
                            tuple [str "고"; str "ECF"]])] in
  @segment_sentence_by_endings unit sentence tokens None () = Ok (segs, ())
  ∧ Forall segment_ok segs.
Proof.
  intros sentence tokens segs.
  assert (H : @segment_sentence_by_endings unit sentence tokens None ()
              = Ok (segs, ())) by reflexivity.
  split; [exact H|].
  exact (segments_well_formed sentence tokens None () segs ()
           ltac:(discriminate) ltac:(discriminate) H).
Defined.

(* ===================================================================== *)
(** * Sentence segmenter: at least one segment *)
(* ===================================================================== *)

Lemma tag_in_split tag :
  tag_in tag SPLIT_ENDING_TAGS = true ↔ tag = PStr (u "EF").
Proof.
  unfold tag_in, SPLIT_ENDING_TAGS, eq_str. cbn [existsb].
  rewrite orb_false_r. apply bool_decide_eq_true.
Qed.

(** Refining keeps the number of fields on the same side of 2. *)
Lemma refine_tokens_well_formed {St} tokens sentence
    (callback : option (@callback_t St)) s refined s' :
  _refine_tokens tokens sentence callback s = Ok (refined, s') →
  Exists (λ t, 2 ≤ len t) tokens → Exists (λ t, 2 ≤ len t) refined.
Proof.
  intros [Hlen H]%refine_from_lookup.
  intros (t & [k Hk]%list_elem_of_lookup & Hwf)%Exists_exists.
  apply H in Hk as (t' & s1 & s2 & Ht & Hk').
  apply Exists_exists. exists t'. split; [by eapply list_elem_of_lookup_2|].
  apply refine_token_shape in Ht
    as [->|(_ & morph & new_tag & prob & oov & _ & ->)]; [done|].
  cbn. lia.
Qed.

Lemma first_start_lookup tokens positions idx t p :
  (∀ k t', k < idx → tokens !! k = Some t' → len t' < 2) →
  tokens !! idx = Some t → 2 ≤ len t → positions !! idx = Some p →
  first_start tokens positions = Some p.1.
Proof.
  revert tokens positions.
  induction idx as [|idx IH]; intros [|t0 tokens] [|p0 positions] Hpre Ht Hwf Hp;
    try done; cbn [first_start].
  - injection Ht as ->. injection Hp as ->. by rewrite decide_True.
  - pose proof (Hpre 0 t0 ltac:(lia) eq_refl). rewrite decide_False by lia.
    apply IH; [|done..]. intros k t' Hk. apply (Hpre (S k)). lia.
Qed.

Section AtLeastOne.
Variables (sentence : pystr) (tokens : list token).
Hypothesis some_well_formed : Exists (λ t, 2 ≤ len t) tokens.

Lemma not_all_malformed idx :
  length tokens ≤ idx →
  ¬ (∀ k t, k < idx → tokens !! k = Some t → len t < 2).
Proof using some_well_formed.
  intros Hidx Hall.
  apply Exists_exists in some_well_formed as (t & [k Hk]%list_elem_of_lookup & Hwf).
  apply Hall in Hk as ?; [lia|]. apply lookup_lt_Some in Hk. lia.
Qed.

(** Once a token with 2 fields was met, the buffer or the output holds
    something; the last flush empties the buffer into the output. *)
Lemma seg_walk_nonempty st :
  seg_walk sentence tokens = Ok st → segments st ≠ [].
Proof using some_well_formed.
  unfold seg_walk. intros H.
  inv_bind H. rename a into positions. inv_bind H. rename a into st1.
  apply (seg_loop_inv _ _ _
           (λ idx st,
              segments st ≠ []
              ∨ (buffer_tokens st ≠ [] ∧ is_Some (start_pos st))
              ∨ ∀ k t, k < idx → tokens !! k = Some t → len t < 2))
    in Ha0 as (idx & Hidx & HI).
  - destruct HI as [Hseg|[[Hbuf [start Hstart]]|Hall]].
    + apply flush_buffer_Ok in H
        as [[-> _]|(? & ? & _ & _ & -> & _)]; [done|].
      cbn. by intros [? _]%app_eq_nil.
    + apply flush_buffer_Ok in H
        as [[_ [?|?]]|(? & ? & _ & _ & -> & _)]; [done|congruence|].
      cbn. by intros [_ ?]%app_eq_nil.
    + by apply not_all_malformed in Hall.
  - right. right. intros k t ?. lia.
  - clear. intros idx st idx' st' HI _ Hi.
    apply seg_iter_Ok in Hi
      as (token & Hk & [(Hshort & -> & ->)|(Hwf & p & tag & _ & _ & Hi)]).
    { destruct HI as [?|[?|Hall]]; [auto..|]. right. right.
      intros k t Hlt Ht. destruct (decide (k = idx)) as [->|].
      - congruence.
      - apply (Hall k); [lia|done]. }
    cbn zeta in Hi.
    destruct Hi as [(_ & _ & ->)|(_ & buffer' & end' & split_end & Ha & _ & Hf)].
    + destruct HI as [?|_]; [by left|]. right. left. cbn. split.
      * by intros [_ ?]%app_eq_nil.
      * by destruct (start_pos st).
    + apply (absorb_inv _ _ (λ _ buf _, buf ≠ [])) in Ha as (Hbuf' & _).
      * apply flush_buffer_Ok in Hf
          as [[_ [?|Hnone]]|(? & ? & _ & _ & -> & _)].
        -- done.
        -- cbn in Hnone. by destruct (start_pos st).
        -- left. cbn. by intros [_ ?]%app_eq_nil.
      * by intros [_ ?]%app_eq_nil.
      * done.
      * intros la buf e t q _ _ _ _. by intros [_ ?]%app_eq_nil.
Qed.

(** Without a split tag nothing is flushed before the end, and the last
    flush emits the one segment that starts with the first token of 2
    fields. *)
Lemma seg_walk_no_split st :
  seg_walk sentence tokens = Ok st →
  Forall (λ t, ¬ has_tag t (u "EF")) tokens →
  ∃ positions a buffer,
    _token_positions sentence tokens = Ok positions
    ∧ first_start tokens positions = Some a
    ∧ segments st = [(strip (drop a sentence), buffer)].
Proof using some_well_formed.
  unfold seg_walk. intros H Hno.
  inv_bind H. rename a into positions. inv_bind H. rename a into st1.
  exists positions.
  apply (seg_loop_inv _ _ _
           (λ idx st,
              segments st = []
              ∧ ((buffer_tokens st = [] ∧ start_pos st = None
                  ∧ ∀ k t, k < idx → tokens !! k = Some t → len t < 2)
                 ∨ (buffer_tokens st ≠ []
                    ∧ is_Some (start_pos st)
                    ∧ start_pos st = first_start tokens positions))))
    in Ha0 as (idx & Hidx & Hsegs & HI).
  - destruct HI as [(_ & _ & Hall)|(Hbuf & [a Ha1] & Hfirst)];
      [by apply not_all_malformed in Hall|].
    apply flush_buffer_Ok in H
      as [[_ [?|?]]|(a' & buffer & Hs & _ & -> & _)]; [done|congruence|].
    exists a, buffer. split_and!; [done|congruence|].
    cbn. rewrite Hsegs. cbn. rewrite Ha1 in Hs. injection Hs as <-.
    unfold slice. by rewrite firstn_all.
  - split; [done|]. left. split_and!; [done..|]. intros k t ?. lia.
  - clear -Hno. intros idx st idx' st' [Hsegs HI] _ Hi.
    apply seg_iter_Ok in Hi
      as (token & Hk & [(Hshort & -> & ->)|(Hwf & p & tag & Hp & Htag & Hi)]).
    { split; [done|]. destruct HI as [(? & ? & Hall)|?]; [left|by right].
      split_and!; [done..|]. intros k t Hlt Ht.
      destruct (decide (k = idx)) as [->|]; [congruence|].
      apply (Hall k); [lia|done]. }
    cbn zeta in Hi. destruct Hi as [(_ & _ & ->)|(Hsplit & _)].
    + split; [done|]. right. cbn.
      split; [by intros [_ ?]%app_eq_nil|].
      destruct HI as [(_ & -> & Hall)|(_ & [a Ha] & Hfirst)].
      * split; [done|]. symmetry. by eapply first_start_lookup.
      * rewrite Ha in Hfirst |- *. done.
    + apply tag_in_split in Hsplit as ->.
      eapply Forall_lookup_1 in Hno; [|done]. done.
Qed.

End AtLeastOne.

(** C3, as the code has it. On a non-empty sentence and a token list that
    holds at least one token with 2 fields or more, a call that returns
    returns at least one segment; when no refined token carries the split
    tag [EF], it returns exactly one, the trimmed text of the sentence from
    the start offset of the first such token to its end. *)
Theorem segments_nonempty {St} (sentence : pystr) (tokens : list token)
    (callback : option (@callback_t St)) (s : St) (segs : list segment)
    (s' : St) :
  sentence ≠ [] → Exists (λ t, 2 ≤ len t) tokens →
  segment_sentence_by_endings sentence tokens callback s = Ok (segs, s') →
  segs ≠ []
  ∧ ∃ refined,
      _refine_tokens tokens (Some sentence) callback s = Ok (refined, s')
      ∧ (Forall (λ t, ¬ has_tag t (u "EF")) refined →
         ∃ positions a buffer,
           _token_positions sentence refined = Ok positions
           ∧ first_start refined positions = Some a
           ∧ segs = [(strip (drop a sentence), buffer)]).
Proof.
  intros Hs Hex H.
  assert (Ht : tokens ≠ []) by (intros ->; by apply Exists_nil in Hex).
  apply segment_sentence_by_endings_Ok in H as (refined & st & Hr & Hw & ->);
    [|done..].
  pose proof (refine_tokens_well_formed _ _ _ _ _ _ Hr Hex) as Hex'.
  split; [by eapply seg_walk_nonempty|].
  exists refined. split; [done|]. intros Hno. by eapply seg_walk_no_split.
Qed.

Lemma segments_nonempty_witness :
  let sentence := u " 밥 먹고 " in
  let tokens := [pylist [str "밥"; str "NNG"; num 31 32; num 0 1];
                 pylist [str "먹"; str "VV"; num 31 32; num 0 1];
                 pylist [str "고"; str "EC"; num 31 32; num 0 1]] in
  let refined := [pylist [str "밥"; str "NNG"; num 31 32; num 0 1];
                  pylist [str "먹"; str "VV"; num 31 32; num 0 1];
                  tuple [str "고"; str "ECF"; num 31 32; num 0 1]] in
  let segs := [(u "밥 먹고", refined)] in
  @segment_sentence_by_endings unit sentence tokens None () = Ok (segs, ())
  ∧ segs ≠ []
  ∧ ∃ refined,
      @_refine_tokens unit tokens (Some sentence) None () = Ok (refined, ())
      ∧ (Forall (λ t, ¬ has_tag t (u "EF")) refined →
         ∃ positions a buffer,
           _token_positions sentence refined = Ok positions
           ∧ first_start refined positions = Some a
           ∧ segs = [(strip (drop a sentence), buffer)]).
Proof.
  intros sentence tokens refined segs.
  assert (H : @segment_sentence_by_endings unit sentence tokens None ()
              = Ok (segs, ())) by reflexivity.
  split; [exact H|].
  apply (segments_nonempty sentence tokens None () segs ()).
  - discriminate.
  - apply Exists_cons_hd. cbn. lia.
  - exact H.
Defined.

(** C3, as the claim states it, fails: when every token is malformed the
    walk skips them all and nothing is flushed. *)
Lemma segments_empty_on_malformed :
  let sentence := u "밥" in
  let tokens := [pylist [str "밥"]] in
  sentence ≠ [] ∧ tokens ≠ []
  ∧ @segment_sentence_by_endings unit sentence tokens None () = Ok ([], ()).
Proof. intros sentence tokens. by split_and!. Qed.

(* ===================================================================== *)
(** * Sentence segmenter: the split boundary *)
(* ===================================================================== *)

(** C4, as the code has it. When the walk meets a token tagged [EF], it
    absorbs the following particle, auxiliary and punctuation tokens and
    flushes one segment. If a token remains after the absorption, the
    segment ends at the start offset of that token when no buffered token
    was located or when that start is not before the tracked end offset,
    and at the tracked end offset otherwise; if no token remains, it ends
    at the length of the sentence. *)
Theorem split_boundary_spec (sentence : pystr) (tokens : list token)
    (positions : list (nat * nat)) (idx : nat) (st : seg_state)
    (idx' : nat) (st' : seg_state) (token : token) :
  seg_iter sentence tokens positions idx st = Ok (idx', st') →
  tokens !! idx = Some token → 2 ≤ len token → has_tag token (u "EF") →
  ∃ p start boundary buffer tracked_end,
    positions !! idx = Some p
    ∧ absorb tokens positions (S (length tokens)) (idx + 1)
        (buffer_tokens st ++ [token])
        (if decide (p.1 < p.2) then Some p.2 else end_pos st)
      = Ok (idx', buffer, tracked_end)
    ∧ spans st' = spans st ++ [(start, boundary)]
    ∧ (idx' < length tokens →
       ∃ next, positions !! idx' = Some next
         ∧ boundary = match tracked_end with
                      | None => next.1
                      | Some e => if decide (e ≤ next.1) then next.1 else e
                      end)
    ∧ (length tokens ≤ idx' → boundary = length sentence).
Proof.
  intros Hi Hk Hwf Htag.
  apply seg_iter_Ok in Hi
    as (token' & Hk' & [(Hshort & _)|(_ & p & tag & Hp & Htag' & Hi)]).
  { rewrite Hk in Hk'. injection Hk' as <-. lia. }
  rewrite Hk in Hk'. injection Hk' as <-.
  unfold has_tag in Htag. rewrite Htag in Htag'. injection Htag' as <-.
  cbn zeta in Hi.
  destruct Hi as [(Hno & _)|(_ & buffer & tracked_end & split_end & Ha & Hb & Hf)].
  { by rewrite (proj2 (tag_in_split _) eq_refl) in Hno. }
  assert (Hbuf : buffer ≠ []).
  { apply (absorb_inv _ _ (λ _ buf _, buf ≠ [])) in Ha as [? _]; [done|..].
    - by intros [_ ?]%app_eq_nil.
    - done.
    - intros la buf e t q _ _ _ _. by intros [_ ?]%app_eq_nil. }
  apply flush_buffer_Ok in Hf as [[_ [?|Hnone]]|(start & buf' & Hs & _ & -> & _)].
  { done. }
  { cbn in Hnone. by destruct (start_pos st). }
  unfold split_boundary in Hb.
  destruct (decide (idx' < length tokens)) as [Hlt|Hge].
  - inv_bind Hb. rename a into next. apply getindex_Ok in Ha0.
    eexists p, start, _, buffer, tracked_end.
    split_and!; [done | done | done | | lia].
    intros _. exists next. split; [done|].
    destruct tracked_end as [e|]; [|by injection Hb as <-].
    by destruct (decide (e ≤ next.1)); injection Hb as <-.
  - injection Hb as <-.
    eexists p, start, _, buffer, tracked_end.
    split_and!; [done | done | done | lia | done].
Qed.

Lemma split_boundary_spec_witness :
  let sentence := u "갔음 ㅋㅋ" in
  let ending := tuple [str "음"; str "EF"; num 31 32; num 0 1] in
  let tokens := [tuple [str "가"; str "VV"; num 31 32; num 0 1];
                 tuple [str "았"; str "EP"; num 31 32; num 0 1];
                 ending;
                 tuple [str "ㅋㅋ"; str "NNG"; num 31 32; num 0 1]] in
  let positions := [(0, 0); (0, 0); (1, 2); (3, 5)] in
  let st := SegState (take 2 tokens) (Some 0) None [] [] in
  let st' := SegState [] None None [(u "갔음", take 3 tokens)] [(0, 3)] in
  _token_positions sentence tokens = Ok positions
  ∧ seg_iter sentence tokens positions 2 st = Ok (3, st')
  ∧ ∃ p start boundary buffer tracked_end,
      positions !! 2 = Some p
      ∧ absorb tokens positions (S (length tokens)) (2 + 1)
          (buffer_tokens st ++ [ending])
          (if decide (p.1 < p.2) then Some p.2 else end_pos st)
        = Ok (3, buffer, tracked_end)
      ∧ spans st' = spans st ++ [(start, boundary)]
      ∧ (3 < length tokens →
         ∃ next, positions !! 3 = Some next
           ∧ boundary = match tracked_end with
                        | None => next.1
                        | Some e => if decide (e ≤ next.1) then next.1 else e
                        end)
      ∧ (length tokens ≤ 3 → boundary = length sentence).
Proof.
  intros sentence ending tokens positions st st'.
  assert (H : seg_iter sentence tokens positions 2 st = Ok (3, st'))
    by reflexivity.
  split; [reflexivity|]. split; [exact H|].
  apply (split_boundary_spec sentence tokens positions 2 st 3 st' ending H).
  - reflexivity.
  - cbn. lia.
  - reflexivity.
Defined.

(** C4, as the claim states it, fails: when the next unabsorbed token was
    located before the tracked end (by the retry search), the segment ends
    at the tracked end, not at the start of that token. *)
Lemma split_boundary_not_next_start :
  let sentence := u "ab" in
  let ending := pylist [str "b"; str "EF"; num 31 32; num 0 1] in
  let tokens := [ending; pylist [str "a"; str "NNG"; num 31 32; num 0 1]] in
  let positions := [(1, 2); (0, 1)] in
  let st' := SegState [] None None [(u "b", [ending])] [(1, 2)] in
  _token_positions sentence tokens = Ok positions
  ∧ seg_iter sentence tokens positions 0 seg_init = Ok (1, st')
  ∧ 1 < length tokens
  ∧ spans st' = spans seg_init ++ [(1, 2)]
  ∧ positions !! 1 = Some (0, 1)
  ∧ (1, 2).2 ≠ (0, 1).1.
Proof. intros. split_and!; try reflexivity; cbn; lia. Qed.

(* ===================================================================== *)
(** * Sentence segmenter: coverage *)
(* ===================================================================== *)

(** ** Refining changes neither surfaces nor positions *)

Lemma refine_tokens_same_shape {St} tokens sentence
    (callback : option (@callback_t St)) s refined s' :
  _refine_tokens tokens sentence callback s = Ok (refined, s') →
  Forall2 same_shape tokens refined.
Proof.
  intros [Hlen H]%refine_from_lookup.
  apply Forall2_same_length_lookup_2; [done|].
  intros i t t' Ht Ht'. apply H in Ht as (t'' & s1 & s2 & Hr & Ht'').
  rewrite Nat.add_0_l in Hr. rewrite Ht' in Ht''. injection Ht'' as <-.
  apply refine_token_shape in Hr
    as [->|(Hlen3 & morph & new_tag & prob & oov & Hm & ->)]; [done|].
  split.
  - unfold surface. destruct (fields t); [done|]. cbn in Hm. by injection Hm as ->.
  - cbn. lia.
Qed.

Lemma positions_from_same_shape sentence tokens tokens' cursor :
  Forall2 same_shape tokens tokens' →
  positions_from sentence tokens cursor
  = positions_from sentence tokens' cursor.
Proof.
  intros H. revert cursor.
  induction H as [|t t' tokens tokens' [Hs _] _ IH]; intros cursor; [done|].
  cbn [positions_from]. rewrite Hs. cbn zeta.
  destruct (negb (truthy (surface t'))); [by rewrite IH|].
  destruct (surface t') as [m| |]; [|done..].
  destruct (find sentence m cursor); [by rewrite IH|].
  destruct (find sentence m 0); by rewrite IH.
Qed.

Lemma forward_located_same_shape sentence tokens tokens' cursor :
  Forall2 same_shape tokens tokens' →
  forward_located sentence tokens cursor
  = forward_located sentence tokens' cursor.
Proof.
  intros H. revert cursor.
  induction H as [|t t' tokens tokens' [Hs _] _ IH]; intros cursor; [done|].
  cbn [forward_located]. rewrite Hs.
  destruct (surface t') as [[|c m]| |]; try apply IH.
  destruct (find sentence (c :: m) cursor); [apply IH|].
  destruct (find sentence (c :: m) 0); [done|apply IH].
Qed.

Lemma first_start_same_shape tokens tokens' positions :
  Forall2 same_shape tokens tokens' →
  first_start tokens positions = first_start tokens' positions.
Proof.
  intros H. revert positions.
  induction H as [|t t' tokens tokens' [_ Hw] _ IH]; intros [|p positions];
    try done.
  cbn [first_start]. destruct (decide (2 ≤ len t)), (decide (2 ≤ len t'));
    try done; tauto.
Qed.

(** ** Chained positions *)

Lemma chained_lookup bound cursor positions i p :
  chained bound cursor positions → positions !! i = Some p →
  cursor ≤ p.1 ∧ p.1 ≤ p.2 ∧ p.2 ≤ bound
  ∧ ∀ j q, i < j → positions !! j = Some q → p.2 ≤ q.1.
Proof.
  revert cursor i p.
  induction positions as [|p0 positions IH]; intros cursor i p Hch Hi; [done|].
  destruct Hch as (H1 & H2 & H3 & Hch). destruct i as [|i].
  - injection Hi as <-. split_and!; [done..|].
    intros [|j] q Hj Hq; [lia|].
    by destruct (IH _ _ _ Hch Hq) as (? & _).
  - destruct (IH _ _ _ Hch Hi) as (? & ? & ? & Hlater).
    split_and!; [lia | done | done |].
    intros [|j] q Hj Hq; [lia|]. apply (Hlater j); [lia|done].
Qed.

(** ** Tiled spans *)

Lemma tiled_snoc a spans b c :
  tiled a spans b → b ≤ c → tiled a (spans ++ [(b, c)]) c.
Proof.
  revert a. induction spans as [|sp spans IH]; intros a; cbn.
  - intros -> ?. done.
  - intros (? & ? & ?) ?. split_and!; [done..|]. by apply IH.
Qed.

Lemma tiled_le a spans b : tiled a spans b → a ≤ b.
Proof.
  revert a. induction spans as [|sp spans IH]; intros a; cbn.
  - intros ->. done.
  - intros (? & ? & ?%IH). lia.
Qed.

Lemma slice_app s a y b :
  a ≤ y → y ≤ b → y ≤ length s → slice s a y ++ slice s y b = slice s a b.
Proof.
  intros Hay Hyb Hy. unfold slice.
  assert (Heq : take b s = take y s ++ drop y (take b s)).
  { rewrite <- (take_drop y (take b s)) at 1.
    by rewrite take_take, Nat.min_l by lia. }
  symmetry. etrans; [apply (f_equal (drop a) Heq)|].
  rewrite drop_app_le; [done|]. rewrite length_take. lia.
Qed.

(** Tiled spans cut the text between their two ends into consecutive
    slices. *)
Lemma tiled_concat s a spans b :
  tiled a spans b → b ≤ length s →
  concat ((λ sp, slice s sp.1 sp.2) <$> spans) = slice s a b.
Proof.
  revert a. induction spans as [|sp spans IH]; intros a; cbn [tiled].
  - intros -> _. unfold slice. rewrite drop_ge; [done|].
    rewrite length_take. lia.
  - intros (<- & ? & Ht) Hb. rewrite fmap_cons. cbn [concat].
    rewrite (IH _ Ht Hb). apply tiled_le in Ht. apply slice_app; lia.
Qed.

(** ** Whitespace *)

Lemma remove_ws_app s1 s2 : remove_ws (s1 ++ s2) = remove_ws s1 ++ remove_ws s2.
Proof. apply List.filter_app. Qed.

Lemma remove_ws_lstrip s : remove_ws (lstrip s) = remove_ws s.
Proof.
  induction s as [|c s IH]; [done|]. cbn [lstrip].
  destruct (isspace c) eqn:Hc; [|done].
  rewrite IH. unfold remove_ws. cbn [List.filter]. by rewrite Hc.
Qed.

Lemma remove_ws_reverse s : remove_ws (reverse s) = reverse (remove_ws s).
Proof.
  induction s as [|c s IH]; [done|].
  rewrite reverse_cons, remove_ws_app, IH. unfold remove_ws at 2 3.
  cbn [List.filter].
  destruct (isspace c); cbn [negb]; [by rewrite app_nil_r | by rewrite reverse_cons].
Qed.

Lemma remove_ws_strip s : remove_ws (strip s) = remove_ws s.
Proof.
  unfold strip, rstrip.
  by rewrite remove_ws_reverse, remove_ws_lstrip, remove_ws_reverse,
    reverse_involutive, remove_ws_lstrip.
Qed.

(** Joining with one space adds whitespace only. *)
Lemma remove_ws_join parts :
  remove_ws (join (u " ") parts) = concat (remove_ws <$> parts).
Proof.
  induction parts as [|part [|part' parts] IH]; [done| |].
  - cbn. by rewrite app_nil_r.
  - change (join (u " ") (part :: part' :: parts))
      with (part ++ u " " ++ join (u " ") (part' :: parts)).
    rewrite !remove_ws_app, IH. by rewrite !fmap_cons.
Qed.

Lemma remove_ws_span_texts sentence spans :
  concat (remove_ws <$> (span_text sentence <$> spans))
  = remove_ws (concat ((λ sp, slice sentence sp.1 sp.2) <$> spans)).
Proof.
  induction spans as [|sp spans IH]; [done|].
  rewrite !fmap_cons. cbn [concat]. rewrite remove_ws_app, <- IH.
  unfold span_text at 1. by rewrite remove_ws_strip.
Qed.

(** ** The walk tiles the sentence *)

Section Coverage.
Variables (sentence : pystr) (tokens : list token)
  (positions : list (nat * nat)) (a : nat).
Hypothesis positions_chained : chained (length sentence) 0 positions.
Hypothesis first_start_a : first_start tokens positions = Some a.

Lemma covering_step idx st idx' st' :
  covering sentence tokens positions a idx st →
  idx < length tokens →
  seg_iter sentence tokens positions idx st = Ok (idx', st') →
  covering sentence tokens positions a idx' st'.
Proof using positions_chained first_start_a.
  intros HI Hidx Hi.
  apply seg_iter_Ok in Hi
    as (token & Hk & [(Hshort & -> & ->)|(Hwf & p & tag & Hp & Htag & Hi)]).
  { (* a malformed token is stepped over *)
    destruct HI as [(Hs & Hb & He & [[Hsp Hall]|(b & Ht & Hnext)])
                   |(b & Hs & Hb & Ht & Hbl & Hlater & Hend)].
    - left. split_and!; [done..|]. left. split; [done|].
      intros k t Hlt Hkt. destruct (decide (k = idx)) as [->|]; [congruence|].
      apply (Hall k); [lia|done].
    - destruct Hnext as [(t & q & Hkt & ? & _)|[? _]]; [|lia].
      rewrite Hk in Hkt. injection Hkt as <-. lia.
    - right. exists b. split_and!; [done..| |].
      + intros j q ?. apply Hlater. lia.
      + intros e He j q ?. apply (Hend e He). lia. }
  (* the token enters the buffer *)
  destruct (chained_lookup _ _ _ _ _ positions_chained Hp)
    as (_ & Hp12 & Hpb & Hpl).
  cbn zeta in Hi.
  set (start := match start_pos st with None => Some p.1 | Some s => Some s end)
    in Hi.
  set (end_ := if decide (p.1 < p.2) then Some p.2 else end_pos st) in Hi.
  assert (Hmid : ∃ b, start = Some b ∧ tiled a (spans st) b
                      ∧ b ≤ length sentence
                      ∧ (∀ j q, idx + 1 ≤ j → positions !! j = Some q → b ≤ q.1)
                      ∧ (∀ e, end_ = Some e →
                           ∀ j q, idx + 1 ≤ j → positions !! j = Some q →
                                  e ≤ q.1)).
  { destruct HI as [(Hs & Hb & He & Hsub)
                   |(b & Hs & Hb & Ht & Hbl & Hlater & Hend)].
    - exists p.1. subst start end_. rewrite Hs, He. split; [done|].
      assert (Hfresh : ∀ e, (if decide (p.1 < p.2) then Some p.2 else None)
                            = Some e →
                 ∀ j q, idx + 1 ≤ j → positions !! j = Some q → e ≤ q.1).
      { intros e He' j q Hj Hq. case_decide; [|done]. injection He' as <-.
        apply (Hpl j); [lia|done]. }
      assert (Hafter : ∀ j q, idx + 1 ≤ j → positions !! j = Some q
                              → p.1 ≤ q.1).
      { intros j q Hj Hq. pose proof (Hpl j q ltac:(lia) Hq). lia. }
      destruct Hsub as [[Hsp Hall]|(b & Ht & Hnext)].
      + rewrite Hsp. cbn [tiled].
        pose proof (first_start_lookup _ _ _ _ _ Hall Hk Hwf Hp) as Hf.
        rewrite first_start_a in Hf. injection Hf as ->.
        split_and!; [done | lia | done | done].
      + destruct Hnext as [(t & q & Hkt & _ & Hq & <- & ?)|[? _]]; [|lia].
        rewrite Hp in Hq. injection Hq as <-.
        split_and!; [done | lia | done | done].
    - exists b. subst start end_. rewrite Hs. split_and!; [done..| |].
      + intros j q ?. apply Hlater. lia.
      + intros e He j q Hj Hq. case_decide.
        * injection He as <-. apply (Hpl j); [lia|done].
        * apply (Hend e He j); [lia|done]. }
  destruct Hmid as (b & Hstart & Ht & Hbl & Hlater & Hend).
  destruct Hi as [(_ & -> & ->)
                 |(_ & buffer' & end' & split_end & Ha & Hb & Hf)].
  { right. exists b. cbn.
    split_and!; [done | by intros [_ ?]%app_eq_nil | done..]. }
  (* a split: absorb, choose the boundary, flush *)
  apply (absorb_inv _ _
           (λ la buf e,
              buf ≠ []
              ∧ idx + 1 ≤ la
              ∧ ∀ x, e = Some x →
                  ∀ j q, la ≤ j → positions !! j = Some q → x ≤ q.1))
    in Ha as ((Hbuf & Hla & Hend') & _ & Hnext & Hmax).
  2: { split_and!; [by intros [_ ?]%app_eq_nil | lia | done]. }
  2: { intros la buf e t (? & ? & He) _ _. split_and!; [done | lia |].
       intros x Hx j q ?. apply (He x Hx). lia. }
  2: { intros la buf e t q (? & ? & He) _ _ Hq.
       split_and!; [by intros [_ ?]%app_eq_nil | lia |].
       intros x Hx j r Hj Hr. case_decide.
       - injection Hx as <-.
         destruct (chained_lookup _ _ _ _ _ positions_chained Hq)
           as (_ & _ & _ & Hql). apply (Hql j); [lia|done].
       - apply (He x Hx j); [lia|done]. }
  apply flush_buffer_Ok in Hf
    as [[_ [?|Hnone]]|(start' & buffer & Hs' & _ & -> & _)];
    [done | cbn in Hnone; congruence |].
  cbn in Hs'. rewrite Hstart in Hs'. injection Hs' as <-.
  left. cbn. split_and!; [done..|]. right.
  unfold split_boundary in Hb.
  destruct (decide (idx' < length tokens)) as [Hlt|Hge].
  - inv_bind_as Hb next Hn. apply getindex_Ok in Hn.
    destruct (Hnext Hlt) as (t & Hkt & Hwt).
    destruct (chained_lookup _ _ _ _ _ positions_chained Hn)
      as (_ & ? & ? & _).
    assert (split_end = Some next.1) as ->.
    { destruct end' as [e|]; [|by injection Hb as <-].
      rewrite decide_True in Hb by (by apply (Hend' e eq_refl idx')).
      by injection Hb as <-. }
    exists next.1. split.
    + apply tiled_snoc; [done|]. by apply (Hlater idx').
    + left. exists t, next. split_and!; [done..|lia].
  - injection Hb as <-. exists (length sentence). split.
    + by apply tiled_snoc.
    + right. split; [lia|done].
Qed.

(** At the end of the walk the spans tile the sentence from the first
    token of 2 fields to its last character. *)
Lemma seg_loop_tiled st st' :
  seg_loop sentence tokens positions (S (length tokens)) 0 seg_init = Ok st →
  flush_buffer sentence (Some (length sentence)) st = Ok st' →
  tiled a (spans st') (length sentence).
Proof using positions_chained first_start_a.
  intros Hloop Hflush.
  apply (seg_loop_inv _ _ _ (covering sentence tokens positions a))
    in Hloop as (idx & Hidx & HI).
  - destruct HI as [(Hs & Hb & He & [[Hsp Hall]|(b & Ht & Hnext)])
                   |(b & Hs & Hb & Ht & Hbl & _)].
    + exfalso. clear -first_start_a Hall Hidx.
      assert (Hall' : ∀ k t, tokens !! k = Some t → len t < 2).
      { intros k t Hk. apply (Hall k); [|done].
        apply lookup_lt_Some in Hk. lia. }
      clear Hall Hidx. revert positions first_start_a.
      induction tokens as [|t0 l IH]; intros [|p0 ps]; try done.
      cbn [first_start]. pose proof (Hall' 0 t0 eq_refl).
      rewrite decide_False by lia. apply IH.
      intros k t Hk. by apply (Hall' (S k)).
    + apply flush_buffer_Ok in Hflush
        as [[-> _]|(? & ? & ? & ? & _)]; [|congruence].
      destruct Hnext as [(t & p & Hk & _)|[_ ->]]; [|done].
      apply lookup_lt_Some in Hk. lia.
    + apply flush_buffer_Ok in Hflush
        as [[_ [?|?]]|(start' & buffer & Hs' & _ & -> & _)];
        [done | congruence |].
      rewrite Hs in Hs'. injection Hs' as <-. cbn. by apply tiled_snoc.
  - left. split_and!; [done..|]. left. split; [done|]. intros k t ?. lia.
  - intros idx st0 idx' st0' HI Hidx Hi. by eapply covering_step.
Qed.

End Coverage.

(** The text of each segment is the trimmed slice of its span. *)
Lemma seg_walk_texts sentence tokens st :
  seg_walk sentence tokens = Ok st →
  (segments st).*1 = span_text sentence <$> spans st.
Proof.
  unfold seg_walk. intros H.
  inv_bind H. rename a into positions. inv_bind H. rename a into st1.
  apply (seg_loop_inv _ _ _
           (λ _ st, (segments st).*1 = span_text sentence <$> spans st))
    in Ha0 as (_ & _ & Hsegs); [|done|].
  - apply flush_buffer_Ok in H
      as [[-> _]|(start & buffer & _ & _ & -> & _)]; [done|].
    cbn. by rewrite !fmap_app, Hsegs.
  - clear. intros idx st idx' st' HI _ Hi.
    apply seg_iter_Ok in Hi
      as (token & _ & [(_ & _ & ->)|(_ & p & tag & _ & _ & Hi)]); [done|].
    cbn zeta in Hi.
    destruct Hi as [(_ & _ & ->)|(_ & buffer' & end' & split_end & _ & _ & Hf)];
      [done|].
    apply flush_buffer_Ok in Hf
      as [[-> _]|(start & buffer & _ & _ & -> & _)]; [done|].
    cbn. by rewrite !fmap_app, HI.
Qed.

Lemma first_start_nonempty tokens positions a :
  first_start tokens positions = Some a → Exists (λ t, 2 ≤ len t) tokens.
Proof.
  revert positions. induction tokens as [|t tokens IH]; intros [|p positions];
    try done.
  cbn [first_start]. case_decide; [by left|]. intros ?%IH. by right.
Qed.

(** C1, as the code has it. Take a non-empty sentence and a token list
    that holds a token with 2 fields or more, on which the call returns.
    If every token is located at or after the search cursor (none by the
    retry search from the start of the sentence) and only whitespace
    precedes the start of the first token with 2 fields, then the segment
    texts joined by single spaces are the sentence up to whitespace (they
    agree once all whitespace is removed); equivalently, the segments are
    the trimmed texts of spans that tile the sentence from that start to its
    end, each span beginning where the one before ends. *)
Theorem segments_cover {St} (sentence : pystr) (tokens : list token)
    (callback : option (@callback_t St)) (s : St) (segs : list segment)
    (s' : St) (positions : list (nat * nat)) (a : nat) :
  sentence ≠ [] →
  segment_sentence_by_endings sentence tokens callback s = Ok (segs, s') →
  _token_positions sentence tokens = Ok positions →
  forward_located sentence tokens 0 = true →
  first_start tokens positions = Some a →
  remove_ws (take a sentence) = [] →
  remove_ws (join (u " ") segs.*1) = remove_ws sentence
  ∧ ∃ spans, tiled a spans (length sentence)
             ∧ segs.*1 = span_text sentence <$> spans.
Proof.
  intros Hs H Hpos Hfw Hfirst Hlead.
  assert (Ht : tokens ≠ []) by (by intros ->).
  apply segment_sentence_by_endings_Ok in H as (refined & st & Hr & Hw & ->);
    [|done..].
  apply refine_tokens_same_shape in Hr.
  unfold _token_positions in Hpos.
  rewrite (positions_from_same_shape _ _ _ _ Hr) in Hpos.
  rewrite (forward_located_same_shape _ _ _ _ Hr) in Hfw.
  rewrite (first_start_same_shape _ _ _ Hr) in Hfirst.
  pose proof (positions_from_chained _ _ _ _ Hpos Hfw ltac:(lia)) as Hch.
  pose proof (seg_walk_texts _ _ _ Hw) as Htexts.
  unfold seg_walk, _token_positions in Hw. rewrite Hpos in Hw. simpl_bind.
  cbn in Hw. inv_bind_as Hw st1 Hloop.
  pose proof (seg_loop_tiled _ _ _ _ Hch Hfirst _ _ Hloop Hw) as Htiled.
  split; [|by exists (spans st)].
  rewrite Htexts, remove_ws_join, remove_ws_span_texts.
  rewrite (tiled_concat _ _ _ _ Htiled) by done.
  unfold slice. rewrite firstn_all.
  rewrite <- (take_drop a sentence) at 2. by rewrite remove_ws_app, Hlead.
Qed.

Lemma segments_cover_witness :
  let sentence := u "밥 먹었음? 갔다" in
  let tokens := [pylist [str "밥"; str "NNG"; num 31 32; num 0 1];
                 pylist [str "먹"; str "VV"; num 31 32; num 0 1];
                 pylist [str "었"; str "EP"; num 31 32; num 0 1];
                 pylist [str "음"; str "ETN"; num 5 8; num 0 1];
                 pylist [str "?"; str "SF"; num 1 1; num 0 1];
                 pylist [str "가"; str "VV"; num 31 32; num 0 1];
                 pylist [str "았"; str "EP"; num 31 32; num 0 1];
                 pylist [str "다"; str "EF"; num 31 32; num 0 1]] in
  let positions :=
    [(0, 1); (2, 3); (3, 4); (4, 5); (5, 6); (6, 6); (6, 6); (8, 9)] in
  ∃ segs,
    @segment_sentence_by_endings unit sentence tokens None () = Ok (segs, ())
    ∧ segs.*1 = [u "밥 먹었음?"; u "갔다"]
    ∧ remove_ws (join (u " ") segs.*1) = remove_ws sentence
    ∧ ∃ spans, tiled 0 spans (length sentence)
               ∧ segs.*1 = span_text sentence <$> spans.
Proof.
  intros sentence tokens positions.
  destruct (@segment_sentence_by_endings unit sentence tokens None ())
    as [[segs []]|e] eqn:H; [|by vm_compute in H].
  exists segs. split; [done|]. split.
  - vm_compute in H. by injection H as <-.
  - apply (segments_cover sentence tokens None () segs () positions 0).
    + discriminate.
    + exact H.
    + reflexivity.
    + reflexivity.
    + reflexivity.
    + reflexivity.
Defined.

(** C1, as the claim states it, fails, whichever way whitespace is
    normalized. A token found by the retry search before the cursor makes
    two segments overlap (the text of the first is repeated in the second);
    a first token that starts after the beginning of the sentence leaves
    the characters before it out of every segment. *)
Lemma segments_do_not_cover :
  let sentence := u "ab" in
  let tok m tag := pylist [str m; str tag; num 31 32; num 0 1] in
  (@segment_sentence_by_endings unit sentence [tok "b" "EF"; tok "a" "NNG"]
     None ()
   = Ok ([(u "b", [tok "b" "EF"]); (u "ab", [tok "a" "NNG"])], ())
   ∧ remove_ws (join (u " ") [u "b"; u "ab"]) ≠ remove_ws sentence
   ∧ collapse_ws (join (u " ") [u "b"; u "ab"]) ≠ collapse_ws sentence)
  ∧ (@segment_sentence_by_endings unit sentence [tok "b" "NNG"] None ()
     = Ok ([(u "b", [tok "b" "NNG"])], ())
     ∧ remove_ws (join (u " ") [u "b"]) ≠ remove_ws sentence
     ∧ collapse_ws (join (u " ") [u "b"]) ≠ collapse_ws sentence).
Proof. intros sentence tok. by split_and!. Qed.

(** Only the removal of all whitespace can be meant: a split between two
    tokens that touch puts a space where the sentence has none. *)
Lemma segments_insert_space :
  let sentence := u "간다나" in
  let tok m tag := pylist [str m; str tag; num 31 32; num 0 1] in
  let tokens := [tok "간다" "EF"; tok "나" "NP"] in
  @segment_sentence_by_endings unit sentence tokens None ()
  = Ok ([(u "간다", [tok "간다" "EF"]); (u "나", [tok "나" "NP"])], ())
  ∧ forward_located sentence tokens 0 = true
  ∧ collapse_ws (join (u " ") [u "간다"; u "나"]) ≠ collapse_ws sentence
  ∧ remove_ws (join (u " ") [u "간다"; u "나"]) = remove_ws sentence.
Proof. intros sentence tok tokens. by split_and!. Qed.

(* ===================================================================== *)
(** * Sentence segmenter: tokens of the tagger never raise *)
(* ===================================================================== *)

Lemma bind_returns {A B} (f : A → result B) (r : result A) :
  (∃ a, r = Ok a) → (∀ a, r = Ok a → ∃ b, f a = Ok b) →
  ∃ b, r ≫= f = Ok b.
Proof. intros [a ->] Hf. by apply Hf. Qed.

Lemma tagged_tag t :
  tagged t → 2 ≤ len t ∧ ∃ tag, getitem t 1 = Ok (PStr tag).
Proof.
  intros (_ & m & tag & rest & Hf & _). unfold len, getitem. rewrite Hf.
  split; [cbn; lia | by exists tag].
Qed.

Section Tagged.
Variables (sentence : pystr) (tokens : list token).
Hypothesis tokens_tagged : Forall tagged tokens.

Lemma is_last_meaningful_returns following :
  Forall tagged following → ∃ b, is_last_meaningful following = Ok b.
Proof.
  induction 1 as [|t following [_ [tag Ht]]%tagged_tag _ IH]; [by eexists|].
  cbn [is_last_meaningful]. rewrite Ht. simpl_bind. cbn [py_startswith].
  simpl_bind. destruct (startswith tag (u "S")); [done | by eexists].
Qed.

Lemma auto_rules_returns i m tag q :
  ∃ new_tag, auto_rules tokens i (PStr m) (PStr tag) (PNum q)
             = Ok (PStr new_tag).
Proof using tokens_tagged.
  unfold auto_rules.
  assert (∃ t1, rule_etn tokens i (PStr m) (PStr tag) (PStr tag)
                = Ok (PStr t1)) as [t1 ->].
  { unfold rule_etn. destruct (_ && _); [|by eexists].
    case_decide as Hlt; [|by eexists].
    apply lookup_lt_is_Some in Hlt as [t Ht].
    rewrite (proj2 (getindex_Ok _ _ _) Ht). simpl_bind.
    eapply Forall_lookup_1 in Ht as [? [tag' Htag]]%tagged_tag; [|done].
    rewrite decide_True, Htag by done. simpl_bind. cbn [py_startswith].
    simpl_bind. destruct (startswith tag' (u "J")); by eexists. }
  simpl_bind.
  assert (∃ t2, rule_ec tokens i (PStr tag) (PStr t1) = Ok (PStr t2))
    as [t2 ->].
  { unfold rule_ec. destruct (eq_str (PStr tag) (u "EC")); [|by eexists].
    destruct (is_last_meaningful_returns (drop (i + 1) tokens)) as [b ->];
      [by apply Forall_drop|].
    simpl_bind. destruct b; by eexists. }
  simpl_bind. unfold rule_neologism. destruct (_ || _); [|by eexists].
  cbn [py_le]. simpl_bind. destruct (bool_decide _); by eexists.
Qed.

Lemma refine_token_returns {St} i t (s : St) :
  tagged t →
  ∃ t', refine_token tokens (Some sentence) None i t s = Ok (t', s)
        ∧ tagged t'.
Proof using tokens_tagged.
  intros Ht. unfold refine_token. case_decide as Hlen; [|by exists t].
  destruct Ht as (Hk & m & tag & rest & Hf & Hrest).
  unfold len in Hlen. rewrite Hf in Hlen.
  destruct rest as [|prob rest]; [cbn in Hlen; lia|]. destruct Hrest as [q ->].
  rewrite (proj2 (getitem_Ok t 0 (PStr m))) by (by rewrite Hf).
  rewrite (proj2 (getitem_Ok t 1 (PStr tag))) by (by rewrite Hf).
  rewrite (proj2 (getitem_Ok t 2 (PNum q))) by (by rewrite Hf).
  destruct (if decide (4 ≤ len t) then getitem t 3 else Ok (PNum 0%Qc))
    as [oov|] eqn:Hoov.
  2: { case_decide as H4; [|done]. unfold getitem in Hoov.
       unfold len in H4. apply lookup_lt_is_Some in H4 as [v Hv].
       by rewrite Hv in Hoov. }
  destruct (auto_rules_returns i m tag q) as [new_tag Hauto].
  unfold mbind, M_bind, lift. rewrite Hauto.
  cbn. destruct (decide (PStr new_tag ≠ PStr tag)).
  - eexists. split; [done|]. split; [done|].
    eexists _, _, _. split; [done|]. by eexists.
  - exists t. split; [done|]. split; [done|].
    eexists _, _, _. split; [done|]. by eexists.
Qed.

Lemma refine_from_returns {St} i todo (s : St) :
  Forall tagged todo →
  ∃ refined, refine_from tokens (Some sentence) None i todo s
             = Ok (refined, s)
             ∧ Forall tagged refined.
Proof using tokens_tagged.
  intros H. revert i. induction H as [|t todo Ht _ IH]; intros i.
  - by exists [].
  - destruct (refine_token_returns i t s Ht) as (t' & Hr & Ht').
    destruct (IH (i + 1)) as (refined & Hrs & Hrefined).
    exists (t' :: refined). split; [|by constructor].
    cbn [refine_from]. unfold mbind, M_bind. by rewrite Hr, Hrs.
Qed.

End Tagged.

Lemma positions_from_returns sentence tokens cursor :
  Forall tagged tokens →
  ∃ positions, positions_from sentence tokens cursor = Ok positions
               ∧ length positions = length tokens.
Proof.
  intros H. revert cursor.
  induction H as [|t tokens (_ & m & tag & rest & Hf & _) _ IH]; intros cursor;
    [by exists []|].
  cbn [positions_from]. unfold surface. rewrite Hf. cbn zeta.
  destruct (negb (truthy (PStr m))).
  { destruct (IH cursor) as (ps & -> & Hlen). eexists. split; [done|].
    cbn. lia. }
  destruct (find sentence m cursor) as [idx|].
  { destruct (IH (idx + length m)) as (ps & -> & Hlen). eexists.
    split; [done|]. cbn. lia. }
  destruct (find sentence m 0) as [idx|].
  - destruct (IH (idx + length m)) as (ps & -> & Hlen). eexists.
    split; [done|]. cbn. lia.
  - destruct (IH cursor) as (ps & -> & Hlen). eexists. split; [done|].
    cbn. lia.
Qed.

Lemma flush_buffer_returns sentence explicit_end_pos st :
  Forall tagged (buffer_tokens st) →
  ∃ st', flush_buffer sentence explicit_end_pos st = Ok st'.
Proof.
  intros Hbuf. unfold flush_buffer.
  destruct (buffer_tokens st) as [|t0 buf] eqn:Hb; [by eexists|].
  destruct (start_pos st); [|by eexists].
  destruct (lookup_lt_is_Some_2 (t0 :: buf) (length (t0 :: buf) - 1)
              ltac:(cbn; lia)) as [t Ht].
  rewrite (proj2 (getindex_Ok _ _ _) Ht). simpl_bind.
  eapply Forall_lookup_1 in Ht as Htagged; [|done].
  destruct (tagged_tag _ Htagged) as [_ [tag ->]]. simpl_bind.
  destruct (eq_str (PStr tag) (u "EC")); [|by eexists].
  destruct Htagged as (Hk & m & tag' & rest & Hf & _).
  unfold retag_ecf, getitem. rewrite Hf, Hk. by eexists.
Qed.

Section TaggedWalk.
Variables (sentence : pystr) (tokens : list token)
  (positions : list (nat * nat)).
Hypothesis tokens_tagged : Forall tagged tokens.
Hypothesis positions_length : length positions = length tokens.

Lemma absorb_returns fuel lookahead buffer end_ :
  length tokens - lookahead < fuel →
  ∃ r, absorb tokens positions fuel lookahead buffer end_ = Ok r.
Proof using tokens_tagged positions_length.
  revert lookahead buffer end_.
  induction fuel as [|fuel IH]; intros lookahead buffer end_ Hf; [lia|].
  cbn [absorb]. case_decide as Hlt; [|by eexists].
  destruct (lookup_lt_is_Some_2 tokens lookahead Hlt) as [t Ht].
  destruct (lookup_lt_is_Some_2 positions lookahead ltac:(lia)) as [p Hp].
  rewrite (proj2 (getindex_Ok _ _ _) Ht). simpl_bind.
  eapply Forall_lookup_1 in Ht as [? [tag Htag]]%tagged_tag; [|done].
  rewrite decide_False, Htag by lia. simpl_bind. cbn [py_startswith].
  simpl_bind.
  destruct (_ || _); simpl_bind;
    [|destruct (startswith tag (u "S")); [|by eexists]];
    rewrite (proj2 (getindex_Ok _ _ _) Hp); simpl_bind; apply IH; lia.
Qed.

Lemma seg_iter_returns idx st :
  idx < length tokens → Forall tagged (buffer_tokens st) →
  ∃ idx' st', seg_iter sentence tokens positions idx st = Ok (idx', st')
              ∧ Forall tagged (buffer_tokens st').
Proof using tokens_tagged positions_length.
  intros Hlt Hbuf. unfold seg_iter.
  destruct (lookup_lt_is_Some_2 tokens idx Hlt) as [t Ht].
  destruct (lookup_lt_is_Some_2 positions idx ltac:(lia)) as [p Hp].
  rewrite (proj2 (getindex_Ok _ _ _) Ht). simpl_bind.
  eapply Forall_lookup_1 in Ht as Htagged; [|done].
  destruct (tagged_tag _ Htagged) as [? [tag Htag]].
  rewrite decide_False by lia.
  rewrite (proj2 (getindex_Ok _ _ _) Hp), Htag. simpl_bind.
  assert (Hbuf' : Forall tagged (buffer_tokens st ++ [t])).
  { apply Forall_app. split; [done|]. by apply Forall_singleton. }
  destruct (tag_in (PStr tag) SPLIT_ENDING_TAGS); [|by eexists _, _].
  edestruct (absorb_returns (S (length tokens)) (idx + 1))
    as [[[lookahead buffer] end'] Ha]; [lia|]. rewrite Ha. simpl_bind.
  apply (absorb_inv _ _ (λ _ buf _, Forall tagged buf)) in Ha as (Hb & _);
    [|done|done|].
  2: { intros la buf e t' q Hb' Ht' _ _. apply Forall_app. split; [done|].
       apply Forall_singleton. by eapply Forall_lookup_1 in Ht'. }
  assert (∃ split_end, split_boundary sentence tokens positions lookahead end'
                       = Ok split_end) as [split_end ->].
  { unfold split_boundary. case_decide as Hla; [|by eexists].
    destruct (lookup_lt_is_Some_2 positions lookahead ltac:(lia)) as [q Hq].
    rewrite (proj2 (getindex_Ok _ _ _) Hq). simpl_bind.
    destruct end'; [case_decide|]; by eexists. }
  simpl_bind.
  destruct (flush_buffer_returns sentence split_end
              (SegState buffer
                 match start_pos st with
                 | None => Some p.1
                 | Some s => Some s
                 end end' (segments st) (spans st)) Hb) as [st' Hf].
  rewrite Hf. simpl_bind. exists lookahead, st'. split; [done|].
  apply flush_buffer_Ok in Hf as [[-> _]|(? & ? & _ & _ & -> & _)];
    [done | constructor].
Qed.

Lemma seg_loop_returns fuel idx st :
  length tokens - idx < fuel → Forall tagged (buffer_tokens st) →
  ∃ st', seg_loop sentence tokens positions fuel idx st = Ok st'
         ∧ Forall tagged (buffer_tokens st').
Proof using tokens_tagged positions_length.
  revert idx st. induction fuel as [|fuel IH]; intros idx st Hf Hbuf; [lia|].
  cbn [seg_loop]. case_decide as Hlt; [|by exists st].
  destruct (seg_iter_returns idx st Hlt Hbuf) as (idx' & st1 & Hi & Hbuf1).
  rewrite Hi. simpl_bind. apply seg_iter_idx in Hi. apply IH; [lia|done].
Qed.

End TaggedWalk.

(** On tokens as the tagger returns them, and without a decision source,
    the segmenter returns: none of the type or index errors of the
    embedding can occur. *)
Lemma segment_sentence_by_endings_returns {St} sentence tokens (s : St) :
  Forall tagged tokens →
  ∃ segs, segment_sentence_by_endings sentence tokens None s = Ok (segs, s).
Proof.
  intros Htagged. unfold segment_sentence_by_endings.
  case_decide; [by eexists|].
  destruct (refine_from_returns sentence tokens Htagged 0 tokens s Htagged)
    as (refined & Hr & Hrefined).
  unfold _refine_tokens, mbind, M_bind. rewrite Hr.
  destruct (positions_from_returns sentence refined 0 Hrefined)
    as (positions & Hp & Hlen).
  destruct (seg_loop_returns sentence refined positions Hrefined Hlen
              (S (length refined)) 0 seg_init) as (st & Hloop & Hbuf);
    [lia | constructor |].
  destruct (flush_buffer_returns sentence (Some (length sentence)) st Hbuf)
    as [st' Hf].
  unfold lift, seg_walk, _token_positions. rewrite Hp. simpl_bind.
  rewrite Hloop. simpl_bind. rewrite Hf. by eexists.
Qed.

(* ===================================================================== *)
(** * Symbol extractor *)
(* ===================================================================== *)

Section Symbols.
Variable cls : char_class.

(** Each match is a non-empty run of characters of the class, found as it
    is in the text. *)
Lemma finditer_match text run g :
  Forall (λ c, in_class cls c = true) run →
  g ∈ finditer cls text run →
  g ≠ [] ∧ Forall (λ c, in_class cls c = true) g
  ∧ ∃ before after, run ++ text = before ++ g ++ after.
Proof.
  revert run. induction text as [|c text IH]; intros run Hrun Hg.
  - cbn in Hg. case_decide; [by apply elem_of_nil in Hg|].
    apply list_elem_of_singleton in Hg as ->. split_and!; [done..|].
    exists [], []. by rewrite app_nil_r.
  - cbn [finditer] in Hg. destruct (in_class cls c) eqn:Hc.
    + apply IH in Hg as (? & ? & before & after & Heq).
      * split_and!; [done..|]. exists before, after.
        by rewrite <- Heq, <- app_assoc.
      * apply Forall_app. split; [done|]. by apply Forall_singleton.
    + case_decide as Hr.
      * subst run. apply IH in Hg as (? & ? & before & after & Heq); [|done].
        split_and!; [done..|]. exists (c :: before), after.
        cbn in *. by rewrite Heq.
      * apply elem_of_cons in Hg as [->|Hg].
        -- split_and!; [done..|]. by exists [], (c :: text).
        -- apply IH in Hg as (? & ? & before & after & Heq); [|done].
           split_and!; [done..|]. exists (run ++ c :: before), after.
           cbn in Heq. rewrite Heq. by rewrite <- app_assoc.
Qed.

(** There is a match as soon as the text holds a character of the class. *)
Lemma finditer_nil text run :
  finditer cls text run = []
  ↔ run = [] ∧ Forall (λ c, in_class cls c = false) text.
Proof.
  revert run. induction text as [|c text IH]; intros run.
  - cbn. case_decide; split; try done; intros [? _]; done.
  - cbn [finditer]. destruct (in_class cls c) eqn:Hc.
    + rewrite IH. split.
      * by intros [[_ ?]%app_eq_nil _].
      * intros [_ H]. apply Forall_cons_1 in H as [? _]. congruence.
    + case_decide as Hr.
      * rewrite IH. split; intros [? ?]; (split; [done|]).
        -- by constructor.
        -- by apply Forall_cons_1 in H0 as [_ ?].
      * split; [done|]. by intros [? _].
Qed.

(** The loop keeps what was found, adds no sequence twice, and adds only
    non-empty matches cut to 3 characters, each of them. *)
Lemma collect_sequences_spec matches found :
  NoDup found →
  NoDup (collect_sequences matches found)
  ∧ (∀ e, e ∈ collect_sequences matches found ↔
          e ∈ found ∨ (e ≠ [] ∧ ∃ g, g ∈ matches ∧ e = take 3 g)).
Proof.
  revert found. induction matches as [|g matches IH]; intros found Hnd.
  - cbn. split; [done|]. intros e. split; [by left|].
    intros [?|(_ & g & Hg & _)]; [done|]. by apply elem_of_nil in Hg.
  - cbn [collect_sequences].
    destruct (bool_decide (take 3 g ≠ [])) eqn:Hne;
      [apply bool_decide_eq_true in Hne | apply bool_decide_eq_false in Hne].
    + destruct (bool_decide (take 3 g ∉ found)) eqn:Hin;
        [apply bool_decide_eq_true in Hin | apply bool_decide_eq_false in Hin];
        cbn [andb].
      * destruct (IH (found ++ [take 3 g])) as [Hnd' Hel].
        { apply NoDup_app. split_and!; [done| |apply NoDup_singleton].
          intros x Hx ->%list_elem_of_singleton. done. }
        split; [done|]. intros e. rewrite Hel, elem_of_app, list_elem_of_singleton.
        split.
        -- intros [[Hf| ->]|(? & g' & ? & ->)]; [by left | | ].
           ++ right. split; [done|]. exists g. split; [left|done].
           ++ right. split; [done|]. exists g'. split; [by right|done].
        -- intros [?|(? & g' & [->|?]%elem_of_cons & ->)].
           ++ by left; left.
           ++ by left; right.
           ++ right. split; [done|]. by exists g'.
      * destruct (IH found Hnd) as [Hnd' Hel]. split; [done|].
        intros e. rewrite Hel. split.
        -- intros [?|(? & g' & ? & ->)]; [by left|].
           right. split; [done|]. exists g'. split; [by right|done].
        -- intros [?|(? & g' & [->|?]%elem_of_cons & ->)]; [by left| |].
           ++ left. by apply dec_stable.
           ++ right. split; [done|]. by exists g'.
    + cbn [andb]. destruct (IH found Hnd) as [Hnd' Hel]. split; [done|].
      intros e. rewrite Hel. split.
      * intros [?|(? & g' & ? & ->)]; [by left|].
        right. split; [done|]. exists g'. split; [by right|done].
      * intros [?|(He & g' & [->|?]%elem_of_cons & ->)]; [by left| |].
        -- by apply dec_stable in Hne.
        -- right. split; [done|]. by exists g'.
Qed.

(** What one scan of [extract_symbols] returns. *)
Lemma scan_spec text :
  let found := collect_sequences (finditer cls text []) [] in
  NoDup found
  ∧ Forall (λ e, 1 ≤ length e ≤ 3
                 ∧ Forall (λ c, in_class cls c = true) e
                 ∧ ∃ g before after,
                     e = take 3 g ∧ text = before ++ g ++ after) found
  ∧ (found = [] ↔ Forall (λ c, in_class cls c = false) text).
Proof.
  intros found.
  destruct (collect_sequences_spec (finditer cls text []) [] (NoDup_nil_2))
    as [Hnd Hel].
  split; [done|]. split.
  - apply Forall_forall. intros e [Hin|(Hne & g & Hg & ->)]%Hel;
      [by apply elem_of_nil in Hin|].
    apply finditer_match in Hg as (? & Hcls & before & after & Heq); [|done].
    split_and!.
    + destruct g; [done|]. cbn. lia.
    + rewrite length_take. lia.
    + by apply Forall_take.
    + by exists g, before, after.
  - split.
    + intros Hnil.
      destruct (finditer cls text []) as [|g matches] eqn:Hf;
        [by apply finditer_nil in Hf as [_ ?]|].
      exfalso. assert (Hg : g ∈ finditer cls text []) by (rewrite Hf; left).
      apply finditer_match in Hg as (Hne & _); [|done].
      assert (take 3 g ∈ found) as Hin.
      { apply Hel. right. split; [by destruct g|]. exists g.
        split; [left|done]. }
      subst found. rewrite Hnil in Hin. by apply elem_of_nil in Hin.
    + intros Hno. subst found.
      by rewrite (proj2 (finditer_nil text []) (conj eq_refl Hno)).
Qed.

End Symbols.

(** X1. Neither list returned by [extract_symbols] holds an entry twice,
    and every entry has between 1 and 3 characters. *)
Theorem extract_symbols_dedup (text : pyval) :
  NoDup (extract_symbols text).1 ∧ NoDup (extract_symbols text).2
  ∧ Forall (λ e, 1 ≤ length e ≤ 3)
      ((extract_symbols text).1 ++ (extract_symbols text).2).
Proof.
  destruct text as [s| |]; cbn [extract_symbols fst snd];
    [|by split_and!; constructor..].
  destruct (scan_spec PUNCTUATION_REGEX s) as (Hp & Hpf & _).
  destruct (scan_spec EMOTION_REGEX s) as (He & Hef & _).
  split_and!; [done..|]. apply Forall_app. split.
  - eapply Forall_impl; [exact Hpf|]. by intros e (? & _).
  - eapply Forall_impl; [exact Hef|]. by intros e (? & _).
Qed.

Lemma take_contiguous {A} (g before after : list A) n :
  contiguous (take n g) (before ++ g ++ after).
Proof.
  exists before, (drop n g ++ after).
  by rewrite (app_assoc (take n g)), take_drop.
Qed.

(** X2. Every entry of the punctuation list is made of characters of
    [?!~….] only, every entry of the other list of jamo only, and each
    entry stands in the text as it is returned. *)
Theorem extract_symbols_verbatim (text : pystr) :
  Forall (λ e, Forall (λ c, in_class PUNCTUATION_REGEX c = true) e
               ∧ contiguous e text) (extract_symbols (PStr text)).1
  ∧ Forall (λ e, Forall (λ c, in_class EMOTION_REGEX c = true) e
                 ∧ contiguous e text) (extract_symbols (PStr text)).2.
Proof.
  cbn [extract_symbols fst snd].
  destruct (scan_spec PUNCTUATION_REGEX text) as (_ & Hpf & _).
  destruct (scan_spec EMOTION_REGEX text) as (_ & Hef & _).
  split; (eapply Forall_impl; [eassumption|]);
    intros e (_ & ? & g & before & after & -> & ->);
    (split; [done | apply take_contiguous]).
Qed.

(** X3. A list is empty exactly when the text has no character of its
    class: punctuation and emotive runs are never missed. *)
Theorem extract_symbols_complete (text : pystr) :
  ((extract_symbols (PStr text)).1 = []
   ↔ Forall (λ c, in_class PUNCTUATION_REGEX c = false) text)
  ∧ ((extract_symbols (PStr text)).2 = []
     ↔ Forall (λ c, in_class EMOTION_REGEX c = false) text).
Proof.
  cbn [extract_symbols fst snd].
  destruct (scan_spec PUNCTUATION_REGEX text) as (_ & _ & Hp).
  destruct (scan_spec EMOTION_REGEX text) as (_ & _ & He). done.
Qed.

(* ===================================================================== *)
(** * Stripping *)
(* ===================================================================== *)

Lemma lstrip_spec s :
  ∃ ws, s = ws ++ lstrip s
        ∧ Forall (λ c, isspace c = true) ws
        ∧ ∀ c, head (lstrip s) = Some c → isspace c = false.
Proof.
  induction s as [|c s (ws & Heq & Hws & Hhd)].
  - exists []. by split_and!.
  - cbn [lstrip]. destruct (isspace c) eqn:Hc.
    + exists (c :: ws). split_and!; [by cbn; rewrite <- Heq | by constructor | done].
    + exists []. split_and!; [done | done |]. cbn. by intros ? [= <-].
Qed.

(** [strip] takes whitespace off both ends, and nothing but whitespace. *)
Lemma strip_spec s :
  ∃ l r, s = l ++ strip s ++ r
         ∧ Forall (λ c, isspace c = true) l
         ∧ Forall (λ c, isspace c = true) r
         ∧ trimmed (strip s).
Proof.
  destruct (lstrip_spec s) as (l & Hl & Hlws & Hhd).
  destruct (lstrip_spec (reverse (lstrip s))) as (r & Hr & Hrws & Hlast).
  unfold strip, rstrip. set (y := lstrip (reverse (lstrip s))) in *.
  assert (Hx : lstrip s = reverse y ++ reverse r).
  { by rewrite <- reverse_app, <- Hr, reverse_involutive. }
  exists l, (reverse r). split_and!.
  - by rewrite <- Hx.
  - done.
  - by apply Forall_reverse.
  - split.
    + intros c Hc. apply Hhd. rewrite Hx.
      destruct (reverse y); [done|]. done.
    + intros c Hc. apply Hlast. rewrite last_reverse in Hc. done.
Qed.

(* ===================================================================== *)
(** * Sentence splitter *)
(* ===================================================================== *)

(** Splitting loses whitespace only. *)
Lemma re_split_remove_ws text after_end in_separator piece :
  (in_separator = true → piece = []) →
  remove_ws (concat (re_split text after_end in_separator piece))
  = remove_ws piece ++ remove_ws text.
Proof.
  revert after_end in_separator piece.
  induction text as [|c text IH]; intros after_end in_separator piece Hsep.
  - cbn. by rewrite !app_nil_r.
  - cbn [re_split]. unfold remove_ws at 3. cbn [List.filter].
    fold (remove_ws text). destruct in_separator.
    + rewrite Hsep by done. destruct (isspace c) eqn:Hc; cbn [negb].
      * by rewrite IH.
      * rewrite IH by done. unfold remove_ws at 1. cbn [List.filter].
        by rewrite Hc.
    + destruct (after_end && isspace c) eqn:Hb.
      * apply andb_true_iff in Hb as [_ ->]. cbn [negb concat].
        by rewrite remove_ws_app, IH.
      * rewrite IH by done. rewrite remove_ws_app, <- app_assoc. f_equal.
        unfold remove_ws at 1. cbn [List.filter]. by destruct (isspace c).
Qed.

Lemma strip_nonblank_remove_ws sentences :
  remove_ws (concat (strip_nonblank sentences))
  = remove_ws (concat sentences).
Proof.
  induction sentences as [|s sentences IH]; [done|].
  cbn [strip_nonblank concat]. rewrite remove_ws_app, <- IH.
  destruct (decide (strip s = [])) as [Hs|Hs].
  - rewrite bool_decide_eq_false_2 by (by intros []).
    by rewrite <- (remove_ws_strip s), Hs.
  - rewrite bool_decide_eq_true_2 by done.
    cbn [concat]. by rewrite remove_ws_app, remove_ws_strip.
Qed.

Lemma strip_nonblank_elem sentences p :
  p ∈ strip_nonblank sentences ↔ p ≠ [] ∧ ∃ s, s ∈ sentences ∧ p = strip s.
Proof.
  induction sentences as [|s sentences IH].
  - cbn. split; [by intros ?%elem_of_nil|].
    by intros (_ & s & ?%elem_of_nil & _).
  - cbn [strip_nonblank]. destruct (decide (strip s = [])) as [Hs|Hs].
    + rewrite bool_decide_eq_false_2 by (by intros []).
      rewrite IH. split.
      * intros (? & s' & ? & ->). split; [done|]. exists s'.
        split; [by right|done].
      * intros (Hp & s' & [->|?]%elem_of_cons & ->); [done|].
        split; [done|]. by exists s'.
    + rewrite bool_decide_eq_true_2 by done.
      rewrite elem_of_cons, IH. split.
      * intros [->|(? & s' & ? & ->)]; (split; [done|]);
          [exists s; split; [left|done] | exists s'; split; [by right|done]].
      * intros (? & s' & [->|?]%elem_of_cons & ->); [by left|].
        right. split; [done|]. by exists s'.
Qed.

(** Without an end mark nothing is split. *)
Lemma re_split_no_mark text piece :
  Forall (λ c, in_class SENTENCE_END c = false) text →
  re_split text false false piece = [piece ++ text].
Proof.
  intros Hall. revert piece.
  induction Hall as [|c text Hc _ IH]; intros piece.
  - cbn. by rewrite app_nil_r.
  - cbn [re_split andb]. by rewrite Hc, IH, <- app_assoc.
Qed.

Lemma no_boundary_snoc piece c :
  no_boundary (piece ++ [c])
  = no_boundary piece
    && negb (from_option (in_class SENTENCE_END) false (last piece)
             && isspace c).
Proof.
  induction piece as [|a [|b piece] IH].
  - done.
  - cbn. by rewrite !andb_true_r.
  - change (no_boundary ((a :: b :: piece) ++ [c]))
      with (negb (in_class SENTENCE_END a && isspace b)
            && no_boundary ((b :: piece) ++ [c])).
    rewrite IH. change (no_boundary (a :: b :: piece))
      with (negb (in_class SENTENCE_END a && isspace b)
            && no_boundary (b :: piece)).
    by rewrite andb_assoc.
Qed.

Lemma no_boundary_app_r s1 s2 : no_boundary (s1 ++ s2) = true → no_boundary s2 = true.
Proof.
  induction s1 as [|c s1 IH]; [done|]. cbn [app no_boundary].
  intros [_ ?]%andb_true_iff. by apply IH.
Qed.

Lemma no_boundary_app_l s1 s2 : no_boundary (s1 ++ s2) = true → no_boundary s1 = true.
Proof.
  induction s1 as [|c s1 IH]; [done|]. cbn [app no_boundary].
  intros [H1 H2]%andb_true_iff. rewrite (IH H2), andb_true_r.
  destruct s1 as [|d s1]; [done|]. done.
Qed.

(** No piece of the split holds a boundary. *)
Lemma re_split_no_boundary text after_end in_separator piece :
  no_boundary piece = true →
  (in_separator = false →
   after_end = from_option (in_class SENTENCE_END) false (last piece)) →
  Forall (λ p, no_boundary p = true)
    (re_split text after_end in_separator piece).
Proof.
  revert after_end in_separator piece.
  induction text as [|c text IH]; intros after_end in_separator piece Hp Hae.
  - by apply Forall_singleton.
  - cbn [re_split]. destruct in_separator.
    + destruct (isspace c); apply IH; done.
    + specialize (Hae eq_refl). destruct (after_end && isspace c) eqn:Hb.
      * constructor; [done|]. by apply IH.
      * apply IH.
        -- by rewrite no_boundary_snoc, Hp, <- Hae, Hb.
        -- intros _. by rewrite last_snoc.
Qed.

(** A text without a boundary is one piece. *)
Lemma re_split_whole text piece :
  no_boundary (piece ++ text) = true →
  re_split text (from_option (in_class SENTENCE_END) false (last piece))
    false piece = [piece ++ text].
Proof.
  revert piece. induction text as [|c text IH]; intros piece Hnb.
  - cbn. by rewrite app_nil_r.
  - cbn [re_split]. rewrite (assoc_L _ piece [c] text : piece ++ c :: text = _) in Hnb |- *.
    pose proof (no_boundary_app_l _ _ Hnb) as Hc.
    rewrite no_boundary_snoc in Hc. apply andb_true_iff in Hc as [_ Hc].
    apply negb_true_iff in Hc. rewrite Hc.
    rewrite <- (IH _ Hnb). by rewrite last_snoc.
Qed.

(** What [split_sentences] returns, sentence by sentence. *)
Lemma split_sentences_pieces (text : pyval) :
  Forall (λ p, p ≠ [] ∧ trimmed p ∧ no_boundary p = true)
    (split_sentences text).
Proof.
  destruct text as [s| |]; cbn [split_sentences]; [|by constructor..].
  apply Forall_forall. intros p (Hp & q & Hq & ->)%strip_nonblank_elem.
  destruct (strip_spec q) as (l & r & Heq & _ & _ & Htrim).
  split_and!; [done..|].
  assert (Hnb : no_boundary q = true).
  { pose proof (re_split_no_boundary s false false [] eq_refl (λ _, eq_refl))
      as Hall.
    rewrite Forall_forall in Hall. by apply Hall. }
  rewrite Heq in Hnb.
  by apply no_boundary_app_r, no_boundary_app_l in Hnb.
Qed.

(** X4. Every sentence returned by [split_sentences] is non-empty, has no
    whitespace at either end and holds no boundary of its own: no
    [.], [!] or [?] followed by whitespace. *)
Theorem split_sentences_trimmed (text : pyval) :
  Forall (λ p, p ≠ [] ∧ trimmed p ∧ no_boundary p = true)
    (split_sentences text).
Proof. apply split_sentences_pieces. Qed.

(** X5. Splitting into sentences loses whitespace only: once whitespace
    is removed from both, the sentences put together and the text are the
    same string. *)
Theorem split_sentences_covers (text : pystr) :
  remove_ws (concat (split_sentences (PStr text))) = remove_ws text.
Proof.
  cbn [split_sentences].
  by rewrite strip_nonblank_remove_ws, re_split_remove_ws.
Qed.

Lemma split_sentences_no_boundary (text : pystr) :
  no_boundary text = true →
  split_sentences (PStr text)
  = if decide (strip text = []) then [] else [strip text].
Proof.
  intros Hnb. cbn [split_sentences].
  rewrite (re_split_whole text [] Hnb : re_split text false false [] = [text]).
  cbn [strip_nonblank].
  destruct (decide (strip text = [])) as [Hs|Hs].
  - by rewrite bool_decide_eq_false_2 by (by intros []).
  - by rewrite bool_decide_eq_true_2.
Qed.

(** X6. A text in which no [.], [!] or [?] is followed by whitespace is
    returned as one sentence, stripped; as no sentence when it is blank. *)
Theorem split_sentences_whole (text : pystr) :
  no_boundary text = true →
  split_sentences (PStr text)
  = if decide (strip text = []) then [] else [strip text].
Proof. apply split_sentences_no_boundary. Qed.

Lemma split_sentences_whole_witness :
  no_boundary (u "밥 먹었어?") = true
  ∧ split_sentences (PStr (u "밥 먹었어?")) = [u "밥 먹었어?"].
Proof.
  split; [reflexivity|].
  exact (split_sentences_whole (u "밥 먹었어?") eq_refl).
Defined.

(* ===================================================================== *)
(** * Position mapper: what a position denotes *)
(* ===================================================================== *)

(** [s.find(sub, start)] answers an offset at which [sub] stands in [s]. *)
Lemma find_slice s sub start j :
  find s sub start = Some j → slice s j (j + length sub) = sub.
Proof.
  unfold find, slice. case_decide; [|done].
  intros [Hle Ht]%find_at_take. rewrite drop_drop in Ht.
  replace (start + (j - start)) with j in Ht by lia.
  by rewrite <- take_drop_commute.
Qed.

Lemma positions_from_located sentence tokens cursor ps :
  positions_from sentence tokens cursor = Ok ps →
  cursor ≤ length sentence →
  length ps = length tokens
  ∧ ∀ i t a b,
      tokens !! i = Some t → ps !! i = Some (a, b) →
      a ≤ b ≤ length sentence
      ∧ (a < b → surface t = PStr (slice sentence a b))
      ∧ (a = b →
         truthy (surface t) = false
         ∨ ∃ m, surface t = PStr m ∧ find sentence m 0 = None).
Proof.
  revert cursor ps.
  induction tokens as [|token rest IH]; intros cursor ps H Hc.
  - injection H as <-. split; [done|]. intros i t a b. by rewrite lookup_nil.
  - cbn [positions_from] in H. cbn zeta in H.
    destruct (truthy (surface token)) eqn:Htr; cbn [negb] in H.
    + destruct (surface token) as [m| |] eqn:Hm; [|done..].
      destruct (find sentence m cursor) as [idx|] eqn:Hf.
      * inv_bind_as H ps' Hx. injection H as <-.
        pose proof (find_bounds _ _ _ _ Hf) as Hb.
        destruct (IH _ _ Hx ltac:(lia)) as [Hlen Hall].
        split; [by cbn; rewrite Hlen|]. intros [|i] t a b Ht Hp.
        -- injection Ht as <-. injection Hp as <- <-.
           assert (0 < length m) by (destruct m; [done | cbn; lia]).
           split_and!; [lia..| |lia]. intros _.
           by rewrite (find_slice _ _ _ _ Hf).
        -- by eapply Hall.
      * destruct (find sentence m 0) as [idx|] eqn:Hf0.
        -- inv_bind_as H ps' Hx. injection H as <-.
           pose proof (find_bounds _ _ _ _ Hf0) as Hb.
           destruct (IH _ _ Hx ltac:(lia)) as [Hlen Hall].
           split; [by cbn; rewrite Hlen|]. intros [|i] t a b Ht Hp.
           ++ injection Ht as <-. injection Hp as <- <-.
              assert (0 < length m) by (destruct m; [done | cbn; lia]).
              split_and!; [lia..| |lia]. intros _.
              by rewrite (find_slice _ _ _ _ Hf0).
           ++ by eapply Hall.
        -- inv_bind_as H ps' Hx. injection H as <-.
           destruct (IH _ _ Hx Hc) as [Hlen Hall].
           split; [by cbn; rewrite Hlen|]. intros [|i] t a b Ht Hp.
           ++ injection Ht as <-. injection Hp as <- <-.
              split_and!; [lia..| |]; [lia|]. intros _. right.
              by exists m.
           ++ by eapply Hall.
    + inv_bind_as H ps' Hx. injection H as <-.
      destruct (IH _ _ Hx Hc) as [Hlen Hall].
      split; [by cbn; rewrite Hlen|]. intros [|i] t a b Ht Hp.
      * injection Ht as <-. injection Hp as <- <-.
        split_and!; [lia..| |]; [lia|]. intros _. by left.
      * by eapply Hall.
Qed.

(** X7. [_token_positions] returns one position per token, inside the
    sentence. A position of positive width is a place where the token's
    surface stands in the sentence; a position of width zero belongs to a
    token without a surface, or whose surface occurs nowhere in the
    sentence. *)
Theorem token_positions_located (sentence : pystr) (tokens : list token)
    (ps : list (nat * nat)) :
  _token_positions sentence tokens = Ok ps →
  length ps = length tokens
  ∧ ∀ i t a b,
      tokens !! i = Some t → ps !! i = Some (a, b) →
      a ≤ b ≤ length sentence
      ∧ (a < b → surface t = PStr (slice sentence a b))
      ∧ (a = b →
         truthy (surface t) = false
         ∨ ∃ m, surface t = PStr m ∧ find sentence m 0 = None).
Proof.
  intros H. eapply positions_from_located; [exact H | lia].
Qed.

Lemma token_positions_located_witness :
  let sentence := u "밥 먹었어" in
  let tokens := [tuple [str "밥"; str "NNG"]; tuple [str "먹"; str "VV"];
                 tuple [str "었"; str "EP"]; tuple [str "어"; str "EF"]] in
  _token_positions sentence tokens = Ok [(0, 1); (2, 3); (3, 4); (4, 5)]
  ∧ slice sentence 2 3 = u "먹".
Proof.
  cbv zeta. split; [reflexivity|].
  pose proof (token_positions_located (u "밥 먹었어")
    [tuple [str "밥"; str "NNG"]; tuple [str "먹"; str "VV"];
     tuple [str "었"; str "EP"]; tuple [str "어"; str "EF"]]
    [(0, 1); (2, 3); (3, 4); (4, 5)] eq_refl) as [_ H].
  destruct (H 1 (tuple [str "먹"; str "VV"]) 2 3 eq_refl eq_refl)
    as (_ & Hs & _).
  specialize (Hs ltac:(lia)).
  exact (eq_sym (f_equal (λ v, match v with PStr s => s | _ => [] end) Hs)).
Defined.

(** X8. Over tokens whose fields are strings, numbers or [None] (the
    field values of this model), [_token_positions] returns whenever the
    first field of every token is a string, [None] or [0], the last two
    counting as no surface like the empty string; otherwise some first
    field is a non-zero number, which [str.find] does not accept, and it
    raises [TypeError]. It raises nothing else. *)
Theorem token_positions_raises (sentence : pystr) (tokens : list token) :
  match _token_positions sentence tokens with
  | Ok _ =>
      Forall (λ t, truthy (surface t) = true → ∃ m, surface t = PStr m)
        tokens
  | Raise e =>
      e = TypeError
      ∧ Exists (λ t, ∃ q, surface t = PNum q ∧ q ≠ 0%Qc) tokens
  end.
Proof.
  unfold _token_positions. generalize 0 as cursor.
  induction tokens as [|token rest IH]; intros cursor; [by constructor|].
  cbn [positions_from]. cbn zeta.
  assert (Hstep : ∀ c p,
    (truthy (surface token) = true → ∃ m, surface token = PStr m) →
    match (positions ← positions_from sentence rest c; Ok (p :: positions))
    with
    | Ok _ =>
        Forall (λ t, truthy (surface t) = true → ∃ m, surface t = PStr m)
          (token :: rest)
    | Raise e =>
        e = TypeError
        ∧ Exists (λ t, ∃ q, surface t = PNum q ∧ q ≠ 0%Qc) (token :: rest)
    end).
  { intros c p Htok. specialize (IH c).
    destruct (positions_from sentence rest c); simpl_bind.
    - by constructor.
    - destruct IH as [-> ?]. split; [done|]. by apply Exists_cons_tl. }
  destruct (truthy (surface token)) eqn:Htr; cbn [negb].
  - destruct (surface token) as [m|q|] eqn:Hm.
    + destruct (find sentence m cursor);
        [|destruct (find sentence m 0)]; apply Hstep; eauto.
    + split; [done|]. apply Exists_cons_hd. exists q. split; [done|].
      cbn [truthy] in Htr. intros ->. by rewrite bool_decide_eq_true_2 in Htr.
    + done.
  - by apply Hstep.
Qed.

(* ===================================================================== *)
(** * Ending extractor: what is selected *)
(* ===================================================================== *)

Section Selection.
Variable tokens : list token.

Lemma selected_snoc bound endings t :
  bound < length tokens →
  endings `sublist_of` take bound tokens →
  tokens !! bound = Some t →
  endings ++ [t] `sublist_of` take (bound + 1) tokens.
Proof.
  intros Hb Hsub Ht. rewrite Nat.add_1_r, (take_S_r _ _ _ Ht).
  by apply sublist_app.
Qed.

Lemma sublist_take_le (endings : list token) i j :
  i ≤ j → endings `sublist_of` take i tokens →
  endings `sublist_of` take j tokens.
Proof.
  intros Hij Hsub. etrans; [exact Hsub|].
  rewrite <- (Nat.min_l i j), <- take_take by done. apply sublist_take.
Qed.

Lemma endings_lookahead_selected fuel lookahead idx endings idx' endings' :
  endings_lookahead tokens fuel lookahead idx endings = Ok (idx', endings') →
  idx < lookahead →
  endings ≠ [] →
  selected tokens (idx + 1) lookahead endings →
  selected tokens (idx' + 1) (idx' + 1) endings'.
Proof.
  revert lookahead idx endings.
  induction fuel as [|fuel IH]; intros lookahead idx endings H Hlt Hne Hsel;
    [done|].
  cbn [endings_lookahead] in H.
  destruct Hsel as (Hsub & Hall & Hhd & Hseen).
  assert (Hstop : selected tokens (idx + 1) (idx + 1) endings).
  { split_and!; [done..|]. intros k t Hk. apply Hseen. lia. }
  case_decide as Hl; [|by injection H as <- <-].
  inv_bind_as H next_token Hn. apply getindex_Ok in Hn.
  case_decide as Hlen.
  { eapply IH; [exact H | lia | done |].
    split_and!; [done..|]. intros k t Hk Ht Hlt' Hfin.
    destruct (decide (k = lookahead)) as [->|].
    - rewrite Hn in Ht. injection Ht as <-. lia.
    - apply (Hseen k); [lia | done..]. }
  inv_bind_as H next_tag Htag. apply getitem_Ok in Htag.
  inv_bind_as H is_josa Hj.
  destruct (is_josa || eq_str next_tag (u "EP")) eqn:Hglue;
    [|by injection H as <- <-].
  replace (lookahead + 1 - 1) with lookahead in H by lia.
  eapply IH; [exact H | lia | by destruct endings |].
  split_and!.
  - apply selected_snoc; [done| |done].
    eapply sublist_take_le; [|exact Hsub]. lia.
  - apply Forall_app. split; [done|]. apply Forall_singleton.
    split; [lia|]. exists next_tag. split; [done|].
    destruct next_tag as [tag| |]; [|done..]. injection Hj as <-.
    right. exists tag. split; [done|].
    apply orb_true_iff in Hglue as [Hs|He]; [by left|right].
    unfold eq_str in He. apply bool_decide_eq_true in He. by injection He.
  - intros t Ht. apply Hhd. by destruct endings.
  - intros k t Hk Ht Hlt' Hfin. apply elem_of_app.
    destruct (decide (k = lookahead)) as [->|].
    + right. rewrite Hn in Ht. injection Ht as <-. by apply list_elem_of_singleton.
    + left. apply (Hseen k); [lia | done..].
Qed.

Lemma endings_loop_selected fuel idx endings endings' :
  endings_loop tokens fuel idx endings = Ok endings' →
  selected tokens idx idx endings →
  selected tokens (length tokens) (length tokens) endings'.
Proof.
  revert idx endings.
  induction fuel as [|fuel IH]; intros idx endings H Hsel; [done|].
  cbn [endings_loop] in H.
  destruct Hsel as (Hsub & Hall & Hhd & Hseen).
  case_decide as Hl.
  2: { injection H as <-. split_and!; [|done..|].
       - rewrite take_ge in Hsub by lia. by rewrite firstn_all.
       - intros k t Hk Hkt. apply (Hseen k); [lia | done]. }
  inv_bind_as H token Ht. apply getindex_Ok in Ht.
  assert (Hskip : ¬ (2 ≤ len token ∧ final_ending token) →
                  selected tokens (idx + 1) (idx + 1) endings).
  { intros Hno. split_and!; [|done..|].
    - eapply sublist_take_le; [|exact Hsub]. lia.
    - intros k t Hk Hkt Hlen Hfin.
      destruct (decide (k = idx)) as [->|]; [|apply (Hseen k); [lia|done..]].
      rewrite Ht in Hkt. injection Hkt as <-. by destruct Hno. }
  case_decide as Hlen.
  { eapply IH; [exact H|]. apply Hskip. lia. }
  inv_bind_as H tag Htag. apply getitem_Ok in Htag.
  destruct (tag_in tag FINAL_ENDING_TAGS) eqn:Hfin.
  - inv_bind_as H r Hr. destruct r as [idx' endings1].
    eapply IH; [exact H|].
    eapply endings_lookahead_selected; [exact Hr | lia | by destruct endings |].
    assert (Hf : final_ending token) by (by exists tag).
    split_and!.
    + by apply selected_snoc.
    + apply Forall_app. split; [done|]. apply Forall_singleton.
      split; [lia|]. exists tag. split; [done|]. by left.
    + intros t. destruct endings as [|e endings]; [by intros [= <-]|].
      apply Hhd.
    + intros k t Hk Hkt Hlen' Hfin'. apply elem_of_app.
      destruct (decide (k = idx)) as [->|].
      * right. rewrite Ht in Hkt. injection Hkt as <-.
        by apply list_elem_of_singleton.
      * left. apply (Hseen k); [lia|done..].
  - eapply IH; [exact H|]. apply Hskip. intros [_ (tag' & Htag' & Hf)].
    rewrite Htag in Htag'. injection Htag' as <-. by rewrite Hfin in Hf.
Qed.

End Selection.

Lemma extract_final_endings_selected tokens endings :
  extract_final_endings tokens = Ok endings →
  selected tokens (length tokens) (length tokens) endings.
Proof.
  unfold extract_final_endings. case_decide as Hnil.
  - intros [= <-]. subst tokens. split_and!; [done|by constructor|done|].
    intros k t Hk. cbn in Hk. lia.
  - intros H. eapply endings_loop_selected; [exact H|].
    split_and!; [by rewrite take_0|by constructor|done|]. intros k t Hk. lia.
Qed.

(** X9. The endings returned by [extract_final_endings] are tokens of the
    input, in the order of the input, each taken at most once; every
    token tagged [EF] or [ECF] (with at least 2 fields) is among them. *)
Theorem extract_final_endings_selects (tokens endings : list token) :
  extract_final_endings tokens = Ok endings →
  endings `sublist_of` tokens
  ∧ ∀ t, t ∈ tokens → 2 ≤ len t → final_ending t → t ∈ endings.
Proof.
  intros (Hsub & _ & _ & Hseen)%extract_final_endings_selected.
  rewrite firstn_all in Hsub. split; [done|].
  intros t (k & Hk)%list_elem_of_lookup. apply (Hseen k); [|done].
  by apply lookup_lt_Some in Hk.
Qed.

Lemma extract_final_endings_selects_witness :
  let tokens := [tuple [str "가"; str "VV"]; tuple [str "요"; str "EF"];
                 tuple [str "는"; str "JX"]; tuple [str "밥"; str "NNG"];
                 tuple [str "어"; str "ECF"]] in
  let endings := [tuple [str "요"; str "EF"]; tuple [str "는"; str "JX"];
                  tuple [str "어"; str "ECF"]] in
  extract_final_endings tokens = Ok endings
  ∧ endings `sublist_of` tokens.
Proof.
  cbv zeta. split; [reflexivity|].
  exact (proj1 (extract_final_endings_selects
    [tuple [str "가"; str "VV"]; tuple [str "요"; str "EF"];
     tuple [str "는"; str "JX"]; tuple [str "밥"; str "NNG"];
     tuple [str "어"; str "ECF"]]
    [tuple [str "요"; str "EF"]; tuple [str "는"; str "JX"];
     tuple [str "어"; str "ECF"]] eq_refl)).
Defined.

(** X10. Every ending returned by [extract_final_endings] has at least 2
    fields and is tagged [EF] or [ECF], or as a particle ([J...]) or
    [EP]; the first one is tagged [EF] or [ECF]. *)
Theorem extract_final_endings_kinds (tokens endings : list token) :
  extract_final_endings tokens = Ok endings →
  Forall (λ t, 2 ≤ len t ∧ picked_up t) endings
  ∧ ∀ t, head endings = Some t → final_ending t.
Proof.
  by intros (_ & Hall & Hhd & _)%extract_final_endings_selected.
Qed.

Lemma extract_final_endings_kinds_witness :
  let tokens := [tuple [str "가"; str "VV"]; tuple [str "요"; str "EF"];
                 tuple [str "는"; str "JX"]; tuple [str "밥"; str "NNG"]] in
  let endings := [tuple [str "요"; str "EF"]; tuple [str "는"; str "JX"]] in
  extract_final_endings tokens = Ok endings
  ∧ Forall (λ t, 2 ≤ len t ∧ picked_up t) endings.
Proof.
  cbv zeta. split; [reflexivity|].
  exact (proj1 (extract_final_endings_kinds
    [tuple [str "가"; str "VV"]; tuple [str "요"; str "EF"];
     tuple [str "는"; str "JX"]; tuple [str "밥"; str "NNG"]]
    [tuple [str "요"; str "EF"]; tuple [str "는"; str "JX"]] eq_refl)).
Defined.

(* ===================================================================== *)
(** * Tag refiner: what a refined token is *)
(* ===================================================================== *)

Section RefinedTokens.
Context {St : Type}.
Implicit Types (callback : option (@callback_t St)) (s : St).

(** The turn of the loop on a token with a confidence, step by step. *)
Lemma refine_token_Ok tokens sentence callback i t s t' s' :
  refine_token tokens sentence callback i t s = Ok (t', s') →
  3 ≤ len t →
  ∃ morph tag prob auto new_tag,
    fields t !! 0 = Some morph ∧ fields t !! 1 = Some tag
    ∧ fields t !! 2 = Some prob
    ∧ auto_rules tokens i morph tag prob = Ok auto
    ∧ interactive_rules callback t tokens i sentence morph prob auto s
      = Ok (new_tag, s')
    ∧ t' = if decide (new_tag ≠ tag)
           then tuple [morph; new_tag; prob;
                       default (PNum 0%Qc) (fields t !! 3)]
           else t.
Proof.
  unfold refine_token. intros H Hlen. rewrite decide_True in H by done.
  apply M_bind_Ok in H as (morph & s1 & [Hm ->]%lift_Ok & H).
  apply M_bind_Ok in H as (tag & s1 & [Ht ->]%lift_Ok & H).
  apply M_bind_Ok in H as (prob & s1 & [Hp ->]%lift_Ok & H).
  apply M_bind_Ok in H as (oov & s1 & [Ho ->]%lift_Ok & H).
  apply M_bind_Ok in H as (auto & s1 & [Hn ->]%lift_Ok & H).
  apply M_bind_Ok in H as (new_tag & s1 & Hi & H).
  apply getitem_Ok in Hm, Ht, Hp.
  assert (Hoov : oov = default (PNum 0%Qc) (fields t !! 3)).
  { destruct (decide (4 ≤ len t)) as [H4|H4].
    - apply getitem_Ok in Ho. by rewrite Ho.
    - injection Ho as <-. rewrite lookup_ge_None_2; [done|].
      unfold len in H4. lia. }
  subst oov. exists morph, tag, prob, auto, new_tag.
  destruct (decide (new_tag ≠ tag)); injection H as <- <-; by split_and!.
Qed.

(** The automatic rules answer the tag they were given, [EF], or [ECF]
    for a token tagged [EC]. *)
Lemma auto_rules_tags tokens i morph tag prob auto :
  auto_rules tokens i morph tag prob = Ok auto →
  auto = tag ∨ auto = PStr (u "EF")
  ∨ (auto = PStr (u "ECF") ∧ tag = PStr (u "EC")).
Proof.
  unfold auto_rules. intros H.
  inv_bind_as H tag0 H0. inv_bind_as H tag1 H1.
  assert (E0 : tag0 = tag ∨ tag0 = PStr (u "EF")).
  { unfold rule_etn in H0. destruct (_ && _); [|injection H0 as <-; by left].
    inv_bind_as H0 j Hj. injection H0 as <-. destruct j; [by left | by right]. }
  assert (E1 : tag1 = tag0 ∨ (tag1 = PStr (u "ECF") ∧ tag = PStr (u "EC"))).
  { unfold rule_ec in H1. destruct (eq_str tag (u "EC")) eqn:Hec;
      [|injection H1 as <-; by left].
    apply bool_decide_eq_true in Hec.
    inv_bind_as H1 l Hl. injection H1 as <-.
    destruct l; [right; by split | by left]. }
  assert (E2 : auto = tag1 ∨ auto = PStr (u "EF")).
  { unfold rule_neologism in H. destruct (_ || _); [|injection H as <-; by left].
    inv_bind_as H l Hl. injection H as <-. destruct l; [by right | by left]. }
  destruct E2 as [->| ->]; [|right; by left].
  destruct E1 as [->|[-> ->]]; [|right; right; by split].
  destruct E0 as [->| ->]; [by left | right; by left].
Qed.

Lemma refine_from_None tokens sentence i todo s refined s' :
  refine_from tokens sentence None i todo s = Ok (refined, s') → s' = s.
Proof.
  revert i s refined.
  induction todo as [|token todo IH]; intros i s refined H.
  - by injection H as <- <-.
  - cbn [refine_from] in H.
    apply M_bind_Ok in H as (t' & s1 & Ht & H).
    apply M_bind_Ok in H as (refined' & s2 & Hr & H).
    injection H as <- <-. apply IH in Hr as ->.
    unfold refine_token in Ht. case_decide; [|by injection Ht as <- <-].
    apply M_bind_Ok in Ht as (morph & s3 & [Hm ->]%lift_Ok & Ht).
    apply M_bind_Ok in Ht as (tag & s3 & [Htg ->]%lift_Ok & Ht).
    apply M_bind_Ok in Ht as (prob & s3 & [Hp ->]%lift_Ok & Ht).
    apply M_bind_Ok in Ht as (oov & s3 & [Ho ->]%lift_Ok & Ht).
    apply M_bind_Ok in Ht as (auto & s3 & [Hn ->]%lift_Ok & Ht).
    apply M_bind_Ok in Ht as (new_tag & s3 & Hi & Ht).
    injection Hi as <- <-.
    by destruct (decide (auto ≠ tag)); injection Ht as <- <-.
Qed.

End RefinedTokens.

(** X11. [_refine_tokens] returns one token per token, and changes
    nothing but tags: a refined token is the token itself, or the tuple
    of its surface, a tag other than its own, its confidence and its
    out-of-vocabulary flag (0 when absent). *)
Theorem refine_tokens_only_tags {St} (tokens : list token)
    (sentence : option pystr) (callback : option (@callback_t St))
    (s : St) (refined : list token) (s' : St) :
  _refine_tokens tokens sentence callback s = Ok (refined, s') →
  length refined = length tokens
  ∧ ∀ i t t',
      tokens !! i = Some t → refined !! i = Some t' →
      t' = t
      ∨ ∃ morph tag new_tag prob,
          fields t !! 0 = Some morph ∧ fields t !! 1 = Some tag
          ∧ fields t !! 2 = Some prob ∧ new_tag ≠ tag
          ∧ t' = tuple [morph; new_tag; prob;
                        default (PNum 0%Qc) (fields t !! 3)].
Proof.
  intros [Hlen Hall]%refine_from_lookup. split; [done|].
  intros i t t' Ht Ht'.
  destruct (Hall i t Ht) as (t'' & s1 & s2 & Hr & Hl).
  rewrite Ht' in Hl. injection Hl as <-.
  destruct (decide (3 ≤ len t)) as [H3|H3].
  - apply refine_token_Ok in Hr
      as (morph & tag & prob & auto & new_tag & Hm & Htg & Hp & _ & _ & ->);
      [|done].
    case_decide; [right | by left]. by exists morph, tag, new_tag, prob.
  - left. rewrite refine_token_short in Hr by lia. by injection Hr as <-.
Qed.

Lemma refine_tokens_only_tags_witness :
  let tokens := [tuple [str "가"; str "VV"; num 31 32; num 0 1];
                 tuple [str "긔"; str "NNG"; num 1 2]] in
  let refined := [tuple [str "가"; str "VV"; num 31 32; num 0 1];
                  tuple [str "긔"; str "EF"; num 1 2; num 0 1]] in
  _refine_tokens (St:=unit) tokens None None () = Ok (refined, ())
  ∧ length refined = length tokens.
Proof.
  intros tokens refined.
  assert (H : _refine_tokens (St:=unit) tokens None None ()
              = Ok (refined, ())) by (by vm_compute).
  split; [exact H|].
  exact (proj1 (refine_tokens_only_tags tokens None None () refined () H)).
Defined.

(** X12. Without a callback [_refine_tokens] leaves the outside world as
    it is, and a token it retags is tagged [EF], or [ECF] when it was
    tagged [EC]. *)
Theorem refine_tokens_automatic {St} (tokens : list token)
    (sentence : option pystr) (s : St) (refined : list token) (s' : St) :
  _refine_tokens tokens sentence None s = Ok (refined, s') →
  s' = s
  ∧ ∀ i t t',
      tokens !! i = Some t → refined !! i = Some t' →
      t' = t ∨ has_tag t' (u "EF")
      ∨ (has_tag t' (u "ECF") ∧ has_tag t (u "EC")).
Proof.
  intros H. split; [by eapply refine_from_None|].
  apply refine_from_lookup in H as [_ Hall].
  intros i t t' Ht Ht'.
  destruct (Hall i t Ht) as (t'' & s1 & s2 & Hr & Hl).
  rewrite Ht' in Hl. injection Hl as <-.
  destruct (decide (3 ≤ len t)) as [H3|H3].
  - apply refine_token_Ok in Hr
      as (morph & tag & prob & auto & new_tag & Hm & Htg & Hp & Ha & Hi & ->);
      [|done].
    injection Hi as <- <-. case_decide; [|by left].
    apply auto_rules_tags in Ha as [->|[->|[-> ->]]]; [done|..].
    + right. by left.
    + right. by right.
  - left. rewrite refine_token_short in Hr by lia. by injection Hr as <-.
Qed.

Lemma refine_tokens_automatic_witness :
  let tokens := [tuple [str "가"; str "VV"; num 31 32; num 0 1];
                 tuple [str "서"; str "EC"; num 31 32; num 0 1]] in
  let refined := [tuple [str "가"; str "VV"; num 31 32; num 0 1];
                  tuple [str "서"; str "ECF"; num 31 32; num 0 1]] in
  _refine_tokens (St:=nat) tokens None None 7 = Ok (refined, 7)
  ∧ ∀ i t t',
      tokens !! i = Some t → refined !! i = Some t' →
      t' = t ∨ has_tag t' (u "EF")
      ∨ (has_tag t' (u "ECF") ∧ has_tag t (u "EC")).
Proof.
  intros tokens refined.
  assert (H : _refine_tokens (St:=nat) tokens None None 7
              = Ok (refined, 7)) by (by vm_compute).
  split; [exact H|].
  exact (proj2 (refine_tokens_automatic tokens None 7 refined 7 H)).
Defined.

(** The tokens after index [i] are all tagged as symbols ([S...]). *)
Lemma is_last_meaningful_symbols following :
  Forall (λ t, ∃ tag, has_tag t tag ∧ startswith tag (u "S") = true)
    following →
  is_last_meaningful following = Ok true.
Proof.
  induction 1 as [|t following (tag & Ht & Hs) _ IH]; [done|].
  cbn [is_last_meaningful].
  rewrite (proj2 (getitem_Ok t 1 (PStr tag)) Ht). simpl_bind.
  cbn [py_startswith]. simpl_bind. by rewrite Hs.
Qed.

(** X13. The low-confidence rule is final for 긔, 노, 나 and 슨: a token
    with one of these surfaces and a confidence of at most 0.9 comes out
    of the refiner tagged [EF] whatever its tag was, and the callback, if
    there is one, is not consulted about it. *)
Theorem refine_token_neologism {St} (tokens : list token)
    (sentence : option pystr) (callback : option (@callback_t St))
    (i : nat) (t : token) (s : St) (t' : token) (s' : St)
    (morph : pystr) (prob : Qc) :
  refine_token tokens sentence callback i t s = Ok (t', s') →
  3 ≤ len t →
  fields t !! 0 = Some (PStr morph) →
  morph ∈ [u "긔"; u "노"; u "나"; u "슨"] →
  fields t !! 2 = Some (PNum prob) → (prob ≤ float_0_9)%Qc →
  has_tag t' (u "EF") ∧ s' = s.
Proof.
  intros H Hlen Hm Hin Hp Hle.
  apply refine_token_Ok in H
    as (morph' & tag & prob' & auto & new_tag & Hm' & Htg & Hp' & Ha & Hi
        & ->); [|done].
  rewrite Hm in Hm'. injection Hm' as <-.
  rewrite Hp in Hp'. injection Hp' as <-.
  assert (Hauto : auto = PStr (u "EF")).
  { unfold auto_rules in Ha. inv_bind_as Ha tag0 H0. inv_bind_as Ha tag1 H1.
    unfold rule_neologism in Ha.
    assert (Hneo : eq_str (PStr morph) (u "긔") || eq_str (PStr morph) (u "노")
                   || eq_str (PStr morph) (u "나")
                   || eq_str (PStr morph) (u "슨")
                   || eq_str (PStr morph) (u "임") = true).
    { unfold eq_str. rewrite !elem_of_cons in Hin.
      destruct Hin as [->|[->|[->|[->|[]%elem_of_nil]]]]; reflexivity. }
    rewrite Hneo in Ha. cbn [py_le] in Ha. simpl_bind.
    rewrite bool_decide_eq_true_2 in Ha by done. by injection Ha as <-. }
  subst auto.
  assert (Hnot : morph ≠ u "임" ∧ morph ≠ u "ㅁ" ∧ morph ≠ u "음").
  { rewrite !elem_of_cons in Hin.
    destruct Hin as [->|[->|[->|[->|[]%elem_of_nil]]]]; by split_and!. }
  destruct Hnot as (H1 & H2 & H3).
  assert (Hnew : new_tag = PStr (u "EF") ∧ s' = s).
  { destruct callback as [cb|]; [|by injection Hi as <- <-].
    cbn [interactive_rules] in Hi.
    apply M_bind_Ok in Hi as (low & s1 & Hlow & Hi).
    change (eq_str (PStr (u "EF")) (u "EC")) with false in Hlow.
    injection Hlow as <- <-.
    change (eq_str (PStr (u "EF")) (u "ETN")) with false in Hi.
    cbn [andb] in Hi. unfold eq_str in Hi.
    rewrite bool_decide_eq_false_2 in Hi by congruence.
    by injection Hi as <- <-. }
  destruct Hnew as [-> ->]. split; [|done].
  case_decide as Hne; [done|]. unfold has_tag. by rewrite Hne.
Qed.

Lemma refine_token_neologism_witness :
  let t := tuple [str "노"; str "NNG"; num 1 2; num 1 1] in
  let t' := tuple [str "노"; str "EF"; num 1 2; num 1 1] in
  refine_token (St:=unit) [t] None None 0 t () = Ok (t', ())
  ∧ has_tag t' (u "EF").
Proof.
  cbv zeta. split; [by vm_compute|].
  refine (proj1 (refine_token_neologism (St:=unit)
    [tuple [str "노"; str "NNG"; num 1 2; num 1 1]] None None 0
    (tuple [str "노"; str "NNG"; num 1 2; num 1 1]) ()
    (tuple [str "노"; str "EF"; num 1 2; num 1 1]) ()
    (u "노") (Q2Qc (1 # 2)) _ _ _ _ _ _)).
  - by vm_compute.
  - cbn. lia.
  - reflexivity.
  - constructor 2. constructor 1.
  - reflexivity.
  - by vm_compute.
Defined.

(** X14. A token tagged [EC] that only symbols ([S...]) follow is retagged
    by the automatic rules before the interactive checks, so that the
    callback is not consulted about it: whatever the callback would do,
    the token comes out tagged [ECF], or [EF] by the low-confidence rule,
    and the outside world is as it was. *)
Theorem refine_token_final_connective {St} (tokens : list token)
    (sentence : option pystr) (callback : @callback_t St)
    (i : nat) (t : token) (s : St) (morph : pystr) (prob : Qc) :
  3 ≤ len t →
  fields t !! 0 = Some (PStr morph) → morph ≠ u "임" →
  has_tag t (u "EC") →
  fields t !! 2 = Some (PNum prob) →
  Forall (λ t, ∃ tag, has_tag t tag ∧ startswith tag (u "S") = true)
    (drop (i + 1) tokens) →
  ∃ t', refine_token tokens sentence (Some callback) i t s = Ok (t', s)
        ∧ (has_tag t' (u "ECF") ∨ has_tag t' (u "EF")).
Proof.
  intros Hlen Hm Hne Htag Hp Hsym. unfold refine_token.
  rewrite decide_True by done.
  rewrite (proj2 (getitem_Ok t 0 _) Hm), (proj2 (getitem_Ok t 1 _) Htag),
    (proj2 (getitem_Ok t 2 _) Hp).
  assert (Hoov : ∃ oov, (if decide (4 ≤ len t) then getitem t 3
                         else Ok (PNum 0%Qc)) = Ok oov) .
  { case_decide as H4; [|by eexists].
    unfold getitem. destruct (fields t !! 3) eqn:Ho; [by eexists|].
    apply lookup_ge_None in Ho. unfold len in H4. lia. }
  destruct Hoov as [oov ->].
  assert (Hauto : ∃ auto,
    auto_rules tokens i (PStr morph) (PStr (u "EC")) (PNum prob) = Ok auto
    ∧ (auto = PStr (u "ECF") ∨ auto = PStr (u "EF"))).
  { unfold auto_rules, rule_etn, rule_ec.
    change (eq_str (PStr (u "EC")) (u "ETN")) with false. cbn [andb].
    simpl_bind. change (eq_str (PStr (u "EC")) (u "EC")) with true. cbv iota.
    rewrite is_last_meaningful_symbols by done. simpl_bind.
    unfold rule_neologism. destruct (_ || _); [|by eauto].
    cbn [py_le]. simpl_bind. case_bool_decide; eauto. }
  destruct Hauto as (auto & Ha & Hauto).
  unfold mbind, M_bind, mret, M_ret, lift. cbv beta iota. rewrite Ha.
  cbn [interactive_rules]. unfold mbind, M_bind, mret, M_ret, lift.
  assert (Hec : eq_str auto (u "EC") = false) by (by destruct Hauto as [->| ->]).
  assert (Hetn : eq_str auto (u "ETN") = false)
    by (by destruct Hauto as [->| ->]).
  rewrite Hec, Hetn. cbn [andb]. unfold eq_str at 1.
  rewrite bool_decide_eq_false_2 by congruence.
  rewrite decide_True by (by destruct Hauto as [->| ->]).
  eexists. split; [done|]. by destruct Hauto as [->| ->]; [left | right].
Qed.

Lemma refine_token_final_connective_witness :
  let t := tuple [str "서"; str "EC"; num 1 2; num 0 1] in
  let tokens := [t; tuple [str "."; str "SF"; num 1 1; num 0 1]] in
  ∃ t', refine_token (St:=unit) tokens None
          (Some (λ _ _ _ _ _, Raise EOFError)) 0 t () = Ok (t', ())
        ∧ (has_tag t' (u "ECF") ∨ has_tag t' (u "EF")).
Proof.
  cbv zeta.
  refine (refine_token_final_connective (St:=unit)
    [tuple [str "서"; str "EC"; num 1 2; num 0 1];
     tuple [str "."; str "SF"; num 1 1; num 0 1]] None
    (λ _ _ _ _ _, Raise EOFError) 0
    (tuple [str "서"; str "EC"; num 1 2; num 0 1]) ()
    (u "서") (Q2Qc (1 # 2)) _ _ _ _ _ _).
  - cbn. lia.
  - reflexivity.
  - by vm_compute.
  - reflexivity.
  - reflexivity.
  - apply Forall_singleton. exists (u "SF"). by split.
Defined.

(* ===================================================================== *)
(** * Sentence segmenter: the tokens and the texts of the segments *)
(* ===================================================================== *)

(** What a flush does to the buffered tokens. *)
Lemma flush_buffer_flushed sentence explicit_end_pos st st' :
  flush_buffer sentence explicit_end_pos st = Ok st' →
  (st' = st ∧ (buffer_tokens st = [] ∨ start_pos st = None))
  ∨ ∃ text emitted,
      buffer_tokens st ≠ [] ∧ start_pos st ≠ None
      ∧ flushed (buffer_tokens st) emitted
      ∧ segments st' = segments st ++ [(text, emitted)]
      ∧ buffer_tokens st' = [] ∧ start_pos st' = None.
Proof.
  unfold flush_buffer.
  destruct (buffer_tokens st) as [|t0 buf] eqn:Hbuf; [intros [= <-]; auto|].
  destruct (start_pos st) as [start|]; [|intros [= <-]; auto].
  rewrite <- Hbuf. intros H. right.
  inv_bind_as H t Ht. apply getindex_Ok in Ht.
  inv_bind_as H tag Htag. apply getitem_Ok in Htag.
  inv_bind_as H buffer Hb. injection H as <-. cbn.
  eexists _, buffer. split_and!; [by rewrite Hbuf | done | | done..].
  destruct (eq_str tag (u "EC")) eqn:Hec.
  - inv_bind_as Hb t' Ht'. injection Hb as <-. right.
    exists (take (length (buffer_tokens st) - 1) (buffer_tokens st)), t, t'.
    apply bool_decide_eq_true in Hec as ->.
    assert (Hlast : drop (S (length (buffer_tokens st) - 1)) (buffer_tokens st)
                    = []) by (apply drop_ge; lia).
    split_and!; [|done..|].
    + by rewrite <- (take_drop_middle _ _ _ Ht) at 1; rewrite Hlast.
    + rewrite insert_take_drop by (rewrite Hbuf; cbn; lia).
      by rewrite Hlast.
  - injection Hb as <-. by left.
Qed.

(** What the absorbing loop appends is glue. *)
Lemma absorb_glue tokens positions fuel lookahead buffer end_
    lookahead' buffer' end' :
  absorb tokens positions fuel lookahead buffer end_
  = Ok (lookahead', buffer', end') →
  ∃ post, buffer' = buffer ++ post ∧ Forall glue post.
Proof.
  revert lookahead buffer end_.
  induction fuel as [|fuel IH]; intros lookahead buffer end_ H; [done|].
  cbn [absorb] in H.
  assert (Hstop : ∃ post, buffer = buffer ++ post ∧ Forall glue post).
  { exists []. by rewrite app_nil_r. }
  case_decide; [|by injection H as _ <- _].
  inv_bind_as H next_token Hn. case_decide; [by eapply IH|].
  inv_bind_as H next_tag Htag. apply getitem_Ok in Htag.
  inv_bind_as H is_josa Hj. inv_bind_as H is_glue Hg.
  destruct is_glue; [|by injection H as _ <- _].
  inv_bind_as H p Hp. apply IH in H as (post & -> & Hpost).
  exists (next_token :: post). split; [by rewrite <- app_assoc|].
  constructor; [|done].
  destruct next_tag as [tag| |]; [|done..]. injection Hj as <-.
  exists tag. split; [done|].
  destruct (startswith tag (u "J")) eqn:HJ; [by left|]. right.
  cbn [orb] in Hg. destruct (eq_str (PStr tag) (u "EP")) eqn:HEP.
  - left. apply bool_decide_eq_true in HEP. by injection HEP.
  - right. by injection Hg.
Qed.

Lemma retag_ecf_Ok t t' :
  retag_ecf t = Ok t' →
  surface t' = surface t ∧ has_tag t' (u "ECF").
Proof.
  unfold retag_ecf. intros H. inv_bind_as H t0 H0. apply getitem_Ok in H0.
  destruct (tkind t); [|done]. injection H as <-. split; [|done].
  unfold surface. cbn. by destruct (fields t); [|injection H0 as ->].
Qed.

Section Conservation.
Variables (sentence : pystr) (tokens : list token)
  (positions : list (nat * nat)).

Local Abbreviation well_formed l := (filter (λ t : token, 2 ≤ len t) l).

Lemma well_formed_take_skip idx t :
  tokens !! idx = Some t → len t < 2 →
  well_formed (take (idx + 1) tokens) = well_formed (take idx tokens).
Proof.
  intros Ht Hlen. rewrite Nat.add_1_r, (take_S_r _ _ _ Ht), filter_app.
  rewrite filter_cons_False by lia. by rewrite filter_nil, app_nil_r.
Qed.

Lemma well_formed_take_keep idx t :
  tokens !! idx = Some t → 2 ≤ len t →
  well_formed (take (idx + 1) tokens) = well_formed (take idx tokens) ++ [t].
Proof.
  intros Ht Hlen. rewrite Nat.add_1_r, (take_S_r _ _ _ Ht), filter_app.
  by rewrite filter_cons_True by lia.
Qed.

Lemma seg_iter_conserved idx st idx' st' :
  conserved tokens idx st → idx < length tokens →
  seg_iter sentence tokens positions idx st = Ok (idx', st') →
  conserved tokens idx' st'.
Proof.
  intros [Hstart (buffers & Hfl & Hcat)] _ Hi.
  apply seg_iter_Ok in Hi
    as (token & Hk & [(Hlen & -> & ->)|(Hwf & p & tag & _ & _ & Hi)]).
  { split; [done|]. exists buffers. split; [done|].
    by rewrite (well_formed_take_skip _ _ Hk Hlen). }
  cbn zeta in Hi.
  destruct Hi as [(_ & -> & ->)|(_ & buffer' & end' & split_end & Ha & _ & Hf)].
  - split; [cbn; by destruct (start_pos st)|]. exists buffers.
    split; [done|]. cbn.
    by rewrite (well_formed_take_keep _ _ Hk Hwf), app_assoc, Hcat.
  - apply (absorb_inv _ _
      (λ la buf _, buf ≠ []
                   ∧ concat buffers ++ buf = well_formed (take la tokens)))
      in Ha as ((Hne & Hcat') & _ & _ & Hle).
    + apply flush_buffer_flushed in Hf
        as [[_ [?|Hs]]|(text & emitted & _ & _ & Hem & Hsegs & Hb & Hs)].
      * done.
      * cbn in Hs. by destruct (start_pos st).
      * cbn in Hem, Hsegs. split; [by rewrite Hb|].
        exists (buffers ++ [buffer']). rewrite Hsegs, fmap_app, Hb. split.
        -- apply Forall2_app; [done|]. by apply Forall2_cons.
        -- by rewrite concat_app, app_nil_r; cbn; rewrite app_nil_r.
    + split; [by destruct (buffer_tokens st)|].
      by rewrite (well_formed_take_keep _ _ Hk Hwf), app_assoc, Hcat.
    + intros la buf e t [Hne Hc] Ht Hlen. split; [done|].
      by rewrite (well_formed_take_skip _ _ Ht Hlen).
    + intros la buf e t q [Hne Hc] Ht Hlen _. split; [by destruct buf|].
      by rewrite (well_formed_take_keep _ _ Ht Hlen), app_assoc, Hc.
Qed.

Lemma tag_in_split_false t tag :
  fields t !! 1 = Some tag → tag_in tag SPLIT_ENDING_TAGS = false →
  ¬ has_tag t (u "EF").
Proof.
  unfold has_tag. intros Ht Hno Hef. rewrite Ht in Hef. injection Hef as ->.
  done.
Qed.

Lemma tag_in_split_true t tag :
  fields t !! 1 = Some tag → tag_in tag SPLIT_ENDING_TAGS = true →
  has_tag t (u "EF").
Proof.
  unfold has_tag, tag_in, SPLIT_ENDING_TAGS. cbn [existsb]. intros Ht Hin.
  rewrite orb_false_r in Hin. apply bool_decide_eq_true in Hin. by subst.
Qed.

Lemma glue_not_connective t : glue t → ¬ has_tag t (u "EC").
Proof.
  unfold has_tag. intros (tag & Ht & Hg) Hec. rewrite Ht in Hec.
  injection Hec as ->. by destruct Hg as [|[|]].
Qed.

Lemma seg_iter_clauses idx st idx' st' :
  clause_walk st → idx < length tokens →
  seg_iter sentence tokens positions idx st = Ok (idx', st') →
  clause_walk st'.
Proof.
  intros (Hstart & Hbuf & Hsegs) _ Hi.
  apply seg_iter_Ok in Hi
    as (token & Hk & [(Hlen & -> & ->)|(Hwf & p & tag & _ & Htag & Hi)]);
    [done|].
  cbn zeta in Hi.
  destruct Hi
    as [(Hno & -> & ->)|(Hyes & buffer' & end' & split_end & Ha & _ & Hf)].
  - split_and!; [cbn; by destruct (start_pos st)| |done]. cbn.
    apply Forall_app. split; [done|]. apply Forall_singleton.
    by eapply tag_in_split_false.
  - apply absorb_glue in Ha as (post & -> & Hpost).
    pose proof (tag_in_split_true _ _ Htag Hyes) as Hef.
    apply flush_buffer_flushed in Hf
      as [[_ [Hnil|Hs]]|(text & emitted & _ & _ & Hem & Hsg & Hb & Hs)].
    + cbn in Hnil. by destruct (buffer_tokens st).
    + cbn in Hs. by destruct (start_pos st).
    + cbn in Hem, Hsg. split_and!; [by rewrite Hb | by rewrite Hb |].
      rewrite Hsg, fmap_app. apply Forall_app. split; [done|].
      apply Forall_singleton. cbn.
      assert (Hsame : emitted = (buffer_tokens st ++ [token]) ++ post).
      { destruct Hem as [->|(init & t & t' & Heq & Hec & _ & _)]; [done|].
        exfalso. destruct (decide (post = [])) as [->|Hpne].
        - rewrite app_nil_r in Heq. apply app_inj_tail in Heq as [_ <-].
          unfold has_tag in Hec, Hef. by rewrite Hef in Hec.
        - destruct (exists_last Hpne) as (post' & g & ->).
          rewrite app_assoc in Heq. apply app_inj_tail in Heq as [_ <-].
          apply Forall_app in Hpost as [_ Hg].
          rewrite Forall_singleton in Hg. by apply glue_not_connective in Hg. }
      rewrite Hsame, <- app_assoc. by exists (buffer_tokens st), token, post.
Qed.

End Conservation.

Lemma seg_walk_conserved sentence tokens st :
  seg_walk sentence tokens = Ok st →
  ∃ buffers,
    Forall2 flushed buffers (segments st).*2
    ∧ concat buffers = filter (λ t, 2 ≤ len t) tokens.
Proof.
  unfold seg_walk. intros H.
  inv_bind_as H positions Hp. inv_bind_as H st1 Hl.
  apply (seg_loop_inv _ _ _ (conserved tokens))
    in Hl as (idx & Hge & Hstart & buffers & Hfl & Hcat).
  - rewrite take_ge in Hcat by done.
    apply flush_buffer_flushed in H
      as [[-> [Hnil|Hs]]|(text & emitted & _ & _ & Hem & Hsg & _ & _)].
    + exists buffers. rewrite Hnil, app_nil_r in Hcat. by split.
    + destruct (buffer_tokens st1) as [|t buf] eqn:Hb.
      * exists buffers. rewrite app_nil_r in Hcat. by split.
      * by destruct Hstart.
    + exists (buffers ++ [buffer_tokens st1]). rewrite Hsg, fmap_app. split.
      * apply Forall2_app; [done|]. by apply Forall2_cons.
      * by rewrite concat_app; cbn; rewrite app_nil_r.
  - split; [done|]. by exists [].
  - intros i0 s0 i1 s1 HI Hlt Hi.
    exact (seg_iter_conserved _ _ _ _ _ _ _ HI Hlt Hi).
Qed.

Lemma seg_walk_clauses sentence tokens st :
  seg_walk sentence tokens = Ok st →
  ∃ closed rest,
    (segments st).*2 = closed ++ rest
    ∧ Forall clause closed
    ∧ (rest = []
       ∨ ∃ ts, rest = [ts] ∧ Forall (λ t, ¬ has_tag t (u "EF")) ts).
Proof.
  unfold seg_walk. intros H.
  inv_bind_as H positions Hp. inv_bind_as H st1 Hl.
  apply (seg_loop_inv _ _ _ (λ _, clause_walk))
    in Hl as (idx & _ & Hstart & Hbuf & Hsegs).
  - apply flush_buffer_flushed in H
      as [[-> _]|(text & emitted & _ & _ & Hem & Hsg & _ & _)].
    + exists (segments st1).*2, []. rewrite app_nil_r. split_and!; auto.
    + exists (segments st1).*2, [emitted]. rewrite Hsg, fmap_app.
      split_and!; [done..|]. right. exists emitted. split; [done|].
      destruct Hem as [->|(init & t & t' & Heq & _ & Hre & ->)]; [done|].
      rewrite Heq in Hbuf. apply Forall_app in Hbuf as [Hinit _].
      apply Forall_app. split; [done|]. apply Forall_singleton.
      apply retag_ecf_Ok in Hre as [_ Hecf]. unfold has_tag in *.
      by rewrite Hecf.
  - by split_and!; [|constructor|constructor].
  - intros i0 s0 i1 s1 HI Hlt Hi.
    exact (seg_iter_clauses _ _ _ _ _ _ _ HI Hlt Hi).
Qed.

(** X15. The segmenter loses, repeats and moves no token: the tokens of
    the segments, one segment after the other, are the refined tokens with
    at least 2 fields, in their order, but for the last token of a segment,
    which a flush retags from [EC] to [ECF]. *)
Theorem segments_conserve_tokens {St} (sentence : pystr)
    (tokens : list token) (callback : option (@callback_t St)) (s : St)
    (segs : list segment) (s' : St) :
  sentence ≠ [] → tokens ≠ [] →
  segment_sentence_by_endings sentence tokens callback s = Ok (segs, s') →
  ∃ refined buffers,
    _refine_tokens tokens (Some sentence) callback s = Ok (refined, s')
    ∧ Forall2 flushed buffers segs.*2
    ∧ concat buffers = filter (λ t, 2 ≤ len t) refined.
Proof.
  intros Hs Ht H.
  apply segment_sentence_by_endings_Ok in H
    as (refined & st & Hr & Hw & ->); [|done..].
  apply seg_walk_conserved in Hw as (buffers & Hfl & Hcat).
  by exists refined, buffers.
Qed.

Lemma segments_conserve_tokens_witness :
  let sentence := u "밥 먹었어 집에 가" in
  let tokens := [tuple [str "밥"; str "NNG"]; tuple [str "먹"; str "VV"];
                 tuple [str "었"; str "EP"]; tuple [str "x"];
                 tuple [str "어"; str "EF"]; tuple [str "집"; str "NNG"];
                 tuple [str "에"; str "JKB"]; tuple [str "가"; str "VV"]] in
  let segs := [(u "밥 먹었어",
                [tuple [str "밥"; str "NNG"]; tuple [str "먹"; str "VV"];
                 tuple [str "었"; str "EP"]; tuple [str "어"; str "EF"]]);
               (u "집에 가",
                [tuple [str "집"; str "NNG"]; tuple [str "에"; str "JKB"];
                 tuple [str "가"; str "VV"]])] in
  @segment_sentence_by_endings unit sentence tokens None () = Ok (segs, ())
  ∧ ∃ refined buffers,
      _refine_tokens tokens (Some sentence) None () = Ok (refined, ())
      ∧ Forall2 flushed buffers segs.*2
      ∧ concat buffers = filter (λ t, 2 ≤ len t) refined.
Proof.
  intros sentence tokens segs.
  assert (H : @segment_sentence_by_endings unit sentence tokens None ()
              = Ok (segs, ())) by reflexivity.
  split; [exact H|].
  exact (segments_conserve_tokens sentence tokens None () segs ()
           ltac:(discriminate) ltac:(discriminate) H).
Defined.

Lemma flushed_surfaces buffers emitted :
  Forall2 flushed buffers emitted →
  surface <$> concat emitted = surface <$> concat buffers.
Proof.
  induction 1 as [|buffer ts buffers emitted Hfl _ IH]; [done|].
  cbn [concat]. rewrite !fmap_app, IH. f_equal.
  destruct Hfl as [->|(init & t & t' & -> & _ & Hre & ->)]; [done|].
  apply retag_ecf_Ok in Hre as [Hsurf _]. rewrite !fmap_app. cbn.
  by rewrite Hsurf.
Qed.

Lemma same_shape_surfaces tokens tokens' :
  Forall2 same_shape tokens tokens' →
  surface <$> filter (λ t, 2 ≤ len t) tokens
  = surface <$> filter (λ t, 2 ≤ len t) tokens'.
Proof.
  induction 1 as [|t t' tokens tokens' [Hs Hl] _ IH]; [done|].
  destruct (decide (2 ≤ len t)) as [H2|H2].
  - rewrite !filter_cons_True by tauto. cbn. by rewrite Hs, IH.
  - rewrite !filter_cons_False by tauto. done.
Qed.

(** X16. Read in order, the surfaces of the tokens of the segments are the
    surfaces of the tokens given that have at least 2 fields: refining and
    segmenting change tags only, and drop only malformed tokens. *)
Theorem segments_keep_surfaces {St} (sentence : pystr)
    (tokens : list token) (callback : option (@callback_t St)) (s : St)
    (segs : list segment) (s' : St) :
  sentence ≠ [] → tokens ≠ [] →
  segment_sentence_by_endings sentence tokens callback s = Ok (segs, s') →
  surface <$> concat segs.*2
  = surface <$> filter (λ t, 2 ≤ len t) tokens.
Proof.
  intros Hs Ht H.
  apply segment_sentence_by_endings_Ok in H
    as (refined & st & Hr & Hw & ->); [|done..].
  apply seg_walk_conserved in Hw as (buffers & Hfl & Hcat).
  rewrite (flushed_surfaces _ _ Hfl), Hcat. symmetry.
  apply same_shape_surfaces. by eapply refine_tokens_same_shape.
Qed.

Lemma segments_keep_surfaces_witness :
  let sentence := u "집에 가서" in
  let tokens := [tuple [str "집"; str "NNG"; num 1 1; num 0 1];
                 pylist [PNone];
                 tuple [str "에"; str "JKB"; num 1 1; num 0 1];
                 tuple [str "가"; str "VV"; num 1 1; num 0 1];
                 tuple [str "서"; str "EC"; num 1 1]] in
  let segs := [(u "집에 가서",
                [tuple [str "집"; str "NNG"; num 1 1; num 0 1];
                 tuple [str "에"; str "JKB"; num 1 1; num 0 1];
                 tuple [str "가"; str "VV"; num 1 1; num 0 1];
                 tuple [str "서"; str "ECF"; num 1 1; num 0 1]])] in
  @segment_sentence_by_endings unit sentence tokens None () = Ok (segs, ())
  ∧ surface <$> concat segs.*2 = [str "집"; str "에"; str "가"; str "서"].
Proof.
  intros sentence tokens segs.
  assert (H : @segment_sentence_by_endings unit sentence tokens None ()
              = Ok (segs, ())) by reflexivity.
  split; [exact H|].
  exact (segments_keep_surfaces sentence tokens None () segs ()
           ltac:(discriminate) ltac:(discriminate) H).
Defined.

Lemma slice_contiguous (s : pystr) a b : contiguous (slice s a b) s.
Proof.
  exists (take a (take b s)), (drop b s). unfold slice.
  by rewrite app_assoc, !take_drop.
Qed.

Lemma strip_contiguous s l : contiguous s l → contiguous (strip s) l.
Proof.
  intros (before & after & ->).
  destruct (strip_spec s) as (lead & trail & Heq & _ & _ & _).
  exists (before ++ lead), (trail ++ after).
  rewrite Heq at 1. by rewrite <- !app_assoc.
Qed.

(** X17. The text of every segment is a piece of the sentence, as it
    stands there, without whitespace at either end. *)
Theorem segments_texts_verbatim {St} (sentence : pystr)
    (tokens : list token) (callback : option (@callback_t St)) (s : St)
    (segs : list segment) (s' : St) :
  tokens ≠ [] →
  segment_sentence_by_endings sentence tokens callback s = Ok (segs, s') →
  Forall (λ seg, trimmed seg.1 ∧ contiguous seg.1 sentence) segs.
Proof.
  intros Ht H. destruct (decide (sentence = [])) as [->|Hs].
  - unfold segment_sentence_by_endings in H.
    rewrite decide_True in H by (by left). injection H as <- <-.
    apply Forall_singleton. split; [by split|]. by exists [], [].
  - apply segment_sentence_by_endings_Ok in H
      as (refined & st & Hr & Hw & ->); [|done..].
    apply seg_walk_texts in Hw.
    apply Forall_forall. intros [text ts] Hin.
    assert (Htext : text ∈ (segments st).*1).
    { apply list_elem_of_fmap. by exists (text, ts). }
    rewrite Hw in Htext.
    apply list_elem_of_fmap in Htext as ([a b] & -> & _).
    unfold span_text. cbn [fst snd]. split.
    + by destruct (strip_spec (slice sentence a b)) as (? & ? & _ & _ & _ & ?).
    + apply strip_contiguous, slice_contiguous.
Qed.

Lemma segments_texts_verbatim_witness :
  let sentence := u " 밥 먹었어  집에 가 " in
  let tokens := [tuple [str "밥"; str "NNG"]; tuple [str "먹"; str "VV"];
                 tuple [str "었"; str "EP"]; tuple [str "어"; str "EF"];
                 tuple [str "집"; str "NNG"]; tuple [str "에"; str "JKB"];
                 tuple [str "가"; str "VV"]] in
  let segs := [(u "밥 먹었어",
                [tuple [str "밥"; str "NNG"]; tuple [str "먹"; str "VV"];
                 tuple [str "었"; str "EP"]; tuple [str "어"; str "EF"]]);
               (u "집에 가",
                [tuple [str "집"; str "NNG"]; tuple [str "에"; str "JKB"];
                 tuple [str "가"; str "VV"]])] in
  @segment_sentence_by_endings unit sentence tokens None () = Ok (segs, ())
  ∧ Forall (λ seg, trimmed seg.1 ∧ contiguous seg.1 sentence) segs.
Proof.
  intros sentence tokens segs.
  assert (H : @segment_sentence_by_endings unit sentence tokens None ()
              = Ok (segs, ())) by reflexivity.
  split; [exact H|].
  exact (segments_texts_verbatim sentence tokens None () segs ()
           ltac:(discriminate) H).
Defined.

(** X18. Every segment but the last is a clause: tokens not tagged [EF],
    then one token tagged [EF], then the particles, [EP] and symbols taken
    along after it. The last segment is a clause too, or holds no token
    tagged [EF]: the segmenter cuts only after a split ending and what
    follows it. *)
Theorem segments_are_clauses {St} (sentence : pystr)
    (tokens : list token) (callback : option (@callback_t St)) (s : St)
    (segs : list segment) (s' : St) :
  sentence ≠ [] → tokens ≠ [] →
  segment_sentence_by_endings sentence tokens callback s = Ok (segs, s') →
  ∃ closed rest,
    segs.*2 = closed ++ rest
    ∧ Forall clause closed
    ∧ (rest = []
       ∨ ∃ ts, rest = [ts] ∧ Forall (λ t, ¬ has_tag t (u "EF")) ts).
Proof.
  intros Hs Ht H.
  apply segment_sentence_by_endings_Ok in H
    as (refined & st & Hr & Hw & ->); [|done..].
  by apply seg_walk_clauses in Hw.
Qed.

Lemma segments_are_clauses_witness :
  let sentence := u "밥 먹었어요. 집에 가" in
  let tokens := [tuple [str "밥"; str "NNG"]; tuple [str "먹"; str "VV"];
                 tuple [str "었"; str "EP"]; tuple [str "어"; str "EF"];
                 tuple [str "요"; str "JX"]; tuple [str "."; str "SF"];
                 tuple [str "집"; str "NNG"]; tuple [str "에"; str "JKB"];
                 tuple [str "가"; str "VV"]] in
  let segs := [(u "밥 먹었어요.",
                [tuple [str "밥"; str "NNG"]; tuple [str "먹"; str "VV"];
                 tuple [str "었"; str "EP"]; tuple [str "어"; str "EF"];
                 tuple [str "요"; str "JX"]; tuple [str "."; str "SF"]]);
               (u "집에 가",
                [tuple [str "집"; str "NNG"]; tuple [str "에"; str "JKB"];
                 tuple [str "가"; str "VV"]])] in
  @segment_sentence_by_endings unit sentence tokens None () = Ok (segs, ())
  ∧ ∃ closed rest,
      segs.*2 = closed ++ rest
      ∧ Forall clause closed
      ∧ (rest = []
         ∨ ∃ ts, rest = [ts] ∧ Forall (λ t, ¬ has_tag t (u "EF")) ts).
Proof.
  intros sentence tokens segs.
  assert (H : @segment_sentence_by_endings unit sentence tokens None ()
              = Ok (segs, ())) by reflexivity.
  split; [exact H|].
  exact (segments_are_clauses sentence tokens None () segs ()
           ltac:(discriminate) ltac:(discriminate) H).
Defined.

(* ===================================================================== *)
(** * Decision callback: what a call does to the outside world *)
(* ===================================================================== *)

(** Reads the fields of a world the callback has acted on. *)
Ltac world_simpl :=
  unfold counted;
  cbn [stdin stdout decision_cache corrections deletions emit set_stdin
       cache_put count_correction count_deletion].

Section CallbackEffects.
Variables lower upper : pystr → pystr.

Lemma effect_trans cache_key decision w1 w2 w3 :
  stdin w2 `suffix_of` stdin w1 →
  stdout w1 `prefix_of` stdout w2 →
  counted w2 = counted w1 →
  decision_cache w2 = decision_cache w1 →
  effect cache_key decision w2 w3 →
  effect cache_key decision w1 w3.
Proof.
  intros Hin Hout Hc Hd [Hin' Hout' Hc' Hd']. split.
  - by etrans.
  - by etrans.
  - by rewrite <- Hc.
  - by rewrite <- Hd.
Qed.

Lemma prompt_effect cache_key lines w decision w' :
  prompt lower upper cache_key lines w = Ok (decision, w') →
  ∀ w0, stdin w0 = lines → stdout w0 `prefix_of` stdout w →
        counted w0 = counted w → decision_cache w0 = decision_cache w →
        effect cache_key decision w0 w'.
Proof.
  remember (length lines) as n eqn:Hn. revert lines w Hn.
  induction n as [n IH] using lt_wf_ind. intros lines w -> H w0 Hin Hout Hc Hd.
  destruct lines as [|line lines1]; [done|]. cbn [prompt] in H.
  set (choice0 := lower (strip line)) in *.
  set (apply_all := bool_decide (1 < length choice0)
                    && endswith choice0 (u "a")) in *.
  set (choice := if apply_all then take (length choice0 - 1) choice0
                 else choice0) in *.
  clearbody choice apply_all. clear choice0.
  assert (Hsuf1 : lines1 `suffix_of` stdin w0).
  { rewrite Hin. by apply suffix_cons_r. }
  assert (Hpre : ∀ l, stdout w0 `prefix_of` (stdout w ++ l)).
  { intros l. by apply prefix_app_r. }
  unfold counted in Hc.
  destruct (bool_decide (choice = u "e")).
  { destruct apply_all; injection H as <- <-; split; world_simpl.
    - done.
    - rewrite <- app_assoc. apply Hpre.
    - right. eexists. split; [done|]. lia.
    - right. eexists. rewrite Hd. split; [done | by left].
    - done.
    - rewrite <- app_assoc. apply Hpre.
    - right. eexists. split; [done|]. lia.
    - by left. }
  destruct (bool_decide (choice = u "k")).
  { destruct apply_all; injection H as <- <-; split; world_simpl.
    - done.
    - rewrite <- app_assoc. apply Hpre.
    - left. split; [done|]. lia.
    - right. eexists. rewrite Hd. split; [done|]. right. split; [done|].
      by left.
    - done.
    - rewrite <- app_assoc. apply Hpre.
    - left. split; [done|]. lia.
    - by left. }
  destruct (bool_decide (choice = u "d")).
  { injection H as <- <-; split; world_simpl.
    - done.
    - rewrite <- app_assoc. apply Hpre.
    - right. eexists. split; [done|].
      destruct (deletions w), (deletions w0); cbn [default] in *;
        unfold id in *; lia.
    - by left. }
  destruct (bool_decide (choice = u "s")).
  { injection H as <- <-; split; world_simpl.
    - done.
    - rewrite <- app_assoc. apply Hpre.
    - left. split; [done|]. lia.
    - right. eexists. rewrite Hd. split; [done|]. right. split; [done|].
      by right. }
  destruct (bool_decide (choice = u "c")).
  - destruct lines1 as [|line2 lines2]; [done|].
    assert (Hsuf2 : lines2 `suffix_of` stdin w0).
    { etrans; [|exact Hsuf1]. by apply suffix_cons_r. }
    destruct (bool_decide (upper (strip line2) = [])).
    + apply (effect_trans _ _ _ (set_stdin lines2 w0)); [done..|].
      eapply (IH (length lines2)); [cbn [length]; lia | done | exact H | ..];
        world_simpl.
      * done.
      * rewrite <- !app_assoc. apply Hpre.
      * lia.
      * done.
    + destruct apply_all; injection H as <- <-; split; world_simpl.
      * done.
      * rewrite <- !app_assoc. apply Hpre.
      * right. eexists. split; [done|]. lia.
      * right. eexists. rewrite Hd. split; [done | by left].
      * done.
      * rewrite <- !app_assoc. apply Hpre.
      * right. eexists. split; [done|]. lia.
      * by left.
  - apply (effect_trans _ _ _ (set_stdin lines1 w0)); [done..|].
    eapply (IH (length lines1)); [cbn [length]; lia | done | exact H | ..];
      world_simpl.
    + done.
    + rewrite <- !app_assoc. apply Hpre.
    + lia.
    + done.
Qed.

Lemma interactive_callback_effect token context_tokens index sentence w
    decision w' :
  interactive_callback lower upper token context_tokens index sentence w
  = Ok (decision, w') →
  ∃ morph tag,
    fields token !! 0 = Some morph ∧ fields token !! 1 = Some tag
    ∧ is_Some (fields token !! 2)
    ∧ effect (morph, tag) decision w w'
    ∧ (is_Some (decision_cache w !! (morph, tag)) →
       decision_cache w' = decision_cache w).
Proof.
  unfold interactive_callback. intros H.
  inv_bind_as H morph Hm. inv_bind_as H tag Ht. inv_bind_as H prob Hp.
  apply getitem_Ok in Hm, Ht, Hp. exists morph, tag.
  split_and!; [done..| |].
  - destruct (decision_cache w !! (morph, tag)) as [cached|] eqn:Hc.
    + destruct (bool_decide (cached = u "KEEP"));
        [|destruct (bool_decide (cached = u "SKIP"))];
        injection H as <- <-; split; world_simpl;
        try done; try (by left).
      right. exists cached. split; [done|]. lia.
    + inv_bind_as H context Hctx. inv_bind_as H fmt Hfmt.
      eapply prompt_effect; [exact H|..];
        destruct sentence as [[|]|]; world_simpl; try done;
        rewrite <- ?app_assoc; by apply prefix_app_r.
  - intros [cached Hc]. rewrite Hc in H.
    by destruct (bool_decide (cached = u "KEEP"));
      [|destruct (bool_decide (cached = u "SKIP"))]; injection H as <- <-.
Qed.

End CallbackEffects.

(** X19. Every tag the callback returns is counted once, as a correction
    or as a deletion, and nothing is counted when it returns [None]. *)
Theorem interactive_callback_counts (lower upper : pystr → pystr)
    (token : token) (context_tokens : list Py.token) (index : nat)
    (sentence : option pystr) (w : world) (decision : pyval) (w' : world) :
  interactive_callback lower upper token context_tokens index sentence w
  = Ok (decision, w') →
  (decision = PNone ∧ counted w' = counted w)
  ∨ (∃ tag, decision = PStr tag ∧ counted w' = counted w + 1).
Proof.
  intros (morph & tag & _ & _ & _ & [_ _ Hc _] & _)%interactive_callback_effect.
  exact Hc.
Qed.

Lemma interactive_callback_counts_witness :
  let token := pylist [str "고"; str "EC"; num 1 2; num 0 1] in
  let w := World ∅ 3 None [u "x"; u "d"] [] in
  ∃ decision w',
    interactive_callback id id token [token] 0 (Some (u "가고")) w
    = Ok (decision, w')
    ∧ ((decision = PNone ∧ counted w' = 3)
       ∨ (∃ tag, decision = PStr tag ∧ counted w' = 4)).
Proof.
  intros token w.
  destruct (interactive_callback id id token [token] 0 (Some (u "가고")) w)
    as [[decision w']|e] eqn:H; [|by vm_compute in H].
  exists decision, w'. split; [done|].
  exact (interactive_callback_counts id id token [token] 0 (Some (u "가고"))
           w decision w' H).
Defined.

(** X20. A call of the callback reads the terminal input from the front,
    only adds to what is printed, and changes the decision cache at most
    by adding an entry for the surface and tag of the token under review:
    no entry is overwritten or removed. *)
Theorem interactive_callback_frame (lower upper : pystr → pystr)
    (token : token) (context_tokens : list Py.token) (index : nat)
    (sentence : option pystr) (w : world) (decision : pyval) (w' : world) :
  interactive_callback lower upper token context_tokens index sentence w
  = Ok (decision, w') →
  stdin w' `suffix_of` stdin w
  ∧ stdout w `prefix_of` stdout w'
  ∧ decision_cache w ⊆ decision_cache w'
  ∧ ∀ key, decision_cache w' !! key ≠ decision_cache w !! key →
      fields token !! 0 = Some key.1 ∧ fields token !! 1 = Some key.2.
Proof.
  intros (morph & tag & Hm & Ht & _ & [Hin Hout _ Hc] & Hkeep)
    %interactive_callback_effect.
  split_and!; [done..| |].
  - destruct (decision_cache w !! (morph, tag)) as [cached|] eqn:Hl.
    + by rewrite Hkeep.
    + destruct Hc as [->|(verdict & -> & _)]; [done|].
      by apply insert_subseteq.
  - intros key Hne. destruct Hc as [Hc|(verdict & Hc & _)];
      [by rewrite Hc in Hne|].
    destruct (decide (key = (morph, tag))) as [->|Hk]; [done|].
    by rewrite Hc, lookup_insert_ne in Hne.
Qed.

Lemma interactive_callback_frame_witness :
  let token := pylist [str "고"; str "EC"; num 1 2; num 0 1] in
  let w := World {[ (str "임", str "NNG") := u "EF" ]} 0 None
             [u "sa"; u "e"] [] in
  ∃ decision w',
    interactive_callback id id token [token] 0 (Some (u "가고")) w
    = Ok (decision, w')
    ∧ stdin w' `suffix_of` stdin w
    ∧ decision_cache w ⊆ decision_cache w'.
Proof.
  intros token w.
  destruct (interactive_callback id id token [token] 0 (Some (u "가고")) w)
    as [[decision w']|e] eqn:H; [|by vm_compute in H].
  exists decision, w'. split; [done|].
  destruct (interactive_callback_frame id id token [token] 0
              (Some (u "가고")) w decision w' H) as (Hin & _ & Hc & _).
  by split.
Defined.

(** X21. A verdict stored by "apply to all" is replayed: when a call on a
    key that was not cached leaves an entry for it in the cache, the next
    call on a token with the same surface and tag gives the same answer
    without reading or printing anything. The one exception is a custom
    tag spelled KEEP or SKIP, which the first call returns as a tag and
    the cache replays as "no change". *)
Theorem interactive_callback_replayed (lower upper : pystr → pystr)
    (token token2 : token) (context_tokens context_tokens2 : list Py.token)
    (index index2 : nat) (sentence sentence2 : option pystr)
    (w : world) (decision : pyval) (w' : world) (morph tag : pyval) :
  interactive_callback lower upper token context_tokens index sentence w
  = Ok (decision, w') →
  fields token !! 0 = Some morph → fields token !! 1 = Some tag →
  decision_cache w !! (morph, tag) = None →
  is_Some (decision_cache w' !! (morph, tag)) →
  decision ≠ PStr (u "KEEP") → decision ≠ PStr (u "SKIP") →
  fields token2 !! 0 = Some morph → fields token2 !! 1 = Some tag →
  3 ≤ len token2 →
  ∃ w'',
    interactive_callback lower upper token2 context_tokens2 index2
      sentence2 w' = Ok (decision, w'')
    ∧ stdin w'' = stdin w' ∧ stdout w'' = stdout w'
    ∧ decision_cache w'' = decision_cache w'.
Proof.
  intros H Hm Ht Hnone Hsome Hkeep Hskip Hm2 Ht2 Hlen.
  apply interactive_callback_effect in H
    as (morph' & tag' & Hm' & Ht' & _ & [_ _ _ Hc] & _).
  rewrite Hm in Hm'. injection Hm' as <-.
  rewrite Ht in Ht'. injection Ht' as <-.
  destruct Hc as [Hc|(verdict & Hc & Hv)].
  { rewrite Hc, Hnone in Hsome. by destruct Hsome. }
  assert (Hl : decision_cache w' !! (morph, tag) = Some verdict)
    by (by rewrite Hc, lookup_insert_eq).
  destruct (fields token2 !! 2) as [prob|] eqn:Hp;
    [|apply lookup_ge_None in Hp; unfold len in Hlen; lia].
  unfold interactive_callback.
  rewrite (proj2 (getitem_Ok token2 0 _) Hm2),
    (proj2 (getitem_Ok token2 1 _) Ht2), (proj2 (getitem_Ok token2 2 _) Hp).
  simpl_bind. rewrite Hl.
  destruct Hv as [->|[-> [->| ->]]].
  - rewrite !bool_decide_eq_false_2 by congruence. by eexists.
  - by eexists.
  - by eexists.
Qed.

Lemma interactive_callback_replayed_witness :
  let token := pylist [str "고"; str "EC"; num 1 2; num 0 1] in
  let token2 := tuple [str "고"; str "EC"; num 1 4] in
  let w := World ∅ 0 None [u "ca"; u "JX"] [] in
  ∃ decision w' w'',
    interactive_callback id id token [token] 0 (Some (u "가고")) w
    = Ok (decision, w')
    ∧ interactive_callback id id token2 [] 5 None w' = Ok (decision, w'')
    ∧ stdout w'' = stdout w'.
Proof.
  intros token token2 w.
  destruct (interactive_callback id id token [token] 0 (Some (u "가고")) w)
    as [[decision w']|e] eqn:H; [|by vm_compute in H].
  assert (Hv : decision = PStr (u "JX")
               ∧ decision_cache w' !! (str "고", str "EC") = Some (u "JX")).
  { vm_compute in H. injection H as <- <-. by vm_compute. }
  destruct Hv as [Hd Hl].
  destruct (interactive_callback_replayed id id token token2 [token] [] 0 5
              (Some (u "가고")) None w decision w' (str "고") (str "EC") H)
    as (w'' & H2 & _ & Hout & _).
  - reflexivity.
  - reflexivity.
  - reflexivity.
  - by rewrite Hl.
  - by rewrite Hd.
  - by rewrite Hd.
  - reflexivity.
  - reflexivity.
  - cbn. lia.
  - by exists decision, w', w''.
Defined.

(* ===================================================================== *)
(** * From segments to endings to the banmal verdict *)
(* ===================================================================== *)

Section TaggedEndings.
Variable tokens : list token.
Hypothesis tokens_tagged : Forall tagged tokens.

Lemma endings_lookahead_returns fuel lookahead idx endings :
  length tokens - lookahead < fuel →
  ∃ r, endings_lookahead tokens fuel lookahead idx endings = Ok r.
Proof using tokens_tagged.
  revert lookahead idx endings.
  induction fuel as [|fuel IH]; intros lookahead idx endings Hf; [lia|].
  cbn [endings_lookahead]. case_decide as Hlt; [|by eexists].
  destruct (lookup_lt_is_Some_2 tokens lookahead Hlt) as [t Ht].
  rewrite (proj2 (getindex_Ok _ _ _) Ht). simpl_bind.
  eapply Forall_lookup_1 in Ht as [? [tag Htag]]%tagged_tag; [|done].
  rewrite decide_False, Htag by lia. simpl_bind. cbn [py_startswith].
  simpl_bind. destruct (_ || _); [apply IH; lia | by eexists].
Qed.

Lemma endings_loop_returns fuel idx endings :
  length tokens - idx < fuel →
  ∃ r, endings_loop tokens fuel idx endings = Ok r.
Proof using tokens_tagged.
  revert idx endings.
  induction fuel as [|fuel IH]; intros idx endings Hf; [lia|].
  cbn [endings_loop]. case_decide as Hlt; [|by eexists].
  destruct (lookup_lt_is_Some_2 tokens idx Hlt) as [t Ht].
  rewrite (proj2 (getindex_Ok _ _ _) Ht). simpl_bind.
  eapply Forall_lookup_1 in Ht as [? [tag Htag]]%tagged_tag; [|done].
  rewrite decide_False, Htag by lia. simpl_bind.
  destruct (tag_in (PStr tag) FINAL_ENDING_TAGS); [|apply IH; lia].
  destruct (endings_lookahead_returns (S (length tokens)) (idx + 1) idx
              (endings ++ [t])) as [[idx' endings'] Hl]; [lia|].
  rewrite Hl. simpl_bind.
  apply endings_lookahead_idx in Hl; [|lia]. apply IH. lia.
Qed.

End TaggedEndings.

Lemma extract_final_endings_returns tokens :
  Forall tagged tokens → ∃ endings, extract_final_endings tokens = Ok endings.
Proof.
  intros Htagged. unfold extract_final_endings. case_decide; [by eexists|].
  apply endings_loop_returns; [done | lia].
Qed.

Lemma tagged_ending_ok t : tagged t → ending_ok t.
Proof. intros (_ & m & tag & rest & Hf & _). by exists m, (PStr tag), rest. Qed.

Lemma is_banmal_returns endings :
  Forall ending_ok endings → ∃ b, is_banmal endings = Ok b.
Proof.
  intros Hok. unfold is_banmal. case_decide; [by eexists|].
  rewrite (banmal_scores_counts _ 0 0 Hok). simpl_bind.
  destruct (_ && _); by eexists.
Qed.

Lemma retag_ecf_tagged t t' : tagged t → retag_ecf t = Ok t' → tagged t'.
Proof.
  intros (Hk & m & tag & rest & Hf & Hrest). unfold retag_ecf, getitem.
  rewrite Hf, Hk. cbn. intros [= <-]. split; [done|].
  by exists m, (u "ECF"), rest.
Qed.

Lemma flushed_tagged buffers emitted :
  Forall2 flushed buffers emitted →
  Forall tagged (concat buffers) → Forall (Forall tagged) emitted.
Proof.
  induction 1 as [|buffer ts buffers emitted Hfl _ IH]; [by constructor|].
  cbn [concat]. intros [Hb Hbs]%Forall_app. constructor; [|by apply IH].
  destruct Hfl as [->|(init & t & t' & -> & _ & Hre & ->)]; [done|].
  apply Forall_app in Hb as [Hinit Ht]. rewrite Forall_singleton in Ht.
  apply Forall_app. split; [done|]. apply Forall_singleton.
  by eapply retag_ecf_tagged.
Qed.

(** X22. On tokens as the tagger returns them (tuples of a surface, a tag
    and, if any, a numeric confidence) and without a callback, the chain
    of the post-processing returns at every stage: the segmenter returns
    segments, [extract_final_endings] returns the endings of each segment,
    and [is_banmal] returns a verdict on them. *)
Theorem tagged_pipeline_returns {St} (sentence : pystr)
    (tokens : list token) (s : St) :
  Forall tagged tokens →
  ∃ segs,
    segment_sentence_by_endings sentence tokens None s = Ok (segs, s)
    ∧ Forall (λ seg, ∃ endings b,
                extract_final_endings seg.2 = Ok endings
                ∧ is_banmal endings = Ok b) segs.
Proof.
  intros Htagged.
  destruct (segment_sentence_by_endings_returns sentence tokens s Htagged)
    as [segs Hsegs].
  exists segs. split; [done|].
  assert (Hall : Forall (Forall tagged) segs.*2).
  { unfold segment_sentence_by_endings in Hsegs.
    destruct (decide (sentence = [] ∨ tokens = [])) as [Hnil|Hnil].
    - injection Hsegs as <-. by apply Forall_singleton.
    - apply M_bind_Ok in Hsegs as (refined & s1 & Hr & Hsegs).
      apply M_bind_Ok in Hsegs as (st & s2 & [Hw ->]%lift_Ok & Hsegs).
      injection Hsegs as <- _.
      destruct (refine_from_returns sentence tokens Htagged 0 tokens s
                  Htagged) as (refined' & Hr' & Hrefined).
      unfold _refine_tokens in Hr. rewrite Hr' in Hr. injection Hr as <- _.
      apply seg_walk_conserved in Hw as (buffers & Hfl & Hcat).
      apply (flushed_tagged _ _ Hfl). rewrite Hcat.
      apply Forall_forall. intros t [_ Ht]%list_elem_of_filter.
      rewrite Forall_forall in Hrefined. by apply Hrefined. }
  rewrite Forall_fmap in Hall.
  eapply Forall_impl; [exact Hall|]. intros [text ts] Hts.
  cbn [compose snd] in Hts |- *.
  destruct (extract_final_endings_returns ts Hts) as [endings He].
  exists endings.
  destruct (is_banmal_returns endings) as [b Hb]; [|by exists b].
  apply extract_final_endings_selected in He as (Hsub & _).
  rewrite firstn_all in Hsub.
  apply Forall_forall. intros e He'. apply tagged_ending_ok.
  rewrite Forall_forall in Hts. apply Hts. by eapply elem_of_sublist.
Qed.

Lemma tagged_pipeline_returns_witness :
  let sentence := u "밥 먹었어요. 집에 가" in
  let tokens := [tuple [str "밥"; str "NNG"; num 1 1; num 0 1];
                 tuple [str "먹"; str "VV"; num 1 1; num 0 1];
                 tuple [str "었"; str "EP"; num 1 1; num 0 1];
                 tuple [str "어"; str "EF"; num 1 1; num 0 1];
                 tuple [str "요"; str "JX"; num 1 1; num 0 1];
                 tuple [str "."; str "SF"; num 1 1; num 0 1];
                 tuple [str "집"; str "NNG"; num 1 1; num 0 1];
                 tuple [str "에"; str "JKB"; num 1 1; num 0 1];
                 tuple [str "가"; str "VV"]] in
  Forall tagged tokens
  ∧ ∃ segs,
      @segment_sentence_by_endings unit sentence tokens None () = Ok (segs, ())
      ∧ Forall (λ seg, ∃ endings b,
                  extract_final_endings seg.2 = Ok endings
                  ∧ is_banmal endings = Ok b) segs.
Proof.
  intros sentence tokens.
  assert (Htagged : Forall tagged tokens).
  { repeat constructor; eexists _, _, _; split; try reflexivity;
      by try eexists. }
  split; [exact Htagged|].
  exact (tagged_pipeline_returns sentence tokens () Htagged).
Defined.

(** X23. Particles and [EP] are collected only after a final ending: from
    tokens none of which is tagged [EF] or [ECF], [extract_final_endings]
    returns the empty list, on which [is_banmal] answers [False]. *)
Theorem no_final_ending_not_banmal (tokens endings : list token) :
  extract_final_endings tokens = Ok endings →
  Forall (λ t, ¬ final_ending t) tokens →
  endings = [] ∧ is_banmal endings = Ok false.
Proof.
  intros (Hsub & _ & Hhd & _)%extract_final_endings_selected Hno.
  rewrite firstn_all in Hsub.
  destruct endings as [|e endings]; [done|]. exfalso.
  assert (He : e ∈ tokens).
  { eapply elem_of_sublist; [|exact Hsub]. left. }
  eapply Forall_forall in Hno; [|exact He]. apply Hno. by apply Hhd.
Qed.

Lemma no_final_ending_not_banmal_witness :
  let tokens := [tuple [str "밥"; str "NNG"]; tuple [str "은"; str "JX"];
                 tuple [str "먹"; str "VV"]; tuple [str "었"; str "EP"]] in
  extract_final_endings tokens = Ok []
  ∧ is_banmal [] = Ok false.
Proof.
  intros tokens.
  assert (H : extract_final_endings tokens = Ok []) by reflexivity.
  split; [exact H|].
  refine (proj2 (no_final_ending_not_banmal tokens [] H _)).
  repeat constructor; intros (tag & [= <-] & Hf); discriminate Hf.
Defined.

Lemma getitem_None t i :
  fields t !! i = None → getitem t i = Raise IndexError.
Proof. unfold getitem. by intros ->. Qed.

Lemma any_in_raises morph :
  (∀ m, morph ≠ PStr m) → any_in polite_endings morph = Raise TypeError.
Proof. intros Hm. by destruct morph as [m| |]; [destruct (Hm m)|..]. Qed.

(** X24. Over endings whose fields are strings, numbers or [None] (the
    field values of this model), [is_banmal] returns a verdict exactly
    when every ending has at least 2 fields and a string as its surface;
    an ending with fewer fields, or with a number or [None] as its
    surface, makes it raise, and what it raises is [IndexError] or
    [TypeError]. *)
Theorem is_banmal_raises (endings : list token) :
  ((∃ b, is_banmal endings = Ok b) ↔ Forall ending_ok endings)
  ∧ ∀ e, is_banmal endings = Raise e → e = IndexError ∨ e = TypeError.
Proof.
  assert (Hscores : ∀ b p,
    match banmal_scores endings b p with
    | Ok _ => Forall ending_ok endings
    | Raise e => ¬ Forall ending_ok endings
                 ∧ (e = IndexError ∨ e = TypeError)
    end).
  { induction endings as [|ending endings IH]; intros b p; [by constructor|].
    cbn [banmal_scores].
    assert (Hbad : ¬ ending_ok ending → ¬ Forall ending_ok (ending :: endings))
      by (by intros Hno [? _]%Forall_cons).
    destruct (fields ending) as [|morph [|tag rest]] eqn:Hf.
    - rewrite (getitem_None ending 0) by (by rewrite Hf). simpl_bind.
      split; [|by left]. apply Hbad. intros (m & t & r & Hm).
      by rewrite Hf in Hm.
    - rewrite (proj2 (getitem_Ok ending 0 morph)) by (by rewrite Hf).
      rewrite (getitem_None ending 1) by (by rewrite Hf). simpl_bind.
      split; [|by left]. apply Hbad. intros (m & t & r & Hm).
      by rewrite Hf in Hm.
    - rewrite (proj2 (getitem_Ok ending 0 morph)) by (by rewrite Hf).
      rewrite (proj2 (getitem_Ok ending 1 tag)) by (by rewrite Hf).
      simpl_bind. destruct morph as [m| |].
      + rewrite any_in_str. simpl_bind.
        assert (Hok : ending_ok ending) by (by exists m, tag, rest).
        destruct (existsb _ _);
          [specialize (IH b (p + 1)) | specialize (IH (b + 1) p)];
          destruct (banmal_scores endings _ _);
          try (by constructor);
          (destruct IH as [Hno He]; split; [|done];
           by intros [_ ?]%Forall_cons).
      + rewrite any_in_raises by done. simpl_bind.
        split; [|by right]. apply Hbad. intros (m & t & r & Hm).
        by rewrite Hf in Hm.
      + rewrite any_in_raises by done. simpl_bind.
        split; [|by right]. apply Hbad. intros (m & t & r & Hm).
        by rewrite Hf in Hm. }
  unfold is_banmal. case_decide as Hnil.
  { subst. split; [|done]. split; [by constructor | by eexists]. }
  specialize (Hscores 0 0).
  destruct (banmal_scores endings 0 0) as [[b p]|e]; simpl_bind.
  - split; [|by destruct (_ && _)]. split; [done|].
    destruct (_ && _); by eexists.
  - destruct Hscores as [Hno He]. split; [|by intros ? [= <-]].
    split; [by intros [? ?] | done].
Qed.

(* ===================================================================== *)
(** * Sentence splitter: splitting again *)
(* ===================================================================== *)

Lemma lstrip_trimmed s :
  (∀ c, head s = Some c → isspace c = false) → lstrip s = s.
Proof.
  destruct s as [|c s]; [done|]. intros Hhd. cbn [lstrip].
  by rewrite (Hhd c eq_refl).
Qed.

Lemma strip_trimmed s : trimmed s → strip s = s.
Proof.
  intros [Hhd Hlast]. unfold strip, rstrip.
  rewrite (lstrip_trimmed s Hhd), lstrip_trimmed, reverse_involutive; [done|].
  intros c. rewrite head_reverse. apply Hlast.
Qed.

(** X25. Splitting is idempotent: a sentence returned by
    [split_sentences] is not split any further, nor changed, when it is
    given to [split_sentences] again. *)
Theorem split_sentences_idempotent (text : pyval) :
  Forall (λ p, split_sentences (PStr p) = [p]) (split_sentences text).
Proof.
  eapply Forall_impl; [apply split_sentences_pieces|].
  intros p (Hp & Htrim & Hnb). cbn beta.
  rewrite (split_sentences_no_boundary p Hnb), (strip_trimmed p Htrim).
  by rewrite decide_False.
Qed.

(* ===================================================================== *)
(** * Interactive run: the refiner with the decision callback *)
(* ===================================================================== *)

Lemma advanced_refl n w : advanced n w w.
Proof. split_and!; [done..|lia|lia]. Qed.

Lemma advanced_trans n m w1 w2 w3 :
  advanced n w1 w2 → advanced m w2 w3 → advanced (n + m) w1 w3.
Proof.
  intros (Hi & Ho & Hc & Hn) (Hi' & Ho' & Hc' & Hn').
  split_and!; [by etrans | by etrans | by etrans | lia | lia].
Qed.

(** The interactive checks consult the callback at most once. *)
Lemma interactive_rules_Ok {St} (callback : option (@callback_t St))
    t tokens i sentence morph prob auto s new_tag s' :
  interactive_rules callback t tokens i sentence morph prob auto s
  = Ok (new_tag, s') →
  s' = s
  ∨ ∃ cb decision,
      callback = Some cb ∧ cb t tokens i sentence s = Ok (decision, s').
Proof.
  destruct callback as [cb|]; [|intros [= _ <-]; by left].
  cbn [interactive_rules]. intros H.
  apply M_bind_Ok in H as (low & s1 & Hlow & H).
  assert (s1 = s) as ->.
  { destruct (eq_str auto (u "EC")); [by apply lift_Ok in Hlow as [_ ->]|].
    by injection Hlow as _ <-. }
  assert (Hask : ∀ r, ask cb t tokens i sentence auto s = Ok r →
                 ∃ decision, cb t tokens i sentence s = Ok (decision, r.2)).
  { intros [r1 r2] Hr. unfold ask in Hr.
    apply M_bind_Ok in Hr as (decision & s2 & Hcb & Hr).
    injection Hr as _ <-. by exists decision. }
  destruct low; [|destruct (_ && _); [|destruct (eq_str morph _)]].
  - apply Hask in H as [decision H]. right. by exists cb, decision.
  - apply Hask in H as [decision H]. right. by exists cb, decision.
  - apply Hask in H as [decision H]. right. by exists cb, decision.
  - injection H as _ <-. by left.
Qed.

Section InteractiveRun.
Variables lower upper : pystr → pystr.

Lemma interactive_callback_advanced token context_tokens index sentence w
    decision w' :
  interactive_callback lower upper token context_tokens index sentence w
  = Ok (decision, w') →
  advanced 1 w w'.
Proof.
  intros (morph & tag & _ & _ & _ & [Hin Hout Hn Hc] & Hkeep)
    %interactive_callback_effect.
  split_and!; [done..| | |].
  - destruct (decision_cache w !! (morph, tag)) as [cached|] eqn:Hl.
    + by rewrite Hkeep.
    + destruct Hc as [->|(verdict & -> & _)]; [done|].
      by apply insert_subseteq.
  - destruct Hn as [[_ ->]|(? & _ & ->)]; lia.
  - destruct Hn as [[_ ->]|(? & _ & ->)]; lia.
Qed.

Lemma refine_from_advanced tokens sentence i todo w refined w' :
  refine_from tokens sentence (Some (interactive_callback lower upper)) i
    todo w = Ok (refined, w') →
  advanced (length todo) w w'.
Proof.
  revert i w refined.
  induction todo as [|token todo IH]; intros i w refined H.
  - injection H as _ <-. apply advanced_refl.
  - cbn [refine_from] in H.
    apply M_bind_Ok in H as (t' & w1 & Ht & H).
    apply M_bind_Ok in H as (refined' & w2 & Hr & H).
    injection H as _ <-. apply IH in Hr.
    apply (advanced_trans 1 (length todo) w w1 w2); [|done].
    destruct (decide (3 ≤ len token)) as [H3|H3].
    + apply refine_token_Ok in Ht
        as (morph & tag & prob & auto & new_tag & _ & _ & _ & _ & Hi & _);
        [|done].
      apply interactive_rules_Ok in Hi as [->|(cb & d & [= <-] & Hcb)];
        [apply advanced_refl|].
      by eapply interactive_callback_advanced.
    + rewrite refine_token_short in Ht by lia. injection Ht as _ <-.
      apply advanced_refl.
Qed.

End InteractiveRun.

(** X26. An interactive run of the segmenter on a sentence reads the
    terminal input from the front, only adds to what is printed, keeps
    every entry of the decision cache as it is, and counts at most one
    decision per token. *)
Theorem interactive_segmentation_frame (lower upper : pystr → pystr)
    (sentence : pystr) (tokens : list token) (w : world)
    (segs : list segment) (w' : world) :
  segment_sentence_by_endings sentence tokens
    (Some (interactive_callback lower upper)) w = Ok (segs, w') →
  stdin w' `suffix_of` stdin w
  ∧ stdout w `prefix_of` stdout w'
  ∧ decision_cache w ⊆ decision_cache w'
  ∧ counted w ≤ counted w' ≤ counted w + length tokens.
Proof.
  unfold segment_sentence_by_endings. case_decide as Hnil.
  - intros [= _ <-]. apply (advanced_refl (length tokens)).
  - intros H. apply M_bind_Ok in H as (refined & w1 & Hr & H).
    apply M_bind_Ok in H as (st & w2 & [_ ->]%lift_Ok & H).
    injection H as _ <-. by eapply refine_from_advanced.
Qed.

Lemma interactive_segmentation_frame_witness :
  let sentence := u "가고 임" in
  let tokens := [pylist [str "가"; str "VV"; num 1 1; num 0 1];
                 pylist [str "고"; str "EC"; num 1 2; num 0 1];
                 pylist [str "임"; str "NNG"; num 1 1; num 0 1]] in
  let w := World ∅ 0 None [u "ka"; u "e"; u "rest"] [] in
  ∃ segs w',
    segment_sentence_by_endings sentence tokens
      (Some (interactive_callback id id)) w = Ok (segs, w')
    ∧ stdin w' `suffix_of` stdin w
    ∧ counted w ≤ counted w' ≤ counted w + length tokens.
Proof.
  intros sentence tokens w.
  destruct (segment_sentence_by_endings sentence tokens
              (Some (interactive_callback id id)) w)
    as [[segs w']|e] eqn:H; [|by vm_compute in H].
  exists segs, w'. split; [done|].
  destruct (interactive_segmentation_frame id id sentence tokens w segs w' H)
    as (Hin & _ & _ & Hn).
  by split.
Defined.

(* ===================================================================== *)
(** * Stored tokens: the automatic run never raises *)
(* ===================================================================== *)

Lemma stored_tag t :
  stored t → 3 ≤ len t ∧ ∃ tag, getitem t 1 = Ok (PStr tag).
Proof.
  intros (m & tag & q & rest & Hf). unfold len, getitem. rewrite Hf.
  split; [cbn; lia | by exists tag].
Qed.

Lemma is_last_meaningful_stored following :
  Forall stored following →
  ∃ b, is_last_meaningful following = Ok b
       ∧ (b = false → Exists not_symbol following).
Proof.
  induction 1 as [|t following Ht _ (b & IH & Hb)]; [by exists true|].
  cbn [is_last_meaningful].
  destruct Ht as (m & tag & q & rest & Hf).
  rewrite (proj2 (getitem_Ok t 1 (PStr tag))) by (by rewrite Hf).
  simpl_bind. cbn [py_startswith]. simpl_bind.
  destruct (startswith tag (u "S")) eqn:Hs.
  - exists b. split; [done|]. intros Hfalse. apply Exists_cons_tl. auto.
  - exists false. split; [done|]. intros _. apply Exists_cons_hd.
    exists tag. split; [|done]. unfold has_tag. by rewrite Hf.
Qed.

Section StoredRefine.
Context {St : Type}.
Variables (sentence : option pystr) (tokens : list token).
Hypothesis tokens_stored : Forall stored tokens.

Lemma rule_etn_stored i m tag :
  ∃ b : bool, rule_etn tokens i (PStr m) (PStr tag) (PStr tag)
              = Ok (if b then PStr tag else PStr (u "EF")).
Proof using tokens_stored.
  unfold rule_etn. destruct (_ && _); [|by exists true].
  case_decide as Hlt; [|by exists false].
  destruct (lookup_lt_is_Some_2 tokens (i + 1) Hlt) as [t Ht].
  rewrite (proj2 (getindex_Ok _ _ _) Ht). simpl_bind.
  eapply Forall_lookup_1 in Ht as [? [tag' Htag]]%stored_tag; [|done].
  rewrite decide_True, Htag by lia. simpl_bind. cbn [py_startswith].
  simpl_bind. by eexists.
Qed.

Lemma auto_rules_stored i m tag q :
  ∃ auto,
    auto_rules tokens i (PStr m) (PStr tag) (PNum q) = Ok (PStr auto)
    ∧ (auto = tag ∨ auto = u "EF" ∨ auto = u "ECF")
    ∧ (auto = u "EC" → Exists not_symbol (drop (i + 1) tokens)).
Proof using tokens_stored.
  unfold auto_rules. destruct (rule_etn_stored i m tag) as [b0 ->].
  simpl_bind. unfold rule_ec.
  destruct (is_last_meaningful_stored (drop (i + 1) tokens))
    as (b1 & Hlast & Hb1); [by apply Forall_drop|].
  set (tag0 := if b0 then PStr tag else PStr (u "EF")).
  assert (Hec : ∃ tag1,
    (if eq_str (PStr tag) (u "EC")
     then last ← is_last_meaningful (drop (i + 1) tokens);
          Ok (if last : bool then PStr (u "ECF") else tag0)
     else Ok tag0) = Ok (PStr tag1)
    ∧ (tag1 = tag ∨ tag1 = u "EF" ∨ tag1 = u "ECF")
    ∧ (tag1 = u "EC" → Exists not_symbol (drop (i + 1) tokens))).
  { destruct (eq_str (PStr tag) (u "EC")) eqn:Heq.
    - rewrite Hlast. simpl_bind. destruct b1.
      + exists (u "ECF"). split_and!; [done | by right; right | done].
      + subst tag0. destruct b0.
        * exists tag. split_and!; [done | by left | auto].
        * exists (u "EF"). split_and!; [done | by right; left | done].
    - subst tag0. destruct b0.
      + exists tag. split_and!; [done | by left |]. intros ->.
        unfold eq_str in Heq. by rewrite bool_decide_eq_true_2 in Heq.
      + exists (u "EF"). split_and!; [done | by right; left | done]. }
  destruct Hec as (tag1 & -> & Htag1 & Hec1). simpl_bind.
  unfold rule_neologism. destruct (_ || _); [|by exists tag1].
  cbn [py_le]. simpl_bind. case_bool_decide.
  - exists (u "EF"). split_and!; [done | by right; left | done].
  - by exists tag1.
Qed.

Lemma refine_token_stored i t (s : St) :
  stored t →
  ∃ t', refine_token tokens sentence None i t s = Ok (t', s)
        ∧ stored t'
        ∧ (not_symbol t → not_symbol t')
        ∧ (has_tag t' (u "EC") → Exists not_symbol (drop (i + 1) tokens)).
Proof using tokens_stored.
  intros (m & tag & q & rest & Hf). unfold refine_token.
  rewrite decide_True by (unfold len; rewrite Hf; cbn; lia).
  rewrite (proj2 (getitem_Ok t 0 (PStr m))) by (by rewrite Hf).
  rewrite (proj2 (getitem_Ok t 1 (PStr tag))) by (by rewrite Hf).
  rewrite (proj2 (getitem_Ok t 2 (PNum q))) by (by rewrite Hf).
  assert (Hoov : ∃ oov, (if decide (4 ≤ len t) then getitem t 3
                         else Ok (PNum 0%Qc)) = Ok oov).
  { case_decide as H4; [|by eexists].
    unfold getitem. destruct (fields t !! 3) eqn:Ho; [by eexists|].
    apply lookup_ge_None in Ho. unfold len in H4. lia. }
  destruct Hoov as [oov ->].
  destruct (auto_rules_stored i m tag q) as (auto & Ha & Hauto & Hec).
  unfold mbind, M_bind, mret, M_ret, lift. cbv beta iota. rewrite Ha.
  cbn [interactive_rules]. unfold mret, M_ret.
  destruct (decide (PStr auto ≠ PStr tag)) as [Hne|Heq].
  - eexists. split_and!; [done | by eexists _, _, _, _ | |].
    + intros _. exists auto. split; [done|].
      by destruct Hauto as [->|[->| ->]]; [destruct Hne|..].
    + intros [= ->]. auto.
  - apply dec_stable in Heq. injection Heq as ->.
    eexists. split_and!; [done | by exists m, tag, q, rest | done |].
    unfold has_tag. rewrite Hf. intros [= ->]. auto.
Qed.

Lemma refine_from_stored i todo (s : St) :
  Forall stored todo →
  ∃ refined,
    refine_from tokens sentence None i todo s = Ok (refined, s)
    ∧ Forall2 (λ t t', stored t' ∧ (not_symbol t → not_symbol t'))
        todo refined
    ∧ ∀ k t', refined !! k = Some t' → has_tag t' (u "EC") →
        Exists not_symbol (drop (i + k + 1) tokens).
Proof using tokens_stored.
  intros Htodo. revert i.
  induction Htodo as [|t todo Ht _ IH]; intros i.
  - exists []. split_and!; [done | constructor |]. intros k t'.
    by rewrite lookup_nil.
  - cbn [refine_from].
    destruct (refine_token_stored i t s Ht) as (t' & Hr & Hs & Hns & Hec).
    destruct (IH (i + 1)) as (refined & Hrest & Hall & Hecs).
    unfold mbind, M_bind, mret, M_ret. rewrite Hr, Hrest.
    exists (t' :: refined). split_and!; [done | by constructor |].
    intros [|k] t1 Hk Htag.
    + injection Hk as <-. rewrite Nat.add_0_r. auto.
    + replace (i + S k + 1) with (i + 1 + k + 1) by lia. by eapply Hecs.
Qed.

End StoredRefine.

Lemma refine_tokens_stored {St} sentence tokens (s : St) :
  Forall stored tokens →
  ∃ refined,
    _refine_tokens tokens sentence None s = Ok (refined, s)
    ∧ Forall stored refined ∧ connectives_followed refined.
Proof.
  intros Hst.
  destruct (refine_from_stored sentence tokens Hst 0 tokens s Hst)
    as (refined & Hr & Hall & Hec).
  exists refined. split_and!; [done| |].
  - apply Forall_forall. intros t' (i & Hi)%list_elem_of_lookup.
    destruct (Forall2_lookup_r _ _ _ _ _ Hall Hi) as (t & _ & Hs & _). done.
  - intros i t' Hi Htag.
    apply (Hec i t' Hi) in Htag.
    apply Exists_exists in Htag as (t & (k & Hk)%list_elem_of_lookup & Hns).
    rewrite lookup_drop in Hk.
    destruct (Forall2_lookup_l _ _ _ _ _ Hall Hk) as (t1 & Hk1 & _ & Hns1).
    exists (0 + i + 1 + k), t1. split_and!; [lia | done | auto].
Qed.

Lemma positions_from_stored sentence tokens cursor :
  Forall stored tokens →
  ∃ positions, positions_from sentence tokens cursor = Ok positions
               ∧ length positions = length tokens.
Proof.
  intros H. revert cursor.
  induction H as [|t tokens (m & tag & q & rest & Hf) _ IH]; intros cursor;
    [by exists []|].
  cbn [positions_from]. unfold surface. rewrite Hf. cbn zeta.
  destruct (negb (truthy (PStr m))).
  { destruct (IH cursor) as (ps & -> & Hlen). eexists. split; [done|].
    cbn. lia. }
  destruct (find sentence m cursor) as [idx|].
  { destruct (IH (idx + length m)) as (ps & -> & Hlen). eexists.
    split; [done|]. cbn. lia. }
  destruct (find sentence m 0) as [idx|].
  - destruct (IH (idx + length m)) as (ps & -> & Hlen). eexists.
    split; [done|]. cbn. lia.
  - destruct (IH cursor) as (ps & -> & Hlen). eexists. split; [done|].
    cbn. lia.
Qed.

(** A flush of a buffer whose last token is not tagged [EC] emits the
    buffer as it is. *)
Lemma flush_buffer_plain sentence explicit_end_pos st t tag :
  last (buffer_tokens st) = Some t → has_tag t tag → tag ≠ u "EC" →
  start_pos st ≠ None →
  ∃ st', flush_buffer sentence explicit_end_pos st = Ok st'
         ∧ buffer_tokens st' = [] ∧ start_pos st' = None
         ∧ (segments st').*2 = (segments st).*2 ++ [buffer_tokens st].
Proof.
  intros Hlast Htag Hne Hstart. unfold flush_buffer.
  destruct (buffer_tokens st) as [|t0 buf] eqn:Hb; [done|].
  destruct (start_pos st) as [start|]; [|done].
  rewrite last_lookup in Hlast.
  replace (pred (length (t0 :: buf))) with (length (t0 :: buf) - 1)
    in Hlast by lia.
  rewrite (proj2 (getindex_Ok _ _ _) Hlast). simpl_bind.
  rewrite (proj2 (getitem_Ok t 1 _) Htag). simpl_bind.
  unfold eq_str. rewrite bool_decide_eq_false_2 by congruence. simpl_bind.
  eexists. split_and!; [done..|]. cbn [segments]. by rewrite fmap_app.
Qed.

Section StoredWalk.
Variables (sentence : pystr) (tokens : list token)
  (positions : list (nat * nat)).
Hypothesis tokens_stored : Forall stored tokens.
Hypothesis positions_length : length positions = length tokens.

Lemma absorb_stored fuel lookahead buffer end_ :
  length tokens - lookahead < fuel →
  ∃ lookahead' post end',
    absorb tokens positions fuel lookahead buffer end_
    = Ok (lookahead', buffer ++ post, end')
    ∧ lookahead ≤ lookahead'
    ∧ Forall glue post
    ∧ take lookahead' tokens = take lookahead tokens ++ post.
Proof using tokens_stored positions_length.
  revert lookahead buffer end_.
  induction fuel as [|fuel IH]; intros lookahead buffer end_ Hf; [lia|].
  cbn [absorb].
  assert (Hstop : ∃ lookahead' post end',
    Ok (lookahead, buffer, end_) = Ok (lookahead', buffer ++ post, end')
    ∧ lookahead ≤ lookahead' ∧ Forall glue post
    ∧ take lookahead' tokens = take lookahead tokens ++ post).
  { exists lookahead, [], end_. by rewrite !app_nil_r. }
  case_decide as Hlt; [|done].
  destruct (lookup_lt_is_Some_2 tokens lookahead Hlt) as [t Ht].
  destruct (lookup_lt_is_Some_2 positions lookahead ltac:(lia)) as [p Hp].
  rewrite (proj2 (getindex_Ok _ _ _) Ht). simpl_bind.
  eapply Forall_lookup_1 in Ht as Hst; [|done].
  destruct (stored_tag _ Hst) as [? [tag Htag]].
  rewrite decide_False, Htag by lia. simpl_bind. cbn [py_startswith].
  simpl_bind.
  assert (Hglue : glue t →
    ∃ lookahead' post end',
      absorb tokens positions fuel (lookahead + 1) (buffer ++ [t])
        (if decide (p.1 < p.2) then Some p.2 else end_)
      = Ok (lookahead', buffer ++ post, end')
      ∧ lookahead ≤ lookahead' ∧ Forall glue post
      ∧ take lookahead' tokens = take lookahead tokens ++ post).
  { intros Hg.
    destruct (IH (lookahead + 1) (buffer ++ [t])
                (if decide (p.1 < p.2) then Some p.2 else end_))
      as (la & post & e & Ha & Hle & Hpost & Htake); [lia|].
    exists la, (t :: post), e. rewrite Ha.
    split_and!; [by rewrite <- app_assoc | lia | by constructor |].
    rewrite Htake, Nat.add_1_r, (take_S_r _ _ _ Ht). by rewrite <- app_assoc. }
  apply getitem_Ok in Htag.
  destruct (startswith tag (u "J")) eqn:HJ; cbn [orb].
  { simpl_bind. rewrite (proj2 (getindex_Ok _ _ _) Hp). simpl_bind.
    apply Hglue. exists tag. split; [done | by left]. }
  destruct (eq_str (PStr tag) (u "EP")) eqn:HEP.
  { simpl_bind. rewrite (proj2 (getindex_Ok _ _ _) Hp). simpl_bind.
    apply Hglue. exists tag. split; [done|]. right. left.
    apply bool_decide_eq_true in HEP. by injection HEP. }
  destruct (startswith tag (u "S")) eqn:HS; simpl_bind; [|done].
  rewrite (proj2 (getindex_Ok _ _ _) Hp). simpl_bind.
  apply Hglue. exists tag. split; [done|]. by right; right.
Qed.

Lemma seg_iter_stored idx st :
  idx < length tokens → buffered tokens idx st →
  ∃ idx' st',
    seg_iter sentence tokens positions idx st = Ok (idx', st')
    ∧ idx < idx' ∧ buffered tokens idx' st'.
Proof using tokens_stored positions_length.
  intros Hlt [Hstart Hcat]. unfold seg_iter.
  destruct (lookup_lt_is_Some_2 tokens idx Hlt) as [t Ht].
  destruct (lookup_lt_is_Some_2 positions idx ltac:(lia)) as [p Hp].
  rewrite (proj2 (getindex_Ok _ _ _) Ht). simpl_bind.
  eapply Forall_lookup_1 in Ht as Hst; [|done].
  destruct (stored_tag _ Hst) as [? [tag Htag]].
  rewrite decide_False by lia.
  rewrite (proj2 (getindex_Ok _ _ _) Hp), Htag. simpl_bind.
  apply getitem_Ok in Htag.
  assert (Htake : take (idx + 1) tokens = take idx tokens ++ [t])
    by (by rewrite Nat.add_1_r, (take_S_r _ _ _ Ht)).
  destruct (tag_in (PStr tag) SPLIT_ENDING_TAGS) eqn:Hsplit.
  - destruct (absorb_stored (S (length tokens)) (idx + 1)
                (buffer_tokens st ++ [t])
                (if decide (p.1 < p.2) then Some p.2 else end_pos st))
      as (la & post & e & Ha & Hle & Hpost & Htk); [lia|].
    rewrite Ha. simpl_bind.
    assert (Hb : ∃ split_end,
      split_boundary sentence tokens positions la e = Ok split_end).
    { unfold split_boundary. cbn zeta.
      destruct (decide (la < length tokens)) as [Hla|Hla]; [|by eexists].
      destruct (lookup_lt_is_Some_2 positions la ltac:(lia)) as [q Hq].
      rewrite (proj2 (getindex_Ok _ _ _) Hq). simpl_bind.
      destruct e as [e|]; [destruct (decide (e ≤ q.1))|]; by eexists. }
    destruct Hb as [split_end ->]. simpl_bind.
    assert (Hlast : ∃ t1 tag1,
      last ((buffer_tokens st ++ [t]) ++ post) = Some t1
      ∧ has_tag t1 tag1 ∧ tag1 ≠ u "EC").
    { destruct (decide (post = [])) as [->|Hne].
      - exists t, tag. rewrite app_nil_r, last_snoc. split_and!; [done..|].
        intros ->. done.
      - destruct (exists_last Hne) as (post' & g & ->).
        apply Forall_app in Hpost as [_ Hg]. rewrite Forall_singleton in Hg.
        destruct Hg as (tag1 & Hg1 & Hg2). exists g, tag1.
        rewrite app_assoc, last_snoc. split_and!; [done..|].
        intros ->. by destruct Hg2 as [|[|]]. }
    destruct Hlast as (t1 & tag1 & Hl1 & Hl2 & Hl3).
    destruct (flush_buffer_plain sentence split_end
      (SegState ((buffer_tokens st ++ [t]) ++ post)
         match start_pos st with None => Some p.1 | Some s => Some s end
         e (segments st) (spans st)) t1 tag1 Hl1 Hl2 Hl3)
      as (st' & Hfl & Hbuf & Hsp & Hsegs);
      [cbn; by destruct (start_pos st)|].
    rewrite Hfl. exists la, st'. split_and!; [done | lia |]. split.
    + by rewrite Hbuf.
    + rewrite Hsegs, Hbuf, app_nil_r. cbn [segments buffer_tokens].
      rewrite concat_app. cbn [concat]. rewrite app_nil_r.
      by rewrite Htk, Htake, !app_assoc, Hcat.
  - eexists _, _. split_and!; [done | lia |]. split.
    + cbn. by destruct (start_pos st).
    + cbn. by rewrite Htake, app_assoc, Hcat.
Qed.

Lemma seg_loop_stored fuel idx st :
  length tokens - idx < fuel → buffered tokens idx st →
  ∃ idx' st',
    seg_loop sentence tokens positions fuel idx st = Ok st'
    ∧ length tokens ≤ idx' ∧ buffered tokens idx' st'.
Proof using tokens_stored positions_length.
  revert idx st. induction fuel as [|fuel IH]; intros idx st Hf Hbuf; [lia|].
  cbn [seg_loop]. case_decide as Hlt; [|exists idx, st; split_and!; [done|lia|done]].
  destruct (seg_iter_stored idx st Hlt Hbuf) as (idx' & st1 & Hi & Hle & Hb1).
  rewrite Hi. simpl_bind. apply IH; [lia|done].
Qed.

End StoredWalk.

Lemma seg_walk_stored sentence tokens :
  Forall stored tokens → connectives_followed tokens →
  ∃ st, seg_walk sentence tokens = Ok st
        ∧ concat (segments st).*2 = tokens.
Proof.
  intros Hst Hec. unfold seg_walk, _token_positions.
  destruct (positions_from_stored sentence tokens 0 Hst)
    as (positions & -> & Hlen). simpl_bind.
  destruct (seg_loop_stored sentence tokens positions Hst Hlen
              (S (length tokens)) 0 seg_init)
    as (idx & st & Hloop & Hge & Hstart & Hcat); [lia | by split |].
  rewrite Hloop. simpl_bind. rewrite take_ge in Hcat by done.
  destruct (decide (buffer_tokens st = [])) as [Hb|Hne].
  { exists st. unfold flush_buffer. rewrite Hb.
    by rewrite Hb, app_nil_r in Hcat. }
  destruct (exists_last Hne) as (init & t & Heq).
  assert (Hlast : tokens !! (length tokens - 1) = Some t).
  { rewrite <- Hcat, Heq, app_assoc.
    rewrite length_app, Nat.add_1_r.
    replace (S (length (concat (segments st).*2 ++ init)) - 1)
      with (length (concat (segments st).*2 ++ init)) by lia.
    by apply list_lookup_middle. }
  eapply Forall_lookup_1 in Hlast as Hstored; [|done].
  destruct Hstored as (m & tag & q & rest & Hf).
  assert (Hl : last (buffer_tokens st) = Some t)
    by (by rewrite Heq, last_snoc).
  assert (Htag : has_tag t tag) by (unfold has_tag; by rewrite Hf).
  assert (Hnec : tag ≠ u "EC").
  { intros ->.
    destruct (Hec (length tokens - 1) t Hlast Htag) as (j & t' & Hj & Hj' & _).
    apply lookup_lt_Some in Hj'. lia. }
  destruct (flush_buffer_plain sentence (Some (length sentence)) st t tag
              Hl Htag Hnec (Hstart Hne)) as (st' & Hfl & _ & _ & Hsegs).
  exists st'. split; [done|].
  rewrite Hsegs, concat_app. cbn [concat]. by rewrite app_nil_r.
Qed.


